(** * Workout view: pose overlay, shared camera stream and playback handlers

  A shallow embedding of the TypeScript components under
  [src/components/workout]:

  - [PoseDetection.tsx]: the skeleton renderer [drawSkeleton] and the
    estimation loop [detectPose];
  - [WebcamFeed.tsx]: the module-level shared stream, [getStream],
    [initializeWebcam], the two effect clean-ups and [handleRetry];
  - [VideoContainer.tsx]: the playback handlers of the container that
    drives a native video element ([handleSeek], [handleSeekRelative],
    [handleReset], ...) and the seek handlers of the YouTube container
    and of the standalone [InstructorVideo] player.

  JavaScript numbers are IEEE 754 binary64 values; they are modelled by
  the primitive floats of the kernel, so comparisons and arithmetic have
  the rounding, the signed zeros and the NaN of the source language. *)

From Stdlib Require Import Floats ZArith.
From stdpp Require Import base option list sorting gmap strings.

Set Warnings "-inexact-float".
Local Open Scope float_scope.

(** ** JavaScript numbers *)

Module Js.

Abbreviation number := PrimFloat.float.

(** [ToBoolean] on a number: [+0], [-0] and [NaN] are falsy. *)
Definition truthy (x : number) : bool := negb (is_nan x || is_zero x).

(** [x > y]. *)
Definition gt (x y : number) : bool := y <? x.

(** [x < y]. *)
Definition lt (x y : number) : bool := x <? y.

(** Neither NaN nor an infinity: the values a WebIDL [double] accepts.
    Assigning any other number to such an attribute throws a
    [TypeError]. *)
Definition isFinite (x : number) : bool := is_finite x.

(** [Math.max(a, b)]: NaN when an argument is NaN, and [+0] is larger
    than [-0]. *)
Definition Math_max (a b : number) : number :=
  if is_nan a || is_nan b then nan
  else if a <? b then b
  else if b <? a then a
  else if get_sign a then b else a.

(** [Math.min(a, b)]: NaN when an argument is NaN, and [-0] is smaller
    than [+0]. *)
Definition Math_min (a b : number) : number :=
  if is_nan a || is_nan b then nan
  else if a <? b then a
  else if b <? a then b
  else if get_sign a then a else b.

Definition Math_PI : number := 3.141592653589793.

(** [o?.score && ...] style guards read an optional number: [undefined]
    is falsy. *)
Definition truthy_opt (o : option number) : bool :=
  match o with
  | Some x => truthy x
  | None => false
  end.

(** [o > y] where [o] may be [undefined]: [undefined] converts to NaN and
    every comparison with NaN is false. *)
Definition gt_opt (o : option number) (y : number) : bool :=
  match o with
  | Some x => gt x y
  | None => false
  end.

(** [arr.forEach(f)] where the callback updates a state of type [S]. *)
Definition forEach {A S : Type} (f : A → S → S) (arr : list A) (s : S) : S :=
  foldl (λ acc a, f a acc) s arr.

(** [arr.find(p)]: the first element that satisfies [p], else
    [undefined]. *)
Definition find {A : Type} (p : A → bool) (arr : list A) : option A :=
  List.find p arr.

End Js.

(** ** PoseDetection.tsx: the skeleton renderer *)

Module Pose.

(** The fields of [poseDetection.Keypoint] that the renderer reads;
    [score] and [name] are optional in the library's type. *)
Record Keypoint := mkKeypoint {
  x : Js.number;
  y : Js.number;
  score : option Js.number;
  name : option string
}.

(** The calls the renderer issues on the 2D context, in order. *)
Inductive CanvasOp :=
| clearRect (x0 y0 w h : Js.number)
| beginPath
| arc (cx cy r a0 a1 : Js.number)
| set_fillStyle (c : string)
| fill
| moveTo (px py : Js.number)
| lineTo (px py : Js.number)
| set_strokeStyle (c : string)
| set_lineWidth (w : Js.number)
| stroke.

(** The 2D context as the log of the calls made on it. *)
Definition Ctx := list CanvasOp.

Definition connections : list (string * string) :=
  [ ("nose", "left_eye");
    ("nose", "right_eye");
    ("left_eye", "left_ear");
    ("right_eye", "right_ear");
    ("left_shoulder", "right_shoulder");
    ("left_shoulder", "left_elbow");
    ("right_shoulder", "right_elbow");
    ("left_elbow", "left_wrist");
    ("right_elbow", "right_wrist");
    ("left_shoulder", "left_hip");
    ("right_shoulder", "right_hip");
    ("left_hip", "right_hip");
    ("left_hip", "left_knee");
    ("right_hip", "right_knee");
    ("left_knee", "left_ankle");
    ("right_knee", "right_ankle") ]%string.

(** [kp.name === label]. *)
Definition name_is (label : string) (kp : Keypoint) : bool :=
  match name kp with
  | Some n => bool_decide (n = label)
  | None => false
  end.

(** Body of the callback of [keypoints.forEach] ("Draw points"). *)
Definition drawPoint (keypoint : Keypoint) (ctx : Ctx) : Ctx :=
  if Js.truthy_opt (score keypoint) && Js.gt_opt (score keypoint) 0.3 then
    ctx ++ [ beginPath;
             arc (x keypoint) (y keypoint) 4 0 (2 * Js.Math_PI);
             set_fillStyle "#00ff00";
             fill ]
  else ctx.

(** Body of the callback of [connections.forEach] ("Draw lines"). *)
Definition drawLine (keypoints : list Keypoint) (conn : string * string)
    (ctx : Ctx) : Ctx :=
  let '(start, end_) := conn in
  let startPoint := Js.find (name_is start) keypoints in
  let endPoint := Js.find (name_is end_) keypoints in
  if Js.truthy_opt (startPoint ≫= score)
     && Js.truthy_opt (endPoint ≫= score)
     && Js.gt_opt (startPoint ≫= score) 0.3
     && Js.gt_opt (endPoint ≫= score) 0.3
  then
    match startPoint, endPoint with
    | Some sp, Some ep =>
        ctx ++ [ beginPath;
                 moveTo (x sp) (y sp);
                 lineTo (x ep) (y ep);
                 set_strokeStyle "#00ff00";
                 set_lineWidth 2;
                 stroke ]
    | _, _ => ctx
    end
  else ctx.

Definition drawSkeleton (ctx : Ctx) (keypoints : list Keypoint) : Ctx :=
  let ctx := Js.forEach drawPoint keypoints ctx in
  Js.forEach (drawLine keypoints) connections ctx.

(** *** The renderer as the specification words it

    These definitions follow the specification: a point for every
    keypoint whose confidence is above 0.3, a line for every connection
    whose two endpoints are. They are compared with the functions above
    in [PoseFacts]. *)

Definition exceeds_threshold (kp : Keypoint) : bool :=
  match score kp with
  | Some s => 0.3 <? s
  | None => false
  end.

Definition point_ops (kp : Keypoint) : Ctx :=
  [ beginPath; arc (x kp) (y kp) 4 0 (2 * Js.Math_PI);
    set_fillStyle "#00ff00"; fill ].

Definition line_ops (sp ep : Keypoint) : Ctx :=
  [ beginPath; moveTo (x sp) (y sp); lineTo (x ep) (y ep);
    set_strokeStyle "#00ff00"; set_lineWidth 2; stroke ].

(** The endpoints of a connection in a pose: for each label the first
    keypoint that carries it. *)
Definition endpoints (keypoints : list Keypoint) (conn : string * string)
    : option (Keypoint * Keypoint) :=
  match Js.find (name_is conn.1) keypoints, Js.find (name_is conn.2) keypoints with
  | Some sp, Some ep => Some (sp, ep)
  | _, _ => None
  end.

Definition connection_drawn (keypoints : list Keypoint)
    (conn : string * string) : bool :=
  match endpoints keypoints conn with
  | Some (sp, ep) => exceeds_threshold sp && exceeds_threshold ep
  | None => false
  end.

Definition connection_ops (keypoints : list Keypoint)
    (conn : string * string) : Ctx :=
  match endpoints keypoints conn with
  | Some (sp, ep) => line_ops sp ep
  | None => []
  end.

(** A keypoint without a usable confidence: [score] is [undefined], or
    a falsy number ([+0], [-0], NaN). *)
Definition score_absent (kp : Keypoint) : Prop :=
  match score kp with
  | Some s => Js.truthy s = false
  | None => True
  end.

(** The regions of the body the glossary names. *)
Inductive Region := Face | Arms | Torso | Legs.

Global Instance Region_eq_dec : EqDecision Region.
Proof. solve_decision. Defined.

Inductive Joint := Nose | Eye | Ear | Shoulder | Elbow | Wrist | Hip | Knee | Ankle.

Definition joint_table : list (string * Joint) :=
  [ ("nose", Nose);
    ("left_eye", Eye); ("right_eye", Eye);
    ("left_ear", Ear); ("right_ear", Ear);
    ("left_shoulder", Shoulder); ("right_shoulder", Shoulder);
    ("left_elbow", Elbow); ("right_elbow", Elbow);
    ("left_wrist", Wrist); ("right_wrist", Wrist);
    ("left_hip", Hip); ("right_hip", Hip);
    ("left_knee", Knee); ("right_knee", Knee);
    ("left_ankle", Ankle); ("right_ankle", Ankle) ]%string.

Definition joint_of (label : string) : option Joint :=
  snd <$> List.find (λ e, bool_decide (e.1 = label)) joint_table.

Definition region_of_joints (a b : Joint) : option Region :=
  match a, b with
  | Nose, Eye | Eye, Ear => Some Face
  | Shoulder, Elbow | Elbow, Wrist => Some Arms
  | Shoulder, Shoulder | Shoulder, Hip | Hip, Hip => Some Torso
  | Hip, Knee | Knee, Ankle => Some Legs
  | _, _ => None
  end.

Definition region (conn : string * string) : option Region :=
  a ← joint_of conn.1; b ← joint_of conn.2; region_of_joints a b.

Definition in_region (r : Region) (conn : string * string) : bool :=
  bool_decide (region conn = Some r).

(** A pose with the seventeen MoveNet keypoints, all confidently
    detected, laid out on a grid. *)
Definition confident_pose : list Keypoint :=
  imap (λ i e, mkKeypoint (of_uint63 (Uint63.of_Z (Z.of_nat i)))
                          (of_uint63 (Uint63.of_Z (2 * Z.of_nat i)))
                          (Some 0.9) (Some e.1)) joint_table.

End Pose.

(** ** What the overlay shows *)

Module Overlay.
Import Pose.

(** [clearRect]: in this code always called on the whole canvas. *)
Definition clears (op : CanvasOp) : bool :=
  match op with
  | clearRect _ _ _ _ => true
  | _ => false
  end.

(** The calls whose drawing is still on the canvas: those made since
    the last time it was cleared. *)
Definition visible (ops : Ctx) : Ctx :=
  foldl (λ shown op, if clears op then [] else shown ++ [op]) [] ops.

(** The labels of a pose, and poses in which no label occurs twice. *)
Definition labels (keypoints : list Keypoint) : list string := omap name keypoints.

Definition distinct_labels (keypoints : list Keypoint) : Prop :=
  NoDup (labels keypoints).

(** The number of lines in a call log. *)
Definition strokes (ops : Ctx) : nat :=
  length (List.filter (λ op, match op with stroke => true | _ => false end) ops).

(** The number of points in a call log. *)
Definition fills (ops : Ctx) : nat :=
  length (List.filter (λ op, match op with fill => true | _ => false end) ops).

End Overlay.

(** ** PoseDetection.tsx: the estimation loop *)

Module EstimationLoop.
Import Pose.

(** What the loops of the component did, newest first: the calls to
    [estimatePoses], the draw steps, the logged failures and the frame
    requests, each with the number of its cycle. *)
Inductive Obs :=
| obs_estimate (n : nat)
| obs_draw (n : nat)
| obs_error (n : nat) (message : string)
| obs_schedule (n : nat) (frame : nat).

(** The detection effect of one mounted component, for a video element
    and a canvas that are there (without them the effect returns at
    once, as it does without a detector). The effect runs again when
    [videoElement] changes, after the clean-up of the run before; that
    clean-up cancels a pending frame but cannot stop a [detectPose]
    that is waiting for [estimatePoses], so the loop of a replaced run
    can go on beside the new one.

    [animationFrame], [requested] (the frame callbacks requested and
    not yet run or cancelled) and [outstanding] (the calls to
    [estimatePoses] that have not settled) are those of the latest run
    of the effect, and [cleaned] tells that its clean-up has run or
    that it returned none;
    [orphans] and [orphanFrames] are the outstanding estimations and
    the pending frames of the runs it replaced. [detectorRef.current],
    the canvas with its size and the calls made on its context, the
    console, the frame ids, the count of completed cycles and the
    history are shared by all of them. [unmounted] is set by the
    clean-up of the first effect, which runs on unmount only. *)
Record Loop := mkLoop {
  started : bool;
  detector : bool;
  width : Js.number;
  height : Js.number;
  canvas : Ctx;
  console : list string;
  animationFrame : option nat;
  requested : list nat;
  nextFrame : nat;
  outstanding : nat;
  cycle : nat;
  history : list Obs;
  cleaned : bool;
  unmounted : bool;
  orphans : nat;
  orphanFrames : list nat
}.

Definition init : Loop :=
  mkLoop false false 0 0 [] [] None [] 0%nat 0%nat 0%nat [] false false 0%nat [].

(** [animationFrame = requestAnimationFrame(detectPose)] at the end of
    a cycle: the next cycle is [cycle l + 1]. *)
Definition schedule (l : Loop) : Loop :=
  mkLoop (started l) (detector l) (width l) (height l) (canvas l) (console l)
    (Some (nextFrame l)) (requested l ++ [nextFrame l]) (S (nextFrame l))
    (outstanding l) (S (cycle l))
    (obs_schedule (S (cycle l)) (nextFrame l) :: history l)
    (cleaned l) (unmounted l) (orphans l) (orphanFrames l).

(** [detectPose()] up to [await estimatePoses(videoElement)]; without a
    detector the function returns and nothing is scheduled. *)
Definition detectPose (l : Loop) : Loop :=
  if detector l then
    mkLoop (started l) (detector l) (width l) (height l) (canvas l) (console l)
      (animationFrame l) (requested l) (nextFrame l) (S (outstanding l))
      (cycle l) (obs_estimate (cycle l) :: history l)
      (cleaned l) (unmounted l) (orphans l) (orphanFrames l)
  else l.

(** The [try] block after the estimation returned [poses]: clear the
    canvas, draw every pose; then the frame request after the block. *)
Definition detectPose_resolved (poses : list (list Keypoint)) (l : Loop) : Loop :=
  let ctx := canvas l ++ [clearRect 0 0 (width l) (height l)] in
  let ctx := Js.forEach (λ pose c, drawSkeleton c pose) poses ctx in
  schedule
    (mkLoop (started l) (detector l) (width l) (height l) ctx (console l)
       (animationFrame l) (requested l) (nextFrame l) (pred (outstanding l))
       (cycle l) (obs_draw (cycle l) :: history l)
       (cleaned l) (unmounted l) (orphans l) (orphanFrames l)).

(** The [catch] block when the estimation threw: one line on the
    console; then the frame request after the block. *)
Definition detectPose_rejected (message : string) (l : Loop) : Loop :=
  schedule
    (mkLoop (started l) (detector l) (width l) (height l) (canvas l)
       (console l ++ ["Error detecting pose: " +:+ message])
       (animationFrame l) (requested l) (nextFrame l) (pred (outstanding l))
       (cycle l) (obs_error (cycle l) message :: history l)
       (cleaned l) (unmounted l) (orphans l) (orphanFrames l)).

(** The same three steps in the closure of a run that was replaced: it
    draws on the same canvas and asks the browser for frames, and its
    own [animationFrame] variable is read by nobody any more. *)
Definition orphan_schedule (l : Loop) : Loop :=
  mkLoop (started l) (detector l) (width l) (height l) (canvas l) (console l)
    (animationFrame l) (requested l) (S (nextFrame l))
    (outstanding l) (S (cycle l))
    (obs_schedule (S (cycle l)) (nextFrame l) :: history l)
    (cleaned l) (unmounted l) (orphans l) (orphanFrames l ++ [nextFrame l]).

Definition orphan_detectPose (l : Loop) : Loop :=
  if detector l then
    mkLoop (started l) (detector l) (width l) (height l) (canvas l) (console l)
      (animationFrame l) (requested l) (nextFrame l) (outstanding l)
      (cycle l) (obs_estimate (cycle l) :: history l)
      (cleaned l) (unmounted l) (S (orphans l)) (orphanFrames l)
  else l.

Definition orphan_resolved (poses : list (list Keypoint)) (l : Loop) : Loop :=
  let ctx := canvas l ++ [clearRect 0 0 (width l) (height l)] in
  let ctx := Js.forEach (λ pose c, drawSkeleton c pose) poses ctx in
  orphan_schedule
    (mkLoop (started l) (detector l) (width l) (height l) ctx (console l)
       (animationFrame l) (requested l) (nextFrame l) (outstanding l)
       (cycle l) (obs_draw (cycle l) :: history l)
       (cleaned l) (unmounted l) (pred (orphans l)) (orphanFrames l)).

Definition orphan_rejected (message : string) (l : Loop) : Loop :=
  orphan_schedule
    (mkLoop (started l) (detector l) (width l) (height l) (canvas l)
       (console l ++ ["Error detecting pose: " +:+ message])
       (animationFrame l) (requested l) (nextFrame l) (outstanding l)
       (cycle l) (obs_error (cycle l) message :: history l)
       (cleaned l) (unmounted l) (pred (orphans l)) (orphanFrames l)).

(** What happens to the component. [Start] is a run of the detection
    effect: the first one, or the one that follows the clean-up of the
    run before, if it returned one, when [videoElement] has changed.
    [Cleanup] is the clean-up of the latest run, before a new run or on
    unmount;
    [DetectorCleared] is the clean-up of the first effect, on unmount.
    The estimations and frames of replaced runs have events of their
    own. *)
Inductive Event :=
| DetectorReady
| DetectorCleared
| Start
| EstimateResolves (poses : list (list Keypoint))
| EstimateRejects (message : string)
| FrameFires (frame : nat)
| Cleanup
| Resize (w h : Js.number)
| OrphanResolves (poses : list (list Keypoint))
| OrphanRejects (message : string).

Definition set_detector (b : bool) (l : Loop) : Loop :=
  mkLoop (started l) b (width l) (height l) (canvas l) (console l)
    (animationFrame l) (requested l) (nextFrame l) (outstanding l) (cycle l)
    (history l) (cleaned l) (unmounted l) (orphans l) (orphanFrames l).

Definition set_requested (r : list nat) (l : Loop) : Loop :=
  mkLoop (started l) (detector l) (width l) (height l) (canvas l) (console l)
    (animationFrame l) r (nextFrame l) (outstanding l) (cycle l) (history l)
    (cleaned l) (unmounted l) (orphans l) (orphanFrames l).

Definition set_orphanFrames (r : list nat) (l : Loop) : Loop :=
  mkLoop (started l) (detector l) (width l) (height l) (canvas l) (console l)
    (animationFrame l) (requested l) (nextFrame l) (outstanding l) (cycle l)
    (history l) (cleaned l) (unmounted l) (orphans l) r.

Definition set_cleaned (l : Loop) : Loop :=
  mkLoop (started l) (detector l) (width l) (height l) (canvas l) (console l)
    (animationFrame l) (requested l) (nextFrame l) (outstanding l) (cycle l)
    (history l) true (unmounted l) (orphans l) (orphanFrames l).

(** A new run of the effect: a new closure, with an [animationFrame] of
    its own that holds nothing yet. What the run before still has
    outstanding or pending stays alive and is nobody's any more. *)
Definition new_run (l : Loop) : Loop :=
  mkLoop true (detector l) (width l) (height l) (canvas l) (console l)
    None [] (nextFrame l) 0%nat (cycle l) (history l) false (unmounted l)
    (orphans l + outstanding l)%nat (orphanFrames l ++ requested l).

Definition apply_event (e : Event) (l : Loop) : option Loop :=
  match e with
  | DetectorReady => Some (set_detector true l)
  | DetectorCleared =>
      Some (mkLoop (started l) false (width l) (height l) (canvas l) (console l)
              (animationFrame l) (requested l) (nextFrame l) (outstanding l)
              (cycle l) (history l) (cleaned l) true (orphans l) (orphanFrames l))
  | Start =>
      if unmounted l || (started l && negb (cleaned l)) then None
      else
        let l := new_run l in
        (* without a detector the effect returns before it defines the
           loop, and returns no clean-up *)
        Some (if detector l then detectPose l else set_cleaned l)
  | EstimateResolves poses =>
      match outstanding l with
      | O => None
      | S _ => Some (detectPose_resolved poses l)
      end
  | EstimateRejects message =>
      match outstanding l with
      | O => None
      | S _ => Some (detectPose_rejected message l)
      end
  | FrameFires frame =>
      if bool_decide (frame ∈ requested l) then
        Some (detectPose
                (set_requested (List.filter (λ f, negb (bool_decide (f = frame)))
                                  (requested l)) l))
      else if bool_decide (frame ∈ orphanFrames l) then
        Some (orphan_detectPose
                (set_orphanFrames (List.filter (λ f, negb (bool_decide (f = frame)))
                                     (orphanFrames l)) l))
      else None
  | Cleanup =>
      if started l && negb (cleaned l) then
        match animationFrame l with
        | Some frame =>
            Some (set_cleaned
                    (set_requested (List.filter (λ f, negb (bool_decide (f = frame)))
                                      (requested l)) l))
        | None => Some (set_cleaned l)
        end
      else None
  | Resize w h =>
      Some (mkLoop (started l) (detector l) w h (canvas l) (console l)
              (animationFrame l) (requested l) (nextFrame l) (outstanding l)
              (cycle l) (history l) (cleaned l) (unmounted l) (orphans l)
              (orphanFrames l))
  | OrphanResolves poses =>
      match orphans l with
      | O => None
      | S _ => Some (orphan_resolved poses l)
      end
  | OrphanRejects message =>
      match orphans l with
      | O => None
      | S _ => Some (orphan_rejected message l)
      end
  end.

Fixpoint run (events : list Event) (l : Loop) : option Loop :=
  match events with
  | [] => Some l
  | e :: rest => apply_event e l ≫= run rest
  end.

(** The number of runs of the effect in a sequence of events. *)
Definition starts (events : list Event) : nat :=
  length (List.filter (λ e, match e with Start => true | _ => false end) events).

(** The loops that are alive: an estimation outstanding or a frame
    pending, in the latest run or in a replaced one. *)
Definition alive (l : Loop) : nat :=
  (outstanding l + length (requested l) + orphans l + length (orphanFrames l))%nat.

(** *** The order the specification asks for *)


(** The cycles whose draw step ran, oldest first. *)
Definition draws (h : list Obs) : list nat :=
  reverse (omap (λ o, match o with obs_draw n => Some n | _ => None end) h).

(** The cycles whose estimation was called, oldest first. *)
Definition estimates (h : list Obs) : list nat :=
  reverse (omap (λ o, match o with obs_estimate n => Some n | _ => None end) h).

(** What the latest run of the effect maintains, whatever the runs
    before it do. *)
Record loop_inv (l : Loop) : Prop := mkLoopInv {
  inv_budget : (outstanding l + length (requested l) ≤ 1)%nat;
  inv_idle :
    started l = false →
    outstanding l = 0%nat ∧ requested l = [] ∧ orphans l = 0%nat ∧ orphanFrames l = []
}.


(** A run of three cycles, the second of which fails. *)
Definition three_cycles : list Event :=
  [ DetectorReady; Start; EstimateResolves [confident_pose];
    FrameFires 0; EstimateRejects "backend lost";
    FrameFires 1; EstimateResolves [] ].

(** The video element changes while the first estimation is
    outstanding: the effect is cleaned up and runs again. *)
Definition video_changes : list Event := [DetectorReady; Start; Cleanup; Start].

End EstimationLoop.

(** ** States of the estimation loop *)

Module LoopStates.
Import EstimationLoop.

(** Nothing estimated, drawn, logged or requested so far. *)
Definition untouched (l : Loop) : Prop :=
  history l = [] ∧ canvas l = [] ∧ console l = [] ∧ outstanding l = 0%nat
  ∧ requested l = [] ∧ animationFrame l = None
  ∧ orphans l = 0%nat ∧ orphanFrames l = [].

(** The effect has run and nothing of its latest run is pending: no
    estimation outstanding and no frame requested. *)
Definition halted (l : Loop) : Prop :=
  started l = true ∧ outstanding l = 0%nat ∧ requested l = [].

(** No loop of a replaced run is alive. *)
Definition no_orphan (l : Loop) : Prop := orphans l = 0%nat ∧ orphanFrames l = [].

(** A pending frame is the one whose id [animationFrame] holds. *)
Definition frame_inv (l : Loop) : Prop :=
  ∀ f, f ∈ requested l → animationFrame l = Some f.

(** The number of times the canvas was cleared. *)
Definition cleared (ops : Pose.Ctx) : nat := length (List.filter Overlay.clears ops).

(** The books of the component: each completed cycle has cleared the
    canvas once or logged one line, and requested one frame; the draw
    steps recorded are the clearings; the estimations called are those
    of the completed cycles and those outstanding, in the latest run or
    in a replaced one. *)
Record tally (l : Loop) : Prop := mkTally {
  tally_cycles : (cleared (canvas l) + length (console l))%nat = cycle l;
  tally_frames : nextFrame l = cycle l;
  tally_draws : length (draws (history l)) = cleared (canvas l);
  tally_estimates :
    length (estimates (history l)) = (cycle l + outstanding l + orphans l)%nat
}.

End LoopStates.

(** ** VideoContainer.tsx: playback handlers of the native video variant *)

Module VideoContainer.

(** The imperative calls a handler issues on [videoRef.current], in
    order. [currentTime] is a [double] attribute of the element: the
    assignment of NaN or of an infinity is issued like any other, the
    element refuses it with a [TypeError], and the handler ends there.
    What else the element does with the calls is the browser's
    business. *)
Inductive MediaCall :=
| el_set_currentTime (t : Js.number)
| el_pause
| el_play
| el_load.

(** The [useState] cells the playback handlers touch, and the element
    behind [videoRef] ([None] when [videoRef.current] is null). *)
Record State := mkState {
  isPlaying : bool;
  currentTime : Js.number;
  duration : Js.number;
  videoError : option string;
  isEnded : bool;
  isVideoLoading : bool;
  videoRef : option (list MediaCall)
}.

Definition setIsPlaying (b : bool) (st : State) : State :=
  mkState b (currentTime st) (duration st) (videoError st) (isEnded st)
    (isVideoLoading st) (videoRef st).

Definition setCurrentTime (t : Js.number) (st : State) : State :=
  mkState (isPlaying st) t (duration st) (videoError st) (isEnded st)
    (isVideoLoading st) (videoRef st).

Definition setDuration (d : Js.number) (st : State) : State :=
  mkState (isPlaying st) (currentTime st) d (videoError st) (isEnded st)
    (isVideoLoading st) (videoRef st).

Definition setVideoError (e : option string) (st : State) : State :=
  mkState (isPlaying st) (currentTime st) (duration st) e (isEnded st)
    (isVideoLoading st) (videoRef st).

Definition setIsEnded (b : bool) (st : State) : State :=
  mkState (isPlaying st) (currentTime st) (duration st) (videoError st) b
    (isVideoLoading st) (videoRef st).

Definition setIsVideoLoading (b : bool) (st : State) : State :=
  mkState (isPlaying st) (currentTime st) (duration st) (videoError st)
    (isEnded st) b (videoRef st).

(** A call on the element, when there is one. *)
Definition call (c : MediaCall) (st : State) : State :=
  mkState (isPlaying st) (currentTime st) (duration st) (videoError st)
    (isEnded st) (isVideoLoading st) ((λ log, log ++ [c]) <$> videoRef st).

(** [videoRef.current && !videoError]. *)
Definition usable (snap st : State) : bool :=
  bool_decide (is_Some (videoRef st)) && negb (bool_decide (is_Some (videoError snap))).

(** A handler is a closure over the values of the render it was created
    in ([snap]); it runs on the pending state [st], which collects the
    updates queued so far, and reads the ref live. [useCallback]'s
    dependency lists make every value a handler reads current, so an
    event runs its handler with the current state as the snapshot. *)
Definition Handler := State → State → State.

Definition dispatch (h : Handler) (st : State) : State := h st st.

(** [value[0]]: reading past the end of the array gives [undefined],
    which every numeric use below converts to NaN. *)
Definition first (value : list Js.number) : Js.number := nth 0 value nan.

Definition handleReset : Handler := λ snap st,
  if usable snap st then
    let st := call (el_set_currentTime 0) st in
    let st := setCurrentTime 0 st in
    let st := call el_pause st in
    let st := setIsPlaying false st in
    setIsEnded false st
  else st.

Definition handlePlayPause : Handler := λ snap st,
  if usable snap st && negb (isVideoLoading snap) then
    let st :=
      if isPlaying snap then call el_pause st
      else
        let st := if isEnded snap then handleReset snap st else st in
        call el_play st in
    setIsPlaying (negb (isPlaying snap)) st
  else st.

(** The rejection handler of [videoRef.current.play()]. *)
Definition onPlayRejected (message : string) : Handler := λ snap st,
  let st := setVideoError (Some ("Failed to play video: " +:+ message)) st in
  setIsPlaying false st.

(** [videoRef.current.currentTime = newTime] throws for a [newTime]
    that is not finite, before [setCurrentTime] is reached: the cells
    stay as they are. *)
Definition handleSeek (value : list Js.number) : Handler := λ snap st,
  if usable snap st then
    let newTime := first value in
    let st := call (el_set_currentTime newTime) st in
    if Js.isFinite newTime then
      let st := setCurrentTime newTime st in
      if Js.lt newTime (duration snap) then setIsEnded false st else st
    else st
  else st.

Definition handleSeekRelative (seconds : Js.number) : Handler := λ snap st,
  if usable snap st then
    let newTime :=
      Js.Math_max 0 (Js.Math_min (duration snap) (currentTime snap + seconds)) in
    handleSeek [newTime] snap st
  else st.

Definition handleTimeUpdate (time : Js.number) : Handler := λ snap st,
  setCurrentTime time st.

Definition handleDurationChange (newDuration : Js.number) : Handler := λ snap st,
  setDuration newDuration st.

Definition handleVideoError (error : string) : Handler := λ snap st,
  let st := setVideoError (Some error) st in
  let st := setIsPlaying false st in
  let st := setIsEnded false st in
  setIsVideoLoading false st.

Definition handleVideoEnded : Handler := λ snap st,
  let st := setIsPlaying false st in
  setIsEnded true st.

Definition handleRetryVideo : Handler := λ snap st,
  let st := setVideoError None st in
  let st := setIsVideoLoading true st in
  call el_load st.

Definition handleVideoLoaded : Handler := λ snap st,
  setIsVideoLoading false st.

(** The container right after mount: the [useState] initial values and
    an attached element on which nothing was called yet. *)
Definition mounted : State := mkState false 0 0 None false true (Some []).

(** *** The playback state as the specification names it *)

Inductive Status := Loading | Paused | Playing | Ended | Errored.

(** The status the specification reads off the flags; Ready and Paused
    are the same flags (loaded, not playing, not ended). *)
Definition status (st : State) : Status :=
  if bool_decide (is_Some (videoError st)) then Errored
  else if isVideoLoading st then Loading
  else if isEnded st then Ended
  else if isPlaying st then Playing
  else Paused.

Definition positionSeconds (st : State) : Js.number := currentTime st.

(** [seek(t)] and [seekRelative(d)] as operations on the state. *)
Definition seek (t : Js.number) (st : State) : State := dispatch (handleSeek [t]) st.

Definition seekRelative (d : Js.number) (st : State) : State :=
  dispatch (handleSeekRelative d) st.

(** Load a source whose duration is [d], then press play. *)
Definition loaded_and_playing (d : Js.number) : State :=
  dispatch handlePlayPause
    (dispatch handleVideoLoaded
       (dispatch (handleDurationChange d) mounted)).

(** Clamping into [[0, d]] the way [handleSeekRelative] writes it. *)
Definition clamp (d t : Js.number) : Js.number := Js.Math_max 0 (Js.Math_min d t).

End VideoContainer.

(** ** InstructorVideo: the handlers of the standalone player *)

Module InstructorVideo.

Record State := mkState {
  isPlaying : bool;
  currentTime : Js.number;
  duration : Js.number;
  videoRef : option (list VideoContainer.MediaCall)
}.

(** The assignment to [currentTime] throws for a value that is not
    finite, and [setCurrentTime] is not reached. *)
Definition handleSeek (value : list Js.number) (st : State) : State :=
  match videoRef st with
  | Some log =>
      mkState (isPlaying st)
        (if Js.isFinite (VideoContainer.first value) then VideoContainer.first value
         else currentTime st)
        (duration st)
        (Some (log ++ [VideoContainer.el_set_currentTime (VideoContainer.first value)]))
  | None => st
  end.

Definition handleLoadedMetadata (elementDuration : Js.number) (st : State) : State :=
  match videoRef st with
  | Some _ => mkState (isPlaying st) (currentTime st) elementDuration (videoRef st)
  | None => st
  end.

Definition handlePlayPause (st : State) : State :=
  match videoRef st with
  | Some log =>
      mkState (negb (isPlaying st)) (currentTime st) (duration st)
        (Some (log ++ [if isPlaying st then VideoContainer.el_pause
                       else VideoContainer.el_play]))
  | None => st
  end.

Definition mounted : State := mkState false 0 0 (Some []).

End InstructorVideo.

(** ** VideoContainer.tsx: the seek handler of the YouTube variant *)

Module YouTubeContainer.

(** The calls made on the player behind [youtubePlayerRef]. *)
Inductive PlayerCall :=
| seekTo (seconds : Js.number)
| pauseVideo
| playVideo.

Record State := mkState {
  isPlaying : bool;
  currentTime : Js.number;
  duration : Js.number;
  isEnded : bool;
  youtubeVideoId : option string;
  youtubePlayerRef : option (list PlayerCall)
}.

(** [youtubeVideoId && youtubePlayerRef.current]: the empty string is
    falsy. *)
Definition ready (st : State) : bool :=
  match youtubeVideoId st, youtubePlayerRef st with
  | Some id, Some _ => negb (bool_decide (id = ""%string))
  | _, _ => false
  end.

Definition handleSeek (value : list Js.number) (st : State) : State :=
  if ready st then
    let newTime := VideoContainer.first value in
    mkState (isPlaying st) newTime (duration st)
      (if Js.lt newTime (duration st) then false else isEnded st)
      (youtubeVideoId st)
      ((λ log, log ++ [seekTo newTime]) <$> youtubePlayerRef st)
  else st.

End YouTubeContainer.

(** ** WebcamFeed.tsx: the shared camera stream *)

Module WebcamFeed.

(** A [MediaStream] object, by identity. *)
Definition Stream := nat.

Bind Scope nat_scope with Stream.

(** A promise returned by [navigator.mediaDevices.getUserMedia], by its
    position in the sequence of requests made to the browser. *)
Definition PromiseId := nat.

Bind Scope nat_scope with PromiseId.

Inductive Outcome :=
| Fulfilled (stream : Stream)
| Rejected (message : string).

Inductive PromiseState :=
| Pending
| Settled (o : Outcome).

(** One invocation of [getStream]: who called, the promise it waits for,
    whether it is the invocation that created that promise (the one
    suspended at [await streamInitPromise]) and what it returned. *)
Record Call := mkCall {
  caller : nat;
  awaits : PromiseId;
  owner : bool;
  result : option Outcome
}.

(** One mounted [WebcamFeed]: the [isEnabled] prop, the [srcObject] of
    its video element, its [useState] cells, and whether
    [initializeWebcam] is suspended on [onloadedmetadata]. *)
Record Instance := mkInstance {
  isEnabled : bool;
  srcObject : option Stream;
  isLoading : bool;
  error : option string;
  streamReady : bool;
  awaitingMetadata : bool
}.

(** The module-level variables [globalStream] and [streamInitPromise],
    the requests made to the browser so far, the invocations of
    [getStream], the streams whose tracks were stopped, and the mounted
    components. *)
Record World := mkWorld {
  globalStream : option Stream;
  streamInitPromise : option PromiseId;
  promises : list PromiseState;
  calls : list Call;
  stopped : gset Stream;
  instances : gmap nat Instance
}.

Definition init : World := mkWorld None None [] [] ∅ ∅.

Definition set_globals (g : option Stream) (p : option PromiseId) (w : World) : World :=
  mkWorld g p (promises w) (calls w) (stopped w) (instances w).

Definition set_instance (i : nat) (inst : Instance) (w : World) : World :=
  mkWorld (globalStream w) (streamInitPromise w) (promises w) (calls w)
    (stopped w) (<[i := inst]> (instances w)).

Definition remove_instance (i : nat) (w : World) : World :=
  mkWorld (globalStream w) (streamInitPromise w) (promises w) (calls w)
    (stopped w) (delete i (instances w)).

(** [stream.active]: false once the tracks are stopped. *)
Definition active (stream : Stream) (w : World) : bool :=
  bool_decide (stream ∉ stopped w).

Definition outcome_of (w : World) (p : PromiseId) : option Outcome :=
  match promises w !! p with
  | Some (Settled o) => Some o
  | _ => None
  end.

(** What [initializeWebcam] does once [await getStream()] returns or
    throws. A component that is no longer mounted has no video element,
    and its state setters do nothing. *)
Definition initializeWebcam_resume (i : nat) (o : Outcome) (w : World) : World :=
  match instances w !! i with
  | Some inst =>
      match o with
      | Fulfilled stream =>
          if active stream w then
            set_instance i
              (mkInstance (isEnabled inst) (Some stream) (isLoading inst)
                 (error inst) (streamReady inst) true) w
          else w
      | Rejected message =>
          set_instance i
            (mkInstance (isEnabled inst) (srcObject inst) false
               (Some message) (streamReady inst) (awaitingMetadata inst)) w
      end
  | None => w
  end.

(** [getStream()], up to its first suspension. With a promise in
    [streamInitPromise] the call returns that promise; without one it
    asks the browser for the camera and stores the new promise. A call
    that returns an already settled promise completes in the same turn,
    and so does the [initializeWebcam] that awaits it. *)
Definition getStream (i : nat) (w : World) : World :=
  match streamInitPromise w with
  | Some p =>
      let w' := mkWorld (globalStream w) (streamInitPromise w) (promises w)
                  (calls w ++ [mkCall i p false (outcome_of w p)])
                  (stopped w) (instances w) in
      match outcome_of w p with
      | Some o => initializeWebcam_resume i o w'
      | None => w'
      end
  | None =>
      let p := length (promises w) in
      mkWorld (globalStream w) (Some p) (promises w ++ [Pending])
        (calls w ++ [mkCall i p true None]) (stopped w) (instances w)
  end.

(** The rest of the invocation that created the promise, after
    [await streamInitPromise]: it stores the stream in [globalStream],
    or clears [streamInitPromise] when the request failed. *)
Definition getStream_resume (o : Outcome) (w : World) : World :=
  match o with
  | Fulfilled stream => set_globals (Some stream) (streamInitPromise w) w
  | Rejected _ => set_globals (globalStream w) None w
  end.

(** [initializeWebcam()], up to [await getStream()]. *)
Definition initializeWebcam (i : nat) (w : World) : World :=
  match instances w !! i with
  | Some inst =>
      if isEnabled inst then
        getStream i
          (set_instance i
             (mkInstance true (srcObject inst) true None (streamReady inst)
                (awaitingMetadata inst)) w)
      else
        set_instance i
          (mkInstance false None false None (streamReady inst)
             (awaitingMetadata inst)) w
  | None => w
  end.

(** The clean-up of the first effect: [videoRef.current.srcObject = null]. *)
Definition detach (i : nat) (w : World) : World :=
  match instances w !! i with
  | Some inst =>
      set_instance i
        (mkInstance (isEnabled inst) None (isLoading inst) (error inst)
           (streamReady inst) (awaitingMetadata inst)) w
  | None => w
  end.

(** [cleanup] of the second effect: stop every track of the shared
    stream and forget the stream and the promise. *)
Definition cleanup (w : World) : World :=
  match globalStream w with
  | Some stream =>
      mkWorld None None (promises w) (calls w) ({[stream]} ∪ stopped w)
        (instances w)
  | None => w
  end.

Global Instance Outcome_eq_dec : EqDecision Outcome.
Proof. solve_decision. Defined.

Global Instance PromiseState_eq_dec : EqDecision PromiseState.
Proof. solve_decision. Defined.

(** A call that waits for [p] returns when [p] settles: the stream, or
    the failure rethrown. The invocation that created [p] returns
    [globalStream], which it has just set to that stream. *)
Definition settle_call (p : PromiseId) (o : Outcome) (c : Call) : Call :=
  if bool_decide (awaits c = p) && bool_decide (result c = None)
  then mkCall (caller c) p (owner c) (Some o) else c.

(** The promise [p] settles: the invocation that created it continues
    first, then every invocation that returned it gets the outcome, each
    followed by the [initializeWebcam] that awaits it. *)
Definition deliver (p : PromiseId) (o : Outcome) (w : World) : World :=
  let waiting :=
    List.filter (λ c, bool_decide (awaits c = p) && bool_decide (result c = None))
      (calls w) in
  let w := mkWorld (globalStream w) (streamInitPromise w)
             (<[p := Settled o]> (promises w))
             (settle_call p o <$> calls w)
             (stopped w) (instances w) in
  let w := getStream_resume o w in
  foldl (λ acc c, initializeWebcam_resume (caller c) o acc) w waiting.

(** The streams the browser has handed out. *)
Definition delivered (w : World) : list Stream :=
  omap (λ ps, match ps with Settled (Fulfilled s) => Some s | _ => None end)
    (promises w).

(** What happens to the page, one browser task at a time. The promise
    reactions of a task run before the next task starts, so each event
    includes the continuations it wakes up. *)
Inductive Event :=
| Mount (i : nat) (enabled : bool)
| SetEnabled (i : nat) (enabled : bool)
| Unmount (i : nat)
| BeforeUnload
| Retry (i : nat)
| Settle (p : PromiseId) (o : Outcome)
| LoadedMetadata (i : nat).

Definition apply_event (e : Event) (w : World) : option World :=
  match e with
  | Mount i enabled =>
      match instances w !! i with
      | None =>
          Some (initializeWebcam i
                  (set_instance i (mkInstance enabled None true None false false) w))
      | Some _ => None
      end
  | SetEnabled i enabled =>
      match instances w !! i with
      | Some inst =>
          if bool_decide (isEnabled inst = enabled) then Some w
          else
            Some (initializeWebcam i
                    (set_instance i
                       (mkInstance enabled None (isLoading inst) (error inst)
                          (streamReady inst) (awaitingMetadata inst)) w))
      | None => None
      end
  | Unmount i =>
      match instances w !! i with
      | Some _ => Some (remove_instance i (cleanup (detach i w)))
      | None => None
      end
  | BeforeUnload =>
      if bool_decide (instances w = ∅) then Some w else Some (cleanup w)
  | Retry i =>
      match instances w !! i with
      | Some inst =>
          if bool_decide (is_Some (error inst)) then Some (initializeWebcam i w)
          else None
      | None => None
      end
  | Settle p o =>
      match promises w !! p with
      | Some Pending =>
          match o with
          | Fulfilled stream =>
              if bool_decide (stream ∈ delivered w) then None
              else Some (deliver p o w)
          | Rejected _ => Some (deliver p o w)
          end
      | _ => None
      end
  | LoadedMetadata i =>
      match instances w !! i with
      | Some inst =>
          if awaitingMetadata inst then
            Some (set_instance i
                    (mkInstance (isEnabled inst) (srcObject inst) false
                       (error inst) true false) w)
          else Some w
      | None => None
      end
  end.

Fixpoint run (events : list Event) (w : World) : option World :=
  match events with
  | [] => Some w
  | e :: rest => apply_event e w ≫= run rest
  end.

(** *** The vocabulary of the specification *)

(** The components that currently show the stream: the consumers that
    have acquired it and not released it. *)
Definition consumers (stream : Stream) (w : World) : nat :=
  size (filter (λ kv, srcObject kv.2 = Some stream) (instances w)).

Definition tracks_stopped (stream : Stream) (w : World) : bool :=
  bool_decide (stream ∈ stopped w).

(** The number of requests made to the camera hardware. *)
Definition hardware_requests (w : World) : nat := length (promises w).

Definition in_flight (p : PromiseId) (w : World) : Prop :=
  promises w !! p = Some Pending.

(** Events that release a consumer or tear the page down. *)
Definition releases (e : Event) : bool :=
  match e with
  | Unmount _ | BeforeUnload => true
  | _ => false
  end.

(** *** Scenarios *)

(** Three feeds mounted before the camera answers. *)
Definition three_feeds : list Event := [Mount 0 true; Mount 1 true; Mount 2 true].

(** Two feeds show the stream. *)
Definition two_consumers : list Event :=
  [Mount 0 true; Mount 1 true; Settle 0 (Fulfilled 7)].

Definition snapshot (w : World) : nat * bool * option Stream :=
  (consumers 7%nat w, tracks_stopped 7%nat w, globalStream w).

(** *** The invariant of the module variables *)

(** The part of the world [getStream] works on. *)
Definition core (w : World) :=
  (globalStream w, streamInitPromise w, promises w, calls w, stopped w).

Record world_inv (w : World) : Prop := mkWorldInv {
  inv_cache :
    match streamInitPromise w, globalStream w with
    | None, None => True
    | Some p, None => promises w !! p = Some Pending
    | Some p, Some stream => promises w !! p = Some (Settled (Fulfilled stream))
    | None, Some _ => False
    end;
  inv_pending : ∀ q, promises w !! q = Some Pending → streamInitPromise w = Some q;
  inv_calls :
    ∀ c, c ∈ calls w →
         result c = outcome_of w (awaits c) ∧ (awaits c < length (promises w))%nat
}.

End WebcamFeed.

(** ** States of the shared camera stream *)

Module WebcamStates.
Import WebcamFeed.

(** What [initializeWebcam] does to a feed when the stream arrives, and
    when the request fails. *)
Definition attach (stream : Stream) (inst : Instance) : Instance :=
  mkInstance (isEnabled inst) (Some stream) (isLoading inst) (error inst)
    (streamReady inst) true.

Definition fail (message : string) (inst : Instance) : Instance :=
  mkInstance (isEnabled inst) (srcObject inst) false (Some message)
    (streamReady inst) (awaitingMetadata inst).

Definition resumed (o : Outcome) (inst : Instance) : Instance :=
  match o with
  | Fulfilled stream => attach stream inst
  | Rejected message => fail message inst
  end.

(** The feeds with a call of [getStream] waiting for the promise [p]. *)
Definition waiting_for (p : PromiseId) (w : World) : list nat :=
  caller <$> List.filter (λ c, bool_decide (awaits c = p) && bool_decide (result c = None))
               (calls w).

(** Only stopped streams the browser handed out, and never the cached
    one. *)
Record live_inv (w : World) : Prop := mkLiveInv {
  live_stopped : ∀ s, s ∈ stopped w → s ∈ delivered w;
  live_cached : ∀ s, globalStream w = Some s → s ∉ stopped w
}.

(** No feed is enabled by the event. *)
Definition keeps_disabled (e : Event) : Prop :=
  match e with
  | Mount _ enabled | SetEnabled _ enabled => enabled = false
  | _ => True
  end.

(** The camera was never asked for and no feed wants it. *)
Record camera_unused (w : World) : Prop := mkCameraUnused {
  unused_requests : promises w = [];
  unused_calls : calls w = [];
  unused_cache : globalStream w = None ∧ streamInitPromise w = None;
  unused_tracks : stopped w = ∅;
  unused_feeds :
    ∀ i inst, instances w !! i = Some inst →
              isEnabled inst = false ∧ error inst = None ∧ srcObject inst = None
}.

(** The feed [i] is mounted and has seen its video's metadata. *)
Definition ready (i : nat) (w : World) : Prop :=
  ∃ inst, instances w !! i = Some inst ∧ streamReady inst = true.

(** The condition under which a mounted feed renders the pose overlay:
    [!isLoading && !error && streamReady && videoRef.current]. *)
Definition overlay_shown (inst : Instance) : bool :=
  negb (isLoading inst) && negb (bool_decide (is_Some (error inst))) && streamReady inst.

End WebcamStates.

(** ** VideoContainer.tsx: the WebcamFeed that owns its stream *)

Module LocalWebcamFeed.

(** A [MediaStream] object, by identity. *)
Definition Stream := nat.

Bind Scope nat_scope with Stream.

(** A call of [navigator.mediaDevices.getUserMedia], by its position in
    the sequence of the calls made. *)
Definition Request := nat.

Bind Scope nat_scope with Request.

(** The mounted component as of its last render: whether the parent
    passes both callbacks and keeps their identity (otherwise a default
    [() => {}] is created at every render, and the dependencies of the
    effect differ each time), the [isEnabled] prop, the two [useState]
    cells, the [srcObject] of the video element ([None] also while the
    error panel is rendered in place of the element), and the [stream]
    that the closure of the effect now in place has captured. *)
Record Feed := mkFeed {
  stable : bool;
  isEnabled : bool;
  stream : option Stream;
  error : option string;
  srcObject : option Stream;
  captured : option Stream
}.

(** Around the component: the requests the browser has not answered,
    each with the [mounted] variable of the effect run that waits for
    it; the number of requests made; the streams the browser handed out;
    the streams whose tracks were stopped; the calls of the two
    callbacks. *)
Record Env := mkEnv {
  pending : gmap Request bool;
  requests : nat;
  obtained : list Stream;
  stopped : gset Stream;
  onStreamReady : list Stream;
  onError : list string
}.

Record World := mkWorld {
  feed : option Feed;
  env : Env
}.

Definition init : World := mkWorld None (mkEnv ∅ 0%nat [] ∅ [] []).

(** [stream.getTracks().forEach((track) => track.stop())] under
    [if (stream)]. *)
Definition stop_tracks (s : option Stream) (e : Env) : Env :=
  match s with
  | Some x =>
      mkEnv (pending e) (requests e) (obtained e) ({[x]} ∪ stopped e)
        (onStreamReady e) (onError e)
  | None => e
  end.

(** The clean-up of the effect in place: [mounted = false], seen by the
    request this run is waiting for (the runs before it have been
    cleaned up already), and the tracks of the stream it captured are
    stopped. *)
Definition cleanup (f : Feed) (e : Env) : Env :=
  stop_tracks (captured f)
    (mkEnv ((λ _, false) <$> pending e) (requests e) (obtained e) (stopped e)
       (onStreamReady e) (onError e)).

(** One run of the effect, up to [await getUserMedia]: its closure
    captures [isEnabled] and [stream] of the render it belongs to. *)
Definition effect_body (f : Feed) (e : Env) : Feed * Env :=
  if isEnabled f then
    (mkFeed (stable f) true (stream f) (error f) (srcObject f) (stream f),
     mkEnv (<[requests e := true]> (pending e)) (S (requests e)) (obtained e)
       (stopped e) (onStreamReady e) (onError e))
  else
    (mkFeed (stable f) false None (error f) (srcObject f) (stream f),
     stop_tracks (stream f) e).

(** The effect after a render. When the run has changed the state
    ([setStream(null)] on a stream), the component renders again, and
    with a default callback the effect is cleaned up and runs once
    more, now on no stream. *)
Definition run_effect (f : Feed) (e : Env) : Feed * Env :=
  let fe := effect_body f e in
  if negb (stable f) && negb (isEnabled f) && bool_decide (is_Some (stream f))
  then effect_body fe.1 (cleanup fe.1 fe.2)
  else fe.

(** The render that follows a change of state: the dependencies of the
    effect are the same unless a callback is a default. *)
Definition rerender (f : Feed) (e : Env) : Feed * Env :=
  if stable f then (f, e) else run_effect f (cleanup f e).

Definition commit (fe : Feed * Env) : World := mkWorld (Some fe.1) fe.2.

(** [err instanceof Error ? err : new Error("Failed to access webcam")],
    by the message; [None] is a rejection with something that is not an
    [Error]. *)
Definition message_of (err : option string) : string :=
  default "Failed to access webcam"%string err.

(** The continuation of [initializeWebcam] when the browser hands out
    [s], in a run that is still [mounted]. *)
Definition adopt (s : Stream) (f : Feed) (e : Env) : Feed * Env :=
  rerender
    (mkFeed (stable f) (isEnabled f) (Some s) None
       (match error f with None => Some s | Some _ => None end) (captured f))
    (mkEnv (pending e) (requests e) (obtained e) (stopped e)
       (onStreamReady e ++ [s]) (onError e)).

(** The [catch] branch, in a run that is still [mounted]. *)
Definition report (err : option string) (f : Feed) (e : Env) : Feed * Env :=
  rerender
    (mkFeed (stable f) (isEnabled f) (stream f) (Some (message_of err)) None (captured f))
    (mkEnv (pending e) (requests e) (obtained e) (stopped e)
       (onStreamReady e) (onError e ++ [message_of err])).

(** What happens to the component, one browser task at a time. *)
Inductive Event :=
| Mount (enabled callbacks : bool)
| SetEnabled (enabled : bool)
| Resolve (r : Request) (s : Stream)
| Reject (r : Request) (err : option string)
| Unmount.

Definition apply_event (ev : Event) (w : World) : option World :=
  match ev with
  | Mount enabled callbacks =>
      match feed w with
      | None =>
          Some (commit (run_effect (mkFeed callbacks enabled None None None None) (env w)))
      | Some _ => None
      end
  | SetEnabled enabled =>
      match feed w with
      | Some f =>
          if stable f && bool_decide (enabled = isEnabled f) then Some w
          else
            Some (commit
                    (run_effect
                       (mkFeed (stable f) enabled (stream f) (error f) (srcObject f)
                          (captured f))
                       (cleanup f (env w))))
      | None => None
      end
  | Resolve r s =>
      match pending (env w) !! r with
      | Some mounted =>
          if bool_decide (s ∈ obtained (env w)) then None
          else
            let e := mkEnv (delete r (pending (env w))) (requests (env w))
                       (obtained (env w) ++ [s]) (stopped (env w))
                       (onStreamReady (env w)) (onError (env w)) in
            match mounted, feed w with
            | true, Some f => Some (commit (adopt s f e))
            | _, _ => Some (mkWorld (feed w) e)
            end
      | None => None
      end
  | Reject r err =>
      match pending (env w) !! r with
      | Some mounted =>
          let e := mkEnv (delete r (pending (env w))) (requests (env w))
                     (obtained (env w)) (stopped (env w))
                     (onStreamReady (env w)) (onError (env w)) in
          match mounted, feed w with
          | true, Some f => Some (commit (report err f e))
          | _, _ => Some (mkWorld (feed w) e)
          end
      | None => None
      end
  | Unmount =>
      match feed w with
      | Some f => Some (mkWorld None (cleanup f (env w)))
      | None => None
      end
  end.

Fixpoint run (events : list Event) (w : World) : option World :=
  match events with
  | [] => Some w
  | ev :: rest => apply_event ev w ≫= run rest
  end.

(** *** States *)

(** The browser handed out the stream [s] and its tracks run. *)
Definition running (s : Stream) (e : Env) : Prop :=
  s ∈ obtained e ∧ s ∉ stopped e.

(** No cell, closure or video element of the component refers to [s]. *)
Definition unheld (s : Stream) (f : Feed) : Prop :=
  stream f ≠ Some s ∧ captured f ≠ Some s ∧ srcObject f ≠ Some s.

(** The stream [s] is held by nobody. *)
Definition abandoned (s : Stream) (w : World) : Prop :=
  running s (env w) ∧ ∀ f, feed w = Some f → unheld s f.

(** No request is awaited by a run of the effect that is still
    [mounted]. *)
Definition quiet (e : Env) : Prop := ∀ r, pending e !! r ≠ Some true.

Record env_ok (e : Env) : Prop := mkEnvOk {
  ok_requests : ∀ r, is_Some (pending e !! r) → (r < requests e)%nat;
  ok_stopped : ∀ s, s ∈ stopped e → s ∈ onStreamReady e;
  ok_adopted : ∀ s, s ∈ onStreamReady e → s ∈ obtained e
}.

(** What the component refers to was handed to [onStreamReady]. *)
Definition holds (f : Feed) (e : Env) : Prop :=
  ∀ s, stream f = Some s ∨ captured f = Some s ∨ srcObject f = Some s →
       s ∈ onStreamReady e.

Record pair_ok (f : Feed) (e : Env) : Prop := mkPairOk {
  ok_env : env_ok e;
  ok_holds : holds f e;
  ok_error : is_Some (error f) → srcObject f = None;
  ok_mounted : quiet e ∨ isEnabled f = true
}.

Definition feed_inv (w : World) : Prop :=
  match feed w with
  | Some f => pair_ok f (env w)
  | None => env_ok (env w) ∧ quiet (env w)
  end.

End LocalWebcamFeed.

(** ** The three state machines side by side *)

Module Page.

(** The events of the player. *)
Inductive PlaybackEvent :=
| PlayPause
| Reset
| Seek (value : list Js.number)
| SeekRelative (seconds : Js.number)
| TimeUpdate (time : Js.number)
| DurationChange (newDuration : Js.number)
| VideoError (message : string)
| VideoEnded
| RetryVideo
| VideoLoaded
| PlayRejected (message : string).

Definition handler (e : PlaybackEvent) : VideoContainer.Handler :=
  match e with
  | PlayPause => VideoContainer.handlePlayPause
  | Reset => VideoContainer.handleReset
  | Seek value => VideoContainer.handleSeek value
  | SeekRelative seconds => VideoContainer.handleSeekRelative seconds
  | TimeUpdate time => VideoContainer.handleTimeUpdate time
  | DurationChange d => VideoContainer.handleDurationChange d
  | VideoError message => VideoContainer.handleVideoError message
  | VideoEnded => VideoContainer.handleVideoEnded
  | RetryVideo => VideoContainer.handleRetryVideo
  | VideoLoaded => VideoContainer.handleVideoLoaded
  | PlayRejected message => VideoContainer.onPlayRejected message
  end.

(** The player, the camera and one pose overlay. *)
Record State := mkState {
  playback : VideoContainer.State;
  camera : WebcamFeed.World;
  overlay : EstimationLoop.Loop
}.

Inductive Event :=
| OnPlayback (e : PlaybackEvent)
| OnCamera (e : WebcamFeed.Event)
| OnOverlay (e : EstimationLoop.Event).

(** Each component owns its state: the player's handlers only reach the
    player's cells, the camera events the module variables and the
    feeds, and [detectPose] its canvas, its console and its frame
    requests. *)
Definition apply_event (e : Event) (pg : State) : option State :=
  match e with
  | OnPlayback pe =>
      Some (mkState (VideoContainer.dispatch (handler pe) (playback pg))
              (camera pg) (overlay pg))
  | OnCamera ce =>
      (λ w, mkState (playback pg) w (overlay pg))
        <$> WebcamFeed.apply_event ce (camera pg)
  | OnOverlay oe =>
      (λ l, mkState (playback pg) (camera pg) l)
        <$> EstimationLoop.apply_event oe (overlay pg)
  end.

Fixpoint run (events : list Event) (pg : State) : option State :=
  match events with
  | [] => Some pg
  | e :: rest => apply_event e pg ≫= run rest
  end.

Definition init : State :=
  mkState VideoContainer.mounted WebcamFeed.init EstimationLoop.init.


End Page.

(** ** Sequences of player events, and the keyboard *)

Module Player.
Import VideoContainer.

(** The player after a sequence of events, each handled by the handler
    of the render it finds. *)
Definition replay (events : list Page.PlaybackEvent) (st : State) : State :=
  foldl (λ acc e, dispatch (Page.handler e) acc) st events.

(** The play/pause button pressed [n] times. *)
Definition presses (n : nat) : list Page.PlaybackEvent := replicate n Page.PlayPause.

(** The controls that act on the video element. *)
Definition control (e : Page.PlaybackEvent) : bool :=
  match e with
  | Page.PlayPause | Page.Reset | Page.Seek _ | Page.SeekRelative _ => true
  | _ => false
  end.

(** [0 <= t <= d] on numbers. *)
Definition within (d t : Js.number) : bool := (0 <=? t) && (t <=? d).

Inductive Layout := split | mini.

(** What [handleKeyDown] can reach: the player, the [layout] and
    [showGrid] cells, and the requests to toggle fullscreen handed to
    [toggleFullscreen]. *)
Record Container := mkContainer {
  player : State;
  layout : Layout;
  showGrid : bool;
  fullscreenToggles : nat
}.

(** [handleKeyDown]: nothing at all unless the focus is inside the
    container; the result tells whether [preventDefault] was called. *)
Definition handleKeyDown (focused : bool) (code : string) (c : Container)
    : bool * Container :=
  if negb focused then (false, c)
  else if bool_decide (code = "Space"%string) then
    (true, mkContainer (dispatch handlePlayPause (player c)) (layout c) (showGrid c)
             (fullscreenToggles c))
  else if bool_decide (code = "ArrowLeft"%string) then
    (true, mkContainer (dispatch (handleSeekRelative (-5)) (player c)) (layout c)
             (showGrid c) (fullscreenToggles c))
  else if bool_decide (code = "ArrowRight"%string) then
    (true, mkContainer (dispatch (handleSeekRelative 5) (player c)) (layout c)
             (showGrid c) (fullscreenToggles c))
  else if bool_decide (code = "Home"%string) then
    (true, mkContainer (dispatch (handleSeek [0]) (player c)) (layout c) (showGrid c)
             (fullscreenToggles c))
  else if bool_decide (code = "End"%string) then
    (true, mkContainer (dispatch (handleSeek [duration (player c)]) (player c))
             (layout c) (showGrid c) (fullscreenToggles c))
  else if bool_decide (code = "KeyR"%string) then
    (true, mkContainer (dispatch handleReset (player c)) (layout c) (showGrid c)
             (fullscreenToggles c))
  else if bool_decide (code = "KeyG"%string) then
    (true, mkContainer (player c) (layout c) (negb (showGrid c)) (fullscreenToggles c))
  else if bool_decide (code = "KeyL"%string) then
    (true, mkContainer (player c)
             (match layout c with split => mini | mini => split end)
             (showGrid c) (fullscreenToggles c))
  else if bool_decide (code = "KeyF"%string) then
    (true, mkContainer (player c) (layout c) (showGrid c) (S (fullscreenToggles c)))
  else (false, c).

(** The key codes the handler knows. *)
Definition shortcuts : list string :=
  [ "Space"; "ArrowLeft"; "ArrowRight"; "Home"; "End"; "KeyR"; "KeyG"; "KeyL";
    "KeyF" ]%string.

(** Keys pressed one after the other with the focus in the container. *)
Definition type_keys (codes : list string) (c : Container) : Container :=
  foldl (λ acc code, (handleKeyDown true code acc).2) c codes.

End Player.

(** ** WebcamFeed.tsx: the events of the instructor video *)

Module Instructor.
Import InstructorVideo.

(** The component: its state and the calls of the two callbacks. *)
Record Component := mkComponent {
  state : State;
  onTimeUpdate : list Js.number;
  onEnded : nat
}.

Definition handleReset (st : State) : State :=
  match videoRef st with
  | Some log =>
      mkState false 0 (duration st)
        (Some (log ++ [VideoContainer.el_set_currentTime 0; VideoContainer.el_pause]))
  | None => st
  end.

(** [handleTimeUpdate], for the [currentTime] read from the element. *)
Definition handleTimeUpdate (time : Js.number) (c : Component) : Component :=
  match videoRef (state c) with
  | Some _ =>
      mkComponent
        (mkState (isPlaying (state c)) time (duration (state c)) (videoRef (state c)))
        (onTimeUpdate c ++ [time]) (onEnded c)
  | None => c
  end.

(** The [onEnded] handler of the video element. *)
Definition handleEnded (c : Component) : Component :=
  mkComponent
    (mkState false (currentTime (state c)) (duration (state c)) (videoRef (state c)))
    (onTimeUpdate c) (S (onEnded c)).

Inductive Event :=
| PlayPause
| TimeUpdate (time : Js.number)
| LoadedMetadata (elementDuration : Js.number)
| Seek (value : list Js.number)
| Reset
| Ended.

Definition on_state (h : State → State) (c : Component) : Component :=
  mkComponent (h (state c)) (onTimeUpdate c) (onEnded c).

Definition handle (e : Event) (c : Component) : Component :=
  match e with
  | PlayPause => on_state handlePlayPause c
  | TimeUpdate time => handleTimeUpdate time c
  | LoadedMetadata d => on_state (handleLoadedMetadata d) c
  | Seek value => on_state (handleSeek value) c
  | Reset => on_state handleReset c
  | Ended => handleEnded c
  end.

Definition replay (events : list Event) (c : Component) : Component :=
  foldl (λ acc e, handle e acc) c events.

Definition start : Component := mkComponent mounted [] 0%nat.

(** The last of [play()] and [pause()] called on the element. *)
Definition transport (c : VideoContainer.MediaCall) : bool :=
  match c with
  | VideoContainer.el_play | VideoContainer.el_pause => true
  | _ => false
  end.

Definition last_told (st : State) : option VideoContainer.MediaCall :=
  videoRef st ≫= λ log, last (List.filter transport log).

Definition told_to_play (st : State) : Prop :=
  last_told st = Some VideoContainer.el_play.

End Instructor.

(** ** VideoContainer.tsx: the YouTube variant and its timer *)

Module YouTubePlayback.
Import YouTubeContainer.

(** Around the player state: the cells [videoError] and
    [isVideoLoading], the console, the interval timers of the window
    that run, [intervalRef.current], and the id the next call of
    [setInterval] returns (ids are positive). *)
Record Page := mkPage {
  player : State;
  videoError : option string;
  isVideoLoading : bool;
  console : list string;
  timers : gset nat;
  intervalRef : option nat;
  nextTimer : nat
}.

Definition handlePlayPause (st : State) : State :=
  if ready st then
    mkState (negb (isPlaying st)) (currentTime st) (duration st) (isEnded st)
      (youtubeVideoId st)
      ((λ log, log ++ [if isPlaying st then pauseVideo else playVideo])
         <$> youtubePlayerRef st)
  else st.

Definition handleReset (st : State) : State :=
  if ready st then
    mkState false 0 (duration st) false (youtubeVideoId st)
      ((λ log, log ++ [seekTo 0; pauseVideo]) <$> youtubePlayerRef st)
  else st.

(** [handleYouTubeStateChange], by [event.data]. *)
Definition handleYouTubeStateChange (data : Z) (st : State) : State :=
  if bool_decide (data = 0%Z) then
    mkState false (currentTime st) (duration st) true (youtubeVideoId st)
      (youtubePlayerRef st)
  else if bool_decide (data = 1%Z) then
    mkState true (currentTime st) (duration st) (isEnded st) (youtubeVideoId st)
      (youtubePlayerRef st)
  else if bool_decide (data = 2%Z) then
    mkState false (currentTime st) (duration st) (isEnded st) (youtubeVideoId st)
      (youtubePlayerRef st)
  else st.

(** [handleYouTubePlaybackTime], for the time the player reports. *)
Definition handleYouTubePlaybackTime (time : Js.number) (st : State) : State :=
  match youtubePlayerRef st with
  | Some _ =>
      mkState (isPlaying st) time (duration st) (isEnded st) (youtubeVideoId st)
        (youtubePlayerRef st)
  | None => st
  end.

(** [handleYouTubeReady], for the duration the player reports: from
    now on there is a player behind the reference; the calls recorded
    so far are kept. *)
Definition handleYouTubeReady (d : Js.number) (p : Page) : Page :=
  mkPage
    (mkState (isPlaying (player p)) (currentTime (player p)) d (isEnded (player p))
       (youtubeVideoId (player p)) (Some (default [] (youtubePlayerRef (player p)))))
    (videoError p) false (console p) (timers p) (intervalRef p) (nextTimer p).

Definition handleYouTubeError (p : Page) : Page :=
  mkPage (player p) (Some "Failed to load YouTube video"%string) false
    (console p ++ ["YouTube player error:"%string]) (timers p) (intervalRef p)
    (nextTimer p).

Definition setYoutubeVideoId (id : string) (st : State) : State :=
  mkState (isPlaying st) (currentTime st) (duration st) (isEnded st) (Some id)
    (youtubePlayerRef st).

Inductive Event :=
| PlayPause
| Reset
| Seek (value : list Js.number)
| Submit (id : string)
| PlayerReady (d : Js.number)
| StateChange (data : Z)
| PlayerError
| Tick (time : Js.number).

Definition on_player (h : State → State) (p : Page) : Page :=
  mkPage (h (player p)) (videoError p) (isVideoLoading p) (console p) (timers p)
    (intervalRef p) (nextTimer p).

(** The clean-up of the timer effect: [clearInterval] on whatever
    [intervalRef.current] holds, if it is truthy. The reference is not
    reset. *)
Definition clearTimer (p : Page) : Page :=
  match intervalRef p with
  | Some id =>
      if bool_decide (id = 0%nat) then p
      else
        mkPage (player p) (videoError p) (isVideoLoading p) (console p)
          (timers p ∖ {[id]}) (intervalRef p) (nextTimer p)
  | None => p
  end.

(** The timer effect: [setInterval] when the video plays. *)
Definition startTimer (p : Page) : Page :=
  if isPlaying (player p) then
    mkPage (player p) (videoError p) (isVideoLoading p) (console p)
      ({[nextTimer p]} ∪ timers p) (Some (nextTimer p)) (S (nextTimer p))
  else p.

(** After the render that follows an event: the timer effect depends on
    [isPlaying] alone. *)
Definition effects (before : bool) (p : Page) : Page :=
  if bool_decide (isPlaying (player p) = before) then p
  else startTimer (clearTimer p).

Definition handle (e : Event) (p : Page) : Page :=
  match e with
  | PlayPause => on_player handlePlayPause p
  | Reset => on_player handleReset p
  | Seek value => on_player (handleSeek value) p
  | Submit id => on_player (setYoutubeVideoId id) p
  | PlayerReady d => handleYouTubeReady d p
  | StateChange data => on_player (handleYouTubeStateChange data) p
  | PlayerError => handleYouTubeError p
  | Tick time => on_player (handleYouTubePlaybackTime time) p
  end.

(** A tick needs a running timer. *)
Definition apply_event (e : Event) (p : Page) : option Page :=
  match e with
  | Tick _ =>
      if bool_decide (timers p = ∅) then None
      else Some (effects (isPlaying (player p)) (handle e p))
  | _ => Some (effects (isPlaying (player p)) (handle e p))
  end.

Fixpoint run (events : list Event) (p : Page) : option Page :=
  match events with
  | [] => Some p
  | e :: rest => apply_event e p ≫= run rest
  end.

(** The page after mount: the effect has run once, and started no
    timer. *)
Definition init : Page :=
  mkPage (mkState false 0 0 false None None) None true [] ∅ None 1%nat.

(** One timer while the video plays, none otherwise. *)
Definition timer_inv (p : Page) : Prop :=
  (0 < nextTimer p)%nat
  ∧ (∀ id, intervalRef p = Some id → (0 < id < nextTimer p)%nat)
  ∧ if isPlaying (player p)
    then ∃ id, intervalRef p = Some id ∧ timers p = {[id]}
    else timers p = ∅.

End YouTubePlayback.

(** ** Facts about binary64 comparisons *)

Module JsFacts.
Import Js.

(** The double closest to the literal [0.3]. *)
Lemma threshold_bits : Prim2SF 0.3 = S754_finite false 5404319552844595 (-54).
Proof. vm_compute. reflexivity. Qed.

Lemma zero_bits : Prim2SF zero = S754_zero false.
Proof. reflexivity. Qed.

(** A number above the threshold is neither NaN nor a zero, so the
    truthiness guard in front of [score > 0.3] never changes the
    outcome. *)
Lemma gt_threshold_truthy (s : number) : gt s 0.3 = true → truthy s = true.
Proof.
  unfold gt, truthy, is_nan, is_zero.
  rewrite !FloatAxioms.eqb_spec, FloatAxioms.ltb_spec, threshold_bits, zero_bits.
  destruct (Prim2SF s) as [sg|sg| |sg m e]; cbn; try discriminate.
  - destruct sg; cbn; [discriminate | reflexivity].
  - unfold SFltb, SFeqb. cbn. intros H.
    destruct sg; cbn in *; [discriminate |].
    rewrite Z.compare_refl, Pos.compare_cont_refl. reflexivity.
Qed.

Lemma guard_absorbed (o : option number) :
  truthy_opt o && gt_opt o 0.3 = gt_opt o 0.3.
Proof.
  destruct o as [s|]; [| reflexivity].
  change (truthy s && gt s 0.3 = gt s 0.3).
  destruct (gt s 0.3) eqn:Hgt.
  - rewrite (gt_threshold_truthy s Hgt). reflexivity.
  - apply andb_false_r.
Qed.

(** Nothing is strictly above itself: a score equal to the threshold is
    not above it. *)
Lemma gt_irrefl (s : number) : gt s s = false.
Proof.
  unfold gt. rewrite FloatAxioms.ltb_spec. unfold SFltb.
  destruct (Prim2SF s) as [sg|sg| |sg m e]; cbn; try reflexivity.
  - destruct sg; reflexivity.
  - destruct sg; rewrite Z.compare_refl, Pos.compare_cont_refl; reflexivity.
Qed.

(** A falsy number (NaN, [+0] or [-0]) is not above the threshold. *)
Lemma falsy_not_gt_threshold (s : number) : truthy s = false → gt s 0.3 = false.
Proof.
  intros Hf. destruct (gt s 0.3) eqn:Hgt; [| reflexivity].
  rewrite (gt_threshold_truthy s Hgt) in Hf. discriminate.
Qed.

(** The order of binary64 values, read on their specification. *)
Lemma SFcompare_antisym (a b : spec_float) (c : comparison) :
  SFcompare a b = Some c → SFcompare b a = Some (CompOpp c).
Proof.
  destruct a as [sa|sa| |sa ma ea], b as [sb|sb| |sb mb eb]; cbn;
    try discriminate; intros [= <-]; try (destruct sa; reflexivity);
    try (destruct sb; reflexivity); try reflexivity.
  - destruct sa, sb; reflexivity.
  - destruct sa, sb; cbn; try reflexivity;
      rewrite (Z.compare_antisym ea eb); destruct (ea ?= eb)%Z; cbn;
      try reflexivity; rewrite (Pos.compare_cont_antisym ma mb Eq); cbn;
      [reflexivity | destruct (Pos.compare_cont Eq ma mb); reflexivity].
Qed.

Lemma SFcompare_Eq (a b : spec_float) :
  SFcompare a b = Some Eq →
  a = b ∨ (∃ sa sb, a = S754_zero sa ∧ b = S754_zero sb).
Proof.
  destruct a as [sa|sa| |sa ma ea], b as [sb|sb| |sb mb eb]; cbn;
    try discriminate.
  - intros _. right. eauto.
  - destruct sb; discriminate.
  - destruct sb; discriminate.
  - destruct sa; discriminate.
  - destruct sa, sb; try discriminate; intros _; left; reflexivity.
  - destruct sa; discriminate.
  - destruct sa; discriminate.
  - destruct sb; discriminate.
  - destruct sa, sb; try discriminate; destruct (ea ?= eb)%Z eqn:E;
      try discriminate; apply Z.compare_eq in E; subst; intros [= H];
      left; f_equal.
    + destruct (Pos.compare_cont Eq ma mb) eqn:E2; try discriminate.
      apply Pos.compare_eq in E2. exact E2.
    + apply Pos.compare_eq in H. exact H.
Qed.

Lemma SFcompare_refl (a : spec_float) (b : spec_float) (c : comparison) :
  SFcompare a b = Some c → SFcompare a a = Some Eq.
Proof.
  destruct a as [sa|sa| |sa ma ea]; cbn; try discriminate; intros _.
  - reflexivity.
  - destruct sa; reflexivity.
  - destruct sa; rewrite Z.compare_refl, Pos.compare_cont_refl; reflexivity.
Qed.

(** A number that takes part in a successful comparison is not NaN. *)
Lemma ltb_not_nan (a b : number) :
  (a <? b) = true → is_nan a = false ∧ is_nan b = false.
Proof.
  unfold is_nan. rewrite FloatAxioms.ltb_spec, !FloatAxioms.eqb_spec.
  unfold SFltb, SFeqb.
  destruct (SFcompare (Prim2SF a) (Prim2SF b)) as [c|] eqn:E; [| discriminate].
  intros _. rewrite (SFcompare_refl _ _ _ E).
  rewrite (SFcompare_refl _ _ _ (SFcompare_antisym _ _ _ E)). split; reflexivity.
Qed.

Lemma leb_not_nan (a b : number) :
  (a <=? b) = true → is_nan a = false ∧ is_nan b = false.
Proof.
  unfold is_nan. rewrite FloatAxioms.leb_spec, !FloatAxioms.eqb_spec.
  unfold SFleb, SFeqb.
  destruct (SFcompare (Prim2SF a) (Prim2SF b)) as [c|] eqn:E; [| discriminate].
  intros _. rewrite (SFcompare_refl _ _ _ E).
  rewrite (SFcompare_refl _ _ _ (SFcompare_antisym _ _ _ E)). split; reflexivity.
Qed.

Lemma leb_not_ltb (a b : number) : (a <=? b) = true → (b <? a) = false.
Proof.
  rewrite FloatAxioms.leb_spec, FloatAxioms.ltb_spec. unfold SFleb, SFltb.
  destruct (SFcompare (Prim2SF a) (Prim2SF b)) as [c|] eqn:E; [| discriminate].
  rewrite (SFcompare_antisym _ _ _ E). destruct c; cbn; congruence.
Qed.

(** Below or equal and not below: the same number, unless both are
    zeros. *)
Lemma leb_not_ltb_eq (a b : number) :
  (a <=? b) = true → (a <? b) = false → a = b ∨ is_zero a = true.
Proof.
  unfold is_zero.
  rewrite FloatAxioms.leb_spec, FloatAxioms.ltb_spec, FloatAxioms.eqb_spec, zero_bits.
  unfold SFleb, SFltb, SFeqb.
  destruct (SFcompare (Prim2SF a) (Prim2SF b)) as [[]|] eqn:E; try discriminate.
  intros _ _. destruct (SFcompare_Eq _ _ E) as [Heq | (sa & sb & Ha & Hb)].
  - left. apply Prim2SF_inj, Heq.
  - right. rewrite Ha. reflexivity.
Qed.

Lemma positive_not_zero (a : number) : (0 <? a) = true → is_zero a = false.
Proof.
  unfold is_zero. rewrite FloatAxioms.ltb_spec, FloatAxioms.eqb_spec.
  change (Prim2SF 0) with (S754_zero false). rewrite zero_bits.
  unfold SFltb, SFeqb.
  destruct (Prim2SF a) as [sa|sa| |sa ma ea]; cbn; try discriminate;
    destruct sa; try discriminate; reflexivity.
Qed.

(** Clamping a positive target that is within the duration returns the
    target itself. *)
Lemma clamp_id (d t : number) :
  (0 <? t) = true → (t <=? d) = true → Math_max 0 (Math_min d t) = t.
Proof.
  intros Hpos Hle.
  destruct (leb_not_nan _ _ Hle) as [Ht Hd].
  assert (Hmin : Math_min d t = t).
  { unfold Math_min. rewrite Hd, Ht, (leb_not_ltb _ _ Hle). cbn [orb].
    destruct (t <? d) eqn:Hlt; [reflexivity |].
    destruct (leb_not_ltb_eq _ _ Hle Hlt) as [-> | Hz].
    - destruct (get_sign d); reflexivity.
    - rewrite (positive_not_zero _ Hpos) in Hz. discriminate. }
  rewrite Hmin. unfold Math_max.
  destruct (ltb_not_nan _ _ Hpos) as [H0 _]. rewrite H0, Ht, Hpos. reflexivity.
Qed.

(** [forEach] with a callback that only appends to a log. *)
Lemma forEach_append {A B : Type} (f : A → list B → list B) (g : A → list B)
    (arr : list A) :
  (∀ a log, f a log = log ++ g a) →
  ∀ log, forEach f arr log = log ++ flat_map g arr.
Proof.
  intros Hf. unfold forEach.
  induction arr as [|a arr IH]; intros log; cbn.
  - symmetry. apply app_nil_r.
  - rewrite IH, Hf, <- app_assoc. reflexivity.
Qed.

End JsFacts.

(** ** The order of numbers that are not NaN *)

Module NumberOrder.
Import Js JsFacts.

Lemma not_nan_compare (a : number) :
  is_nan a = false → SFcompare (Prim2SF a) (Prim2SF a) = Some Eq.
Proof.
  unfold is_nan. rewrite FloatAxioms.eqb_spec. unfold SFeqb.
  destruct (SFcompare (Prim2SF a) (Prim2SF a)) as [[]|]; try discriminate. reflexivity.
Qed.

Lemma compare_total (a b : spec_float) :
  SFcompare a a = Some Eq → SFcompare b b = Some Eq → ∃ c, SFcompare a b = Some c.
Proof.
  destruct a as [sa|sa| |sa ma ea], b as [sb|sb| |sb mb eb]; cbn;
    try discriminate; eauto.
Qed.

Lemma leb_refl (a : number) : is_nan a = false → (a <=? a) = true.
Proof.
  intros Ha. rewrite FloatAxioms.leb_spec. unfold SFleb.
  rewrite (not_nan_compare a Ha). reflexivity.
Qed.

Lemma ltb_leb (a b : number) : (a <? b) = true → (a <=? b) = true.
Proof.
  rewrite FloatAxioms.ltb_spec, FloatAxioms.leb_spec. unfold SFltb, SFleb.
  destruct (SFcompare (Prim2SF a) (Prim2SF b)) as [[]|]; congruence.
Qed.

(** Two numbers neither of which is below the other are equal as
    numbers (they may be zeros of different signs). *)
Lemma neither_below (a b : number) :
  is_nan a = false → is_nan b = false →
  (a <? b) = false → (b <? a) = false →
  (a <=? b) = true ∧ (b <=? a) = true.
Proof.
  intros Ha Hb. rewrite !FloatAxioms.ltb_spec, !FloatAxioms.leb_spec.
  unfold SFltb, SFleb.
  destruct (compare_total _ _ (not_nan_compare a Ha) (not_nan_compare b Hb)) as [c Hc].
  rewrite Hc, (SFcompare_antisym _ _ _ Hc). destruct c; cbn; auto; discriminate.
Qed.

(** [Math.min] of two numbers is one of them and is at most each. *)
Lemma Math_min_spec (a b : number) :
  is_nan a = false → is_nan b = false →
  (Math_min a b = a ∨ Math_min a b = b)
  ∧ (Math_min a b <=? a) = true ∧ (Math_min a b <=? b) = true.
Proof.
  intros Ha Hb. unfold Math_min. rewrite Ha, Hb. cbn [orb].
  destruct (a <? b) eqn:Hab.
  - split; [auto |]. split; [apply leb_refl, Ha | apply ltb_leb, Hab].
  - destruct (b <? a) eqn:Hba.
    + split; [auto |]. split; [apply ltb_leb, Hba | apply leb_refl, Hb].
    + destruct (neither_below a b Ha Hb Hab Hba) as [Hle Hge].
      destruct (get_sign a); (split; [auto |]); split;
        auto using leb_refl.
Qed.

(** [Math.max] of two numbers is one of them and is at least each. *)
Lemma Math_max_spec (a b : number) :
  is_nan a = false → is_nan b = false →
  (Math_max a b = a ∨ Math_max a b = b)
  ∧ (a <=? Math_max a b) = true ∧ (b <=? Math_max a b) = true.
Proof.
  intros Ha Hb. unfold Math_max. rewrite Ha, Hb. cbn [orb].
  destruct (a <? b) eqn:Hab.
  - split; [auto |]. split; [apply ltb_leb, Hab | apply leb_refl, Hb].
  - destruct (b <? a) eqn:Hba.
    + split; [auto |]. split; [apply leb_refl, Ha | apply ltb_leb, Hba].
    + destruct (neither_below a b Ha Hb Hab Hba) as [Hle Hge].
      destruct (get_sign a); (split; [auto |]); split;
        auto using leb_refl.
Qed.

(** A NaN argument makes [Math.min] and [Math.max] NaN. *)
Lemma Math_nan (a b : number) :
  is_nan a || is_nan b = true → Math_min a b = nan ∧ Math_max a b = nan.
Proof. intros H. unfold Math_min, Math_max. rewrite H. auto. Qed.

(** Clamping into [[0, d]]: within the range whenever the duration is
    not negative and the target is a number. *)
Lemma clamp_within (d t : number) :
  (0 <=? d) = true → is_nan t = false →
  (0 <=? VideoContainer.clamp d t) = true ∧ (VideoContainer.clamp d t <=? d) = true
  ∧ is_nan (VideoContainer.clamp d t) = false.
Proof.
  intros Hd Ht. unfold VideoContainer.clamp.
  destruct (leb_not_nan _ _ Hd) as [H0 Hdn].
  destruct (Math_min_spec d t Hdn Ht) as (Hm & Hmd & _).
  assert (Hmn : is_nan (Math_min d t) = false) by (destruct Hm as [-> | ->]; assumption).
  destruct (Math_max_spec 0 (Math_min d t) H0 Hmn) as (Hr & Hr0 & _).
  split; [exact Hr0 |]. split.
  - destruct Hr as [-> | ->]; assumption.
  - destruct Hr as [-> | ->]; assumption.
Qed.

End NumberOrder.

(** ** The skeleton renderer draws what the specification says *)

Module PoseFacts.
Import Js Pose JsFacts.

Lemma append_changes {A : Type} (l extra : list A) :
  extra ≠ [] → l ++ extra ≠ l.
Proof.
  intros Hne Heq. apply Hne.
  apply (f_equal length) in Heq. rewrite length_app in Heq.
  destruct extra; [reflexivity | cbn in Heq; lia].
Qed.

Lemma exceeds_threshold_guard (kp : Keypoint) :
  truthy_opt (score kp) && gt_opt (score kp) 0.3 = exceeds_threshold kp.
Proof. rewrite guard_absorbed. unfold exceeds_threshold. destruct (score kp); reflexivity. Qed.

Lemma drawPoint_spec (kp : Keypoint) (ctx : Ctx) :
  drawPoint kp ctx = ctx ++ (if exceeds_threshold kp then point_ops kp else []).
Proof.
  unfold drawPoint. rewrite exceeds_threshold_guard.
  destruct (exceeds_threshold kp); [reflexivity | symmetry; apply app_nil_r].
Qed.

Lemma drawLine_guard (sp ep : option Keypoint) :
  truthy_opt (sp ≫= score) && truthy_opt (ep ≫= score)
    && gt_opt (sp ≫= score) 0.3 && gt_opt (ep ≫= score) 0.3
  = gt_opt (sp ≫= score) 0.3 && gt_opt (ep ≫= score) 0.3.
Proof.
  rewrite <- (guard_absorbed (sp ≫= score)), <- (guard_absorbed (ep ≫= score)).
  destruct (truthy_opt (sp ≫= score)), (truthy_opt (ep ≫= score)),
    (gt_opt (sp ≫= score) 0.3), (gt_opt (ep ≫= score) 0.3); reflexivity.
Qed.

Lemma exceeds_threshold_gt_opt (kp : Keypoint) :
  gt_opt (score kp) 0.3 = exceeds_threshold kp.
Proof. unfold exceeds_threshold. destruct (score kp); reflexivity. Qed.

Lemma drawLine_spec (keypoints : list Keypoint) (conn : string * string) (ctx : Ctx) :
  drawLine keypoints conn ctx
  = ctx ++ (if connection_drawn keypoints conn then connection_ops keypoints conn else []).
Proof.
  destruct conn as [start end_].
  unfold drawLine, connection_drawn, connection_ops, endpoints. cbn [fst snd].
  rewrite drawLine_guard.
  destruct (find (name_is start) keypoints) as [sp|],
           (find (name_is end_) keypoints) as [ep|];
    cbn [mbind option_bind gt_opt andb];
    rewrite ?exceeds_threshold_gt_opt, ?andb_false_r, ?app_nil_r; try reflexivity.
  destruct (exceeds_threshold sp && exceeds_threshold ep);
    [reflexivity | symmetry; apply app_nil_r].
Qed.

Lemma flat_map_filter {A B : Type} (p : A → bool) (g : A → list B) (l : list A) :
  flat_map (λ a, if p a then g a else []) l = flat_map g (List.filter p l).
Proof.
  induction l as [|a l IH]; cbn; [reflexivity |].
  destruct (p a); cbn; rewrite IH; reflexivity.
Qed.

(** The whole call log of [drawSkeleton]: the points of the keypoints
    above the threshold in pose order, then the lines of the connections
    whose two endpoints are above it, in table order. *)
Lemma drawSkeleton_spec (ctx : Ctx) (keypoints : list Keypoint) :
  drawSkeleton ctx keypoints
  = ctx ++ flat_map point_ops (List.filter exceeds_threshold keypoints)
        ++ flat_map (connection_ops keypoints)
             (List.filter (connection_drawn keypoints) connections).
Proof.
  unfold drawSkeleton.
  rewrite (forEach_append drawPoint
             (λ kp, if exceeds_threshold kp then point_ops kp else []))
    by apply drawPoint_spec.
  rewrite (forEach_append (drawLine keypoints)
             (λ c, if connection_drawn keypoints c
                   then connection_ops keypoints c else []))
    by apply drawLine_spec.
  rewrite !flat_map_filter, <- app_assoc. reflexivity.
Qed.

Lemma exceeds_threshold_iff (kp : Keypoint) :
  exceeds_threshold kp = true ↔ ∃ s, score kp = Some s ∧ gt s 0.3 = true.
Proof.
  unfold exceeds_threshold, gt. destruct (score kp) as [s|]; split.
  - intros H. exists s. split; [reflexivity | exact H].
  - intros (s' & [= <-] & H). exact H.
  - discriminate.
  - intros (s' & [=] & _).
Qed.

Lemma point_drawn_iff (kp : Keypoint) (ctx : Ctx) :
  drawPoint kp ctx ≠ ctx ↔ exceeds_threshold kp = true.
Proof.
  rewrite drawPoint_spec. destruct (exceeds_threshold kp); split; intros H.
  - reflexivity.
  - apply append_changes. discriminate.
  - exfalso. apply H, app_nil_r.
  - discriminate.
Qed.

Lemma line_drawn_iff (keypoints : list Keypoint) (conn : string * string) (ctx : Ctx) :
  drawLine keypoints conn ctx ≠ ctx ↔ connection_drawn keypoints conn = true.
Proof.
  rewrite drawLine_spec.
  destruct (connection_drawn keypoints conn) eqn:Hd; split; intros H.
  - reflexivity.
  - apply append_changes. unfold connection_drawn, connection_ops in *.
    destruct (endpoints keypoints conn) as [[sp ep]|]; discriminate.
  - exfalso. apply H, app_nil_r.
  - discriminate.
Qed.

(** C5: a point is drawn exactly for a confidence strictly above 0.3
    (a confidence equal to 0.3 draws nothing), a line exactly when the
    two endpoints of the connection both have a confidence strictly
    above 0.3; the call log of [drawSkeleton] is the points of the
    keypoints above the threshold followed by the lines of the
    connections whose two endpoints are above it. *)
Theorem threshold_is_strict :
  (∀ kp ctx,
      drawPoint kp ctx ≠ ctx ↔ ∃ s, score kp = Some s ∧ gt s 0.3 = true)
  ∧ (∀ px py label ctx,
      drawPoint (mkKeypoint px py (Some 0.3) label) ctx = ctx)
  ∧ (∀ keypoints start end_ ctx,
      drawLine keypoints (start, end_) ctx ≠ ctx ↔
      ∃ sp ep s1 s2,
        find (name_is start) keypoints = Some sp
        ∧ find (name_is end_) keypoints = Some ep
        ∧ score sp = Some s1 ∧ score ep = Some s2
        ∧ gt s1 0.3 = true ∧ gt s2 0.3 = true)
  ∧ (∀ ctx keypoints,
      drawSkeleton ctx keypoints
      = ctx ++ flat_map point_ops (List.filter exceeds_threshold keypoints)
            ++ flat_map (connection_ops keypoints)
                 (List.filter (connection_drawn keypoints) connections)).
Proof.
  split; [| split; [| split]].
  - intros kp ctx. rewrite point_drawn_iff. apply exceeds_threshold_iff.
  - intros px py label ctx. rewrite drawPoint_spec.
    unfold exceeds_threshold. cbn [score].
    change (0.3 <? 0.3) with (gt 0.3 0.3). rewrite gt_irrefl. apply app_nil_r.
  - intros keypoints start end_ ctx. rewrite line_drawn_iff.
    unfold connection_drawn, endpoints. cbn [fst snd].
    destruct (find (name_is start) keypoints) as [sp|],
             (find (name_is end_) keypoints) as [ep|].
    + rewrite andb_true_iff, !exceeds_threshold_iff. split.
      * intros [(s1 & H1 & G1) (s2 & H2 & G2)]. exists sp, ep, s1, s2. auto 10.
      * intros (sp' & ep' & s1 & s2 & [= <-] & [= <-] & H1 & H2 & G1 & G2).
        split; eauto.
    + split; [discriminate | intros (? & ? & ? & ? & _ & [=] & _)].
    + split; [discriminate | intros (? & ? & ? & ? & [=] & _)].
    + split; [discriminate | intros (? & ? & ? & ? & [=] & _)].
  - apply drawSkeleton_spec.
Qed.

Lemma score_absent_below (kp : Keypoint) :
  score_absent kp → exceeds_threshold kp = false.
Proof.
  unfold score_absent, exceeds_threshold. destruct (score kp) as [s|]; [| reflexivity].
  apply falsy_not_gt_threshold.
Qed.

(** C10: a keypoint whose score is undefined or falsy gets no point,
    whatever its coordinates, no connection that has it as an endpoint
    gets a line, and the points drawn for a pose are those drawn for
    the pose without that keypoint. *)
Theorem absent_score_not_drawn (kp : Keypoint) :
  score_absent kp →
  (∀ ctx, drawPoint kp ctx = ctx)
  ∧ (∀ keypoints conn ctx,
      find (name_is conn.1) keypoints = Some kp
      ∨ find (name_is conn.2) keypoints = Some kp →
      drawLine keypoints conn ctx = ctx)
  ∧ (∀ before after ctx,
      forEach drawPoint (before ++ kp :: after) ctx
      = forEach drawPoint (before ++ after) ctx).
Proof.
  intros Habs. pose proof (score_absent_below kp Habs) as Hlow.
  split; [| split].
  - intros ctx. rewrite drawPoint_spec, Hlow. apply app_nil_r.
  - intros keypoints conn ctx Hend. rewrite drawLine_spec.
    replace (connection_drawn keypoints conn) with false; [apply app_nil_r |].
    unfold connection_drawn, endpoints.
    destruct Hend as [-> | ->].
    + destruct (find (name_is conn.2) keypoints); [| reflexivity].
      rewrite Hlow. reflexivity.
    + destruct (find (name_is conn.1) keypoints); [| reflexivity].
      rewrite Hlow. symmetry. apply andb_false_r.
  - intros before after ctx.
    rewrite !(forEach_append drawPoint
                (λ k, if exceeds_threshold k then point_ops k else []))
      by apply drawPoint_spec.
    rewrite !flat_map_app. cbn [flat_map]. rewrite Hlow. reflexivity.
Qed.

(** A keypoint with score [+0] in a pose of two keypoints. *)
Lemma absent_score_not_drawn_witness :
  let kp := mkKeypoint 10 20 (Some 0) (Some "nose"%string) in
  score_absent kp
  ∧ drawPoint kp [] = []
  ∧ drawLine [kp; mkKeypoint 30 40 (Some 0.9) (Some "left_eye"%string)]
      ("nose", "left_eye")%string [] = [].
Proof.
  intros kp.
  assert (Habs : score_absent kp) by (vm_compute; reflexivity).
  destruct (absent_score_not_drawn kp Habs) as (Hp & Hl & _).
  split; [exact Habs |]. split; [apply Hp |].
  apply Hl. left. vm_compute. reflexivity.
Defined.

Lemma confident_pose_all_drawn :
  List.filter (connection_drawn confident_pose) connections = connections.
Proof. vm_compute. reflexivity. Qed.

(** C9: the table has sixteen distinct pairs, four in each of the face,
    the arms, the torso and the legs, among them shoulder-elbow,
    hip-knee and eye-ear; the lines [drawSkeleton] draws are those of
    the connections of this table whose endpoints are above the
    threshold, in table order, and on a pose whose seventeen keypoints
    are all confident they are the sixteen lines of the table. *)
Theorem connection_table_used :
  length connections = 16%nat
  ∧ NoDup connections
  ∧ ("left_shoulder", "left_elbow")%string ∈ connections
  ∧ ("right_shoulder", "right_elbow")%string ∈ connections
  ∧ ("left_hip", "left_knee")%string ∈ connections
  ∧ ("right_hip", "right_knee")%string ∈ connections
  ∧ ("left_eye", "left_ear")%string ∈ connections
  ∧ ("right_eye", "right_ear")%string ∈ connections
  ∧ (∀ r : Region, length (List.filter (in_region r) connections) = 4%nat)
  ∧ (∀ ctx keypoints,
      drawSkeleton ctx keypoints
      = forEach drawPoint keypoints ctx
        ++ flat_map (connection_ops keypoints)
             (List.filter (connection_drawn keypoints) connections))
  ∧ drawSkeleton [] confident_pose
    = flat_map point_ops confident_pose
      ++ flat_map (connection_ops confident_pose) connections.
Proof.
  split; [reflexivity |].
  split; [apply (bool_decide_unpack _); vm_compute; exact I |].
  do 6 (split; [apply (bool_decide_unpack _); vm_compute; exact I |]).
  split; [| split].
  - intros []; vm_compute; reflexivity.
  - intros ctx keypoints. rewrite drawSkeleton_spec.
    rewrite (forEach_append drawPoint
               (λ k, if exceeds_threshold k then point_ops k else []))
      by apply drawPoint_spec.
    rewrite flat_map_filter, <- app_assoc. reflexivity.
  - rewrite drawSkeleton_spec, confident_pose_all_drawn.
    vm_compute. reflexivity.
Qed.

End PoseFacts.

(** ** More on the skeleton renderer *)

Module OverlayFacts.
Import Js Pose Overlay JsFacts PoseFacts.

Lemma point_ops_shape (kp : Keypoint) :
  length (point_ops kp) = 4%nat ∧ fills (point_ops kp) = 1%nat
  ∧ strokes (point_ops kp) = 0%nat ∧ Forall (λ op, clears op = false) (point_ops kp).
Proof. repeat split; repeat constructor. Qed.

Lemma connection_ops_shape (keypoints : list Keypoint) (conn : string * string) :
  connection_drawn keypoints conn = true →
  length (connection_ops keypoints conn) = 6%nat
  ∧ strokes (connection_ops keypoints conn) = 1%nat
  ∧ fills (connection_ops keypoints conn) = 0%nat.
Proof.
  unfold connection_drawn, connection_ops.
  destruct (endpoints keypoints conn) as [[sp ep]|]; [| discriminate].
  intros _. repeat split.
Qed.

Lemma connection_ops_no_clear (keypoints : list Keypoint) (conn : string * string) :
  Forall (λ op, clears op = false) (connection_ops keypoints conn).
Proof.
  unfold connection_ops.
  destruct (endpoints keypoints conn) as [[sp ep]|]; repeat constructor.
Qed.

Lemma strokes_app (a b : Ctx) : strokes (a ++ b) = (strokes a + strokes b)%nat.
Proof. unfold strokes. rewrite List.filter_app, length_app. reflexivity. Qed.

Lemma fills_app (a b : Ctx) : fills (a ++ b) = (fills a + fills b)%nat.
Proof. unfold fills. rewrite List.filter_app, length_app. reflexivity. Qed.

Lemma points_count (kps : list Keypoint) :
  length (flat_map point_ops kps) = (4 * length kps)%nat
  ∧ fills (flat_map point_ops kps) = length kps
  ∧ strokes (flat_map point_ops kps) = 0%nat.
Proof.
  induction kps as [|kp kps (IH1 & IH2 & IH3)]; [repeat split |].
  cbn [flat_map]. rewrite length_app, fills_app, strokes_app, IH1, IH2, IH3.
  destruct (point_ops_shape kp) as (-> & -> & -> & _). cbn [length]. repeat split; lia.
Qed.

Lemma lines_count (keypoints : list Keypoint) (conns : list (string * string)) :
  Forall (λ c, connection_drawn keypoints c = true) conns →
  length (flat_map (connection_ops keypoints) conns) = (6 * length conns)%nat
  ∧ strokes (flat_map (connection_ops keypoints) conns) = length conns
  ∧ fills (flat_map (connection_ops keypoints) conns) = 0%nat.
Proof.
  induction 1 as [|c conns Hc _ (IH1 & IH2 & IH3)]; [repeat split |].
  cbn [flat_map]. rewrite length_app, fills_app, strokes_app, IH1, IH2, IH3.
  destruct (connection_ops_shape keypoints c Hc) as (-> & -> & ->).
  cbn [length]. repeat split; lia.
Qed.

Lemma filter_Forall {A : Type} (p : A → bool) (l : list A) :
  Forall (λ a, p a = true) (List.filter p l).
Proof.
  induction l as [|a l IH]; cbn; [constructor |].
  destruct (p a) eqn:Hp; [constructor; assumption | assumption].
Qed.

Lemma filter_length_le {A : Type} (p : A → bool) (l : list A) :
  (length (List.filter p l) ≤ length l)%nat.
Proof. induction l as [|a l IH]; cbn; [lia |]. destruct (p a); cbn; lia. Qed.

(** X1: [drawSkeleton] only appends to the call log, and what it appends
    does not depend on what was drawn before: four calls and one [fill]
    for each keypoint above the threshold, six calls and one [stroke] for
    each connection drawn, so at most [4 * n + 96] calls, [n] points and
    sixteen lines for a pose of [n] keypoints; an empty pose draws
    nothing. *)
Theorem drawSkeleton_appends_bounded :
  (∀ ctx keypoints, drawSkeleton ctx keypoints = ctx ++ drawSkeleton [] keypoints)
  ∧ (∀ keypoints,
      length (drawSkeleton [] keypoints)
      = (4 * length (List.filter exceeds_threshold keypoints)
         + 6 * length (List.filter (connection_drawn keypoints) connections))%nat
      ∧ fills (drawSkeleton [] keypoints)
        = length (List.filter exceeds_threshold keypoints)
      ∧ strokes (drawSkeleton [] keypoints)
        = length (List.filter (connection_drawn keypoints) connections)
      ∧ (length (drawSkeleton [] keypoints) ≤ 4 * length keypoints + 96)%nat
      ∧ (fills (drawSkeleton [] keypoints) ≤ length keypoints)%nat
      ∧ (strokes (drawSkeleton [] keypoints) ≤ 16)%nat)
  ∧ (∀ ctx, drawSkeleton ctx [] = ctx).
Proof.
  split; [| split].
  - intros ctx keypoints. rewrite !drawSkeleton_spec. reflexivity.
  - intros keypoints. rewrite drawSkeleton_spec. cbn [app].
    rewrite length_app, fills_app, strokes_app.
    destruct (points_count (List.filter exceeds_threshold keypoints)) as (-> & -> & ->).
    destruct (lines_count keypoints
                (List.filter (connection_drawn keypoints) connections)
                (filter_Forall _ _)) as (-> & -> & ->).
    pose proof (filter_length_le exceeds_threshold keypoints).
    pose proof (filter_length_le (connection_drawn keypoints) connections) as Hc.
    change (length connections) with 16%nat in Hc.
    repeat split; lia.
  - intros ctx. rewrite drawSkeleton_spec. cbn [List.filter flat_map].
    assert (Hnone : List.filter (connection_drawn []) connections = []) by reflexivity.
    rewrite Hnone. cbn. apply app_nil_r.
Qed.

(** *** Looking keypoints up by label *)

Lemma find_label_None (lbl : string) (keypoints : list Keypoint) :
  find (name_is lbl) keypoints = None ↔ lbl ∉ labels keypoints.
Proof.
  unfold find, labels. induction keypoints as [|kp kps IH]; cbn.
  - split; [intros _ Hin; apply elem_of_nil in Hin; exact Hin | reflexivity].
  - unfold name_is at 1. destruct (name kp) as [n|] eqn:Hn; [| exact IH].
    case_bool_decide as Heq.
    + split; [discriminate |]. intros Hnot. exfalso. apply Hnot.
      subst n. apply list_elem_of_here.
    + rewrite IH. rewrite not_elem_of_cons. split; [auto | intros [_ H]; exact H].
Qed.

Lemma find_label_app (lbl : string) (l extra : list Keypoint) :
  lbl ∈ labels l →
  find (name_is lbl) (l ++ extra) = find (name_is lbl) l.
Proof.
  unfold find. intros Hin. induction l as [|kp kps IH]; cbn.
  - apply elem_of_nil in Hin. destruct Hin.
  - destruct (name_is lbl kp) eqn:Hp; [reflexivity |]. apply IH.
    unfold labels in Hin. cbn in Hin. unfold name_is in Hp.
    destruct (name kp) as [n|]; [| exact Hin].
    apply elem_of_cons in Hin as [-> | Hin]; [| exact Hin].
    rewrite bool_decide_eq_true_2 in Hp by reflexivity. discriminate.
Qed.

(** X2: a connection one of whose labels no keypoint of the pose
    carries gets no line; a pose whose keypoints have no label gets its
    points and no line at all. *)
Theorem missing_label_no_line :
  (∀ keypoints conn ctx,
      conn.1 ∉ labels keypoints ∨ conn.2 ∉ labels keypoints →
      drawLine keypoints conn ctx = ctx)
  ∧ (∀ keypoints ctx,
      Forall (λ kp, name kp = None) keypoints →
      drawSkeleton ctx keypoints
      = ctx ++ flat_map point_ops (List.filter exceeds_threshold keypoints)).
Proof.
  split.
  - intros keypoints conn ctx Hmiss.
    rewrite drawLine_spec. replace (connection_drawn keypoints conn) with false;
      [apply app_nil_r |].
    unfold connection_drawn, endpoints.
    destruct Hmiss as [H | H]; apply find_label_None in H; rewrite H;
      [reflexivity | destruct (find (name_is conn.1) keypoints); reflexivity].
  - intros keypoints ctx Hnameless. rewrite drawSkeleton_spec.
    assert (Hlabels : labels keypoints = []).
    { unfold labels. induction Hnameless as [|kp kps Hkp _ IH]; [reflexivity |].
      cbn. rewrite Hkp. exact IH. }
    assert (Hnone : ∀ conns : list (string * string),
               List.filter (connection_drawn keypoints) conns = []).
    { induction conns as [|c conns IH]; [reflexivity |]. cbn.
      unfold connection_drawn at 1, endpoints.
      assert (Hf : find (name_is c.1) keypoints = None).
      { apply find_label_None. rewrite Hlabels. apply not_elem_of_nil. }
      rewrite Hf. exact IH. }
    rewrite Hnone. cbn [flat_map]. rewrite app_nil_r. reflexivity.
Qed.

(** A pose that has a nose and no left eye. *)
Lemma missing_label_no_line_witness :
  drawLine [mkKeypoint 10 20 (Some 0.9) (Some "nose"%string)]
    ("nose", "left_eye")%string [] = [].
Proof.
  apply (proj1 missing_label_no_line
           [mkKeypoint 10 20 (Some 0.9) (Some "nose"%string)]
           ("nose", "left_eye")%string []).
  right. apply (bool_decide_unpack _). vm_compute. exact I.
Defined.

(** X3: the first keypoint that carries a label is the endpoint: once
    both labels of a connection occur in a pose, keypoints listed after
    them, with the same labels or others, change nothing to its line. *)
Theorem first_label_wins
    (keypoints later : list Keypoint) (conn : string * string) (ctx : Ctx) :
  conn.1 ∈ labels keypoints → conn.2 ∈ labels keypoints →
  drawLine (keypoints ++ later) conn ctx = drawLine keypoints conn ctx.
Proof.
  intros H1 H2. rewrite !drawLine_spec.
  unfold connection_drawn, connection_ops, endpoints.
  rewrite (find_label_app _ _ later H1), (find_label_app _ _ later H2). reflexivity.
Qed.

(** A faint nose listed before a confident one: no line to the eye. *)
Lemma first_label_wins_witness :
  drawLine ([ mkKeypoint 10 20 (Some 0.1) (Some "nose"%string);
              mkKeypoint 30 40 (Some 0.9) (Some "left_eye"%string) ]
            ++ [ mkKeypoint 11 21 (Some 0.9) (Some "nose"%string) ])
    ("nose", "left_eye")%string [] = [].
Proof.
  rewrite (first_label_wins
             [ mkKeypoint 10 20 (Some 0.1) (Some "nose"%string);
               mkKeypoint 30 40 (Some 0.9) (Some "left_eye"%string) ]
             [ mkKeypoint 11 21 (Some 0.9) (Some "nose"%string) ]
             ("nose", "left_eye")%string []).
  - vm_compute. reflexivity.
  - apply (bool_decide_unpack _). vm_compute. exact I.
  - apply (bool_decide_unpack _). vm_compute. exact I.
Defined.

Lemma find_label_Some (lbl : string) (keypoints : list Keypoint) (kp : Keypoint) :
  distinct_labels keypoints →
  find (name_is lbl) keypoints = Some kp ↔ kp ∈ keypoints ∧ name kp = Some lbl.
Proof.
  intros Hnd. split.
  - intros [Hin Hp]%List.find_some. split; [apply list_elem_of_In, Hin |].
    unfold name_is in Hp. destruct (name kp) as [n|]; [| discriminate].
    apply bool_decide_eq_true_1 in Hp. congruence.
  - intros [Hin Hname]. unfold find.
    induction keypoints as [|k kps IH]; [apply elem_of_nil in Hin; destruct Hin |].
    unfold distinct_labels, labels in Hnd. cbn in Hnd |- *.
    unfold name_is at 1. destruct (name k) as [n|] eqn:Hk.
    + apply NoDup_cons in Hnd as [Hfresh Hnd]. case_bool_decide as Heq.
      * apply elem_of_cons in Hin as [-> | Hin]; [reflexivity |].
        exfalso. apply Hfresh. subst n.
        apply list_elem_of_omap. exists kp. auto.
      * apply elem_of_cons in Hin as [-> | Hin]; [congruence |]. apply IH; assumption.
    + apply elem_of_cons in Hin as [-> | Hin]; [congruence |]. apply IH; assumption.
Qed.

Lemma find_label_perm (lbl : string) (keypoints keypoints' : list Keypoint) :
  distinct_labels keypoints → keypoints ≡ₚ keypoints' →
  find (name_is lbl) keypoints = find (name_is lbl) keypoints'.
Proof.
  intros Hnd Hperm.
  assert (Hnd' : distinct_labels keypoints').
  { unfold distinct_labels, labels in *. rewrite <- Hperm. exact Hnd. }
  destruct (find (name_is lbl) keypoints) as [kp|] eqn:Hf.
  - apply (find_label_Some _ _ _ Hnd) in Hf as [Hin Hname].
    symmetry. apply (find_label_Some _ _ _ Hnd'). split; [| exact Hname].
    rewrite <- Hperm. exact Hin.
  - apply find_label_None in Hf. symmetry. apply find_label_None.
    unfold labels in *. rewrite <- Hperm. exact Hf.
Qed.

(** X4: when no label occurs twice in a pose, the lines do not depend on
    the order in which the detector lists the keypoints: a reordered
    pose gets the same line calls for every connection and for the whole
    table. *)
Theorem lines_independent_of_order (keypoints keypoints' : list Keypoint) :
  distinct_labels keypoints → keypoints ≡ₚ keypoints' →
  (∀ conn ctx, drawLine keypoints conn ctx = drawLine keypoints' conn ctx)
  ∧ (∀ ctx,
      forEach (drawLine keypoints) connections ctx
      = forEach (drawLine keypoints') connections ctx).
Proof.
  intros Hnd Hperm.
  assert (Hline : ∀ conn ctx, drawLine keypoints conn ctx = drawLine keypoints' conn ctx).
  { intros conn ctx. rewrite !drawLine_spec.
    unfold connection_drawn, connection_ops, endpoints.
    rewrite (find_label_perm conn.1 _ _ Hnd Hperm),
            (find_label_perm conn.2 _ _ Hnd Hperm). reflexivity. }
  split; [exact Hline |].
  intros ctx. unfold forEach. generalize connections. intros conns. revert ctx.
  induction conns as [|c conns IH]; intros ctx; cbn; [reflexivity |].
  rewrite Hline. apply IH.
Qed.

(** The eye listed before the nose, or after it. *)
Lemma lines_independent_of_order_witness :
  drawLine [ mkKeypoint 10 20 (Some 0.9) (Some "nose"%string);
             mkKeypoint 30 40 (Some 0.9) (Some "left_eye"%string) ]
    ("nose", "left_eye")%string []
  = drawLine [ mkKeypoint 30 40 (Some 0.9) (Some "left_eye"%string);
               mkKeypoint 10 20 (Some 0.9) (Some "nose"%string) ]
      ("nose", "left_eye")%string [].
Proof.
  apply (lines_independent_of_order
           [ mkKeypoint 10 20 (Some 0.9) (Some "nose"%string);
             mkKeypoint 30 40 (Some 0.9) (Some "left_eye"%string) ]
           [ mkKeypoint 30 40 (Some 0.9) (Some "left_eye"%string);
             mkKeypoint 10 20 (Some 0.9) (Some "nose"%string) ]).
  - apply (bool_decide_unpack _). vm_compute. exact I.
  - apply perm_swap.
Defined.

(** *** What stays on the canvas *)

Lemma visible_app (a b : Ctx) :
  visible (a ++ b)
  = foldl (λ shown op, if clears op then [] else shown ++ [op]) (visible a) b.
Proof. unfold visible. apply foldl_app. Qed.

Lemma visible_keep (drawn : Ctx) :
  Forall (λ op, clears op = false) drawn →
  ∀ shown,
    foldl (λ shown op, if clears op then [] else shown ++ [op]) shown drawn
    = shown ++ drawn.
Proof.
  induction 1 as [|op drawn Hop _ IH]; intros shown; cbn.
  - symmetry. apply app_nil_r.
  - rewrite Hop, IH, <- app_assoc. reflexivity.
Qed.

Lemma drawSkeleton_no_clear (keypoints : list Keypoint) :
  Forall (λ op, clears op = false) (drawSkeleton [] keypoints).
Proof.
  rewrite drawSkeleton_spec. cbn [app]. apply Forall_app. split.
  - induction (List.filter exceeds_threshold keypoints) as [|kp kps IH]; cbn [flat_map];
      [constructor |].
    apply Forall_app. split; [apply point_ops_shape | exact IH].
  - induction (List.filter (connection_drawn keypoints) connections) as [|c cs IH];
      cbn [flat_map]; [constructor |].
    apply Forall_app. split; [apply connection_ops_no_clear | exact IH].
Qed.

Lemma draw_poses_appends (poses : list (list Keypoint)) :
  ∀ ctx,
    forEach (λ pose c, drawSkeleton c pose) poses ctx
    = ctx ++ flat_map (drawSkeleton []) poses.
Proof.
  apply forEach_append. intros pose log. rewrite !drawSkeleton_spec. reflexivity.
Qed.

End OverlayFacts.

(** ** Seeking in the instructor video *)

Module PlaybackFacts.
Import Js VideoContainer JsFacts.

Lemma seek_unfold (t : number) (st : State) :
  seek t st =
  if usable st st then
    let st0 := call (el_set_currentTime t) st in
    if isFinite t then
      let st1 := setCurrentTime t st0 in
      if lt t (duration st) then setIsEnded false st1 else st1
    else st0
  else st.
Proof. reflexivity. Qed.

(** The handler stores a finite target as it is given; a target that
    is not finite is not stored. *)
Lemma seek_position (t : number) (st : State) :
  positionSeconds (seek t st)
  = if usable st st && isFinite t then t else positionSeconds st.
Proof.
  rewrite seek_unfold. destruct (usable st st); [| reflexivity].
  cbv zeta. destruct (isFinite t); [| reflexivity].
  destruct (lt t (duration st)); reflexivity.
Qed.

(** Seeking touches the status only by clearing the ended flag, and it
    clears it only for a finite target before the duration. *)
Lemma seek_status (t : number) (st : State) :
  status (seek t st)
  = status (if usable st st && isFinite t && lt t (duration st)
            then setIsEnded false st else st).
Proof.
  rewrite seek_unfold. destruct (usable st st); [| reflexivity].
  cbv zeta. destruct (isFinite t); [| reflexivity].
  destruct (lt t (duration st)); reflexivity.
Qed.

(** The assignment is issued on the element whatever the target. *)
Lemma seek_element (t : number) (st : State) :
  videoRef (seek t st)
  = if usable st st then (λ log, log ++ [el_set_currentTime t]) <$> videoRef st
    else videoRef st.
Proof.
  rewrite seek_unfold. destruct (usable st st); [| reflexivity].
  cbv zeta. destruct (isFinite t); [| reflexivity].
  destruct (lt t (duration st)); reflexivity.
Qed.

Lemma seek_keeps_duration :
  (∀ t st, duration (seek t st) = duration st)
  ∧ (∀ t st, isPlaying (seek t st) = isPlaying st).
Proof.
  split; intros t st; rewrite seek_unfold; destruct (usable st st); try reflexivity;
    cbv zeta; destruct (isFinite t); try reflexivity;
    destruct (lt t (duration st)); reflexivity.
Qed.

(** A target that is not finite: the assignment throws and the cells
    stay as they are. *)
Lemma seek_refused (t : number) (st : State) :
  isFinite t = false →
  seek t st = if usable st st then call (el_set_currentTime t) st else st.
Proof.
  intros Ht. rewrite seek_unfold. destruct (usable st st); [| reflexivity].
  cbv zeta. rewrite Ht. reflexivity.
Qed.

Lemma number_neq (a b : number) : PrimFloat.Leibniz.eqb a b = false → a ≠ b.
Proof.
  intros Hne Heq. apply FloatAxioms.Leibniz.eqb_spec in Heq. congruence.
Qed.

(** The clamp that [seek] would need to bring 130 back to the duration. *)
Example clamp_130 : clamp 120 130 = 120.
Proof. vm_compute. reflexivity. Qed.

Example clamp_negative : clamp 120 (-5) = 0.
Proof. vm_compute. reflexivity. Qed.

(** Load a source of 120 s, play, seek to 130: the position is 130 and
    not the duration; a negative target is stored as it is too. *)
Lemma seek_past_duration_not_clamped :
  positionSeconds (seek 130 (loaded_and_playing 120)) = 130
  ∧ positionSeconds (seek 130 (loaded_and_playing 120)) ≠ 120
  ∧ positionSeconds (seek 130 (loaded_and_playing 120))
    ≠ clamp (duration (loaded_and_playing 120)) 130
  ∧ positionSeconds (seek (-5) (loaded_and_playing 120)) = -5
  ∧ InstructorVideo.currentTime
      (InstructorVideo.handleSeek [130]
         (InstructorVideo.handleLoadedMetadata 120 InstructorVideo.mounted))
    = 130.
Proof.
  split; [vm_compute; reflexivity |].
  split; [apply number_neq; vm_compute; reflexivity |].
  split; [apply number_neq; vm_compute; reflexivity |].
  split; vm_compute; reflexivity.
Qed.

(** C6 (as the code has it): [seek(t)] stores a finite target [t]
    itself as the position, without clamping, for every duration,
    whenever an element is attached and no video error is set, and does
    nothing otherwise; it changes the status only by clearing the ended
    flag when [t] is before the duration. A target that is not finite
    (NaN, an infinity, a missing value) makes the assignment to the
    element throw: position, flags and status stay as they were. After
    loading 120 s, playing and seeking to 130 the position is 130 and
    the status is still Playing. The [handleSeek] of the standalone
    player treats its element the same way; the YouTube container
    stores the target it hands to [seekTo]. *)
Theorem seek_stores_target :
  (∀ t st,
      positionSeconds (seek t st)
      = if usable st st && isFinite t then t else positionSeconds st)
  ∧ (∀ t st,
      videoRef (seek t st)
      = if usable st st then (λ log, log ++ [el_set_currentTime t]) <$> videoRef st
        else videoRef st)
  ∧ (∀ t st,
      status (seek t st)
      = status (if usable st st && isFinite t && lt t (duration st)
                then setIsEnded false st else st))
  ∧ (∀ t st, duration (seek t st) = duration st ∧ isPlaying (seek t st) = isPlaying st)
  ∧ (∀ t st,
      isFinite t = false →
      seek t st = if usable st st then call (el_set_currentTime t) st else st)
  ∧ isFinite nan = false ∧ isFinite infinity = false ∧ isFinite neg_infinity = false
  ∧ isFinite (first []) = false
  ∧ positionSeconds (seek 130 (loaded_and_playing 120)) = 130
  ∧ status (seek 130 (loaded_and_playing 120)) = Playing
  ∧ status (loaded_and_playing 120) = Playing
  ∧ positionSeconds (seek infinity (seek 30 (loaded_and_playing 120))) = 30
  ∧ (∀ t rest st,
      InstructorVideo.currentTime (InstructorVideo.handleSeek (t :: rest) st)
      = if bool_decide (is_Some (InstructorVideo.videoRef st)) && isFinite t then t
        else InstructorVideo.currentTime st)
  ∧ (∀ t rest st,
      YouTubeContainer.currentTime (YouTubeContainer.handleSeek (t :: rest) st)
      = if YouTubeContainer.ready st then t else YouTubeContainer.currentTime st).
Proof.
  split; [exact seek_position |].
  split; [exact seek_element |].
  split; [exact seek_status |].
  split.
  { intros t st. rewrite seek_unfold. destruct (usable st st); [| split; reflexivity].
    cbv zeta. destruct (isFinite t); [| split; reflexivity].
    destruct (lt t (duration st)); split; reflexivity. }
  split; [exact seek_refused |].
  do 8 (split; [vm_compute; reflexivity |]).
  split.
  { intros t rest st. unfold InstructorVideo.handleSeek.
    destruct (InstructorVideo.videoRef st); [| reflexivity].
    cbn. destruct (isFinite t); reflexivity. }
  intros t rest st. unfold YouTubeContainer.handleSeek.
  destruct (YouTubeContainer.ready st); reflexivity.
Qed.

(** With 118 s played of 120 s, five seconds forward: [seekRelative]
    stops at the duration, [seek] of the sum stores 123. *)
Lemma seekRelative_differs_from_seek :
  positionSeconds (seek 118 (loaded_and_playing 120)) = 118
  ∧ positionSeconds (seekRelative 5 (seek 118 (loaded_and_playing 120))) = 120
  ∧ positionSeconds
      (seek (positionSeconds (seek 118 (loaded_and_playing 120)) + 5)
         (seek 118 (loaded_and_playing 120))) = 123
  ∧ seekRelative 5 (seek 118 (loaded_and_playing 120))
    ≠ seek (positionSeconds (seek 118 (loaded_and_playing 120)) + 5)
        (seek 118 (loaded_and_playing 120)).
Proof.
  split; [vm_compute; reflexivity |].
  split; [vm_compute; reflexivity |].
  split; [vm_compute; reflexivity |].
  intros Heq. apply (f_equal positionSeconds) in Heq. revert Heq.
  apply number_neq. vm_compute. reflexivity.
Qed.

Lemma handleSeekRelative_unfold (d : number) (st : State) :
  seekRelative d st = seek (clamp (duration st) (positionSeconds st + d)) st.
Proof.
  unfold seekRelative, seek, dispatch, handleSeekRelative, clamp, positionSeconds.
  destruct (usable st st) eqn:Hu; [reflexivity |].
  unfold handleSeek. rewrite Hu. reflexivity.
Qed.

(** C8 (as the code has it): [seekRelative(d)] is [seek] of the sum
    [p + d] clamped into [[0, duration]], for every [d] and every state;
    it is [seek(p + d)] when the sum is positive and at most the
    duration. *)
Theorem seekRelative_is_clamped_seek :
  (∀ d st, seekRelative d st = seek (clamp (duration st) (positionSeconds st + d)) st)
  ∧ (∀ d st,
      (0 <? positionSeconds st + d) = true →
      (positionSeconds st + d <=? duration st) = true →
      seekRelative d st = seek (positionSeconds st + d) st).
Proof.
  split; [exact handleSeekRelative_unfold |].
  intros d st Hpos Hle. rewrite handleSeekRelative_unfold.
  unfold clamp. rewrite (clamp_id _ _ Hpos Hle). reflexivity.
Qed.

(** Five seconds forward from 10 s in a video of 120 s. *)
Lemma seekRelative_is_clamped_seek_witness :
  seekRelative 5 (seek 10 (loaded_and_playing 120))
  = seek (positionSeconds (seek 10 (loaded_and_playing 120)) + 5)
      (seek 10 (loaded_and_playing 120)).
Proof.
  apply (proj2 seekRelative_is_clamped_seek); vm_compute; reflexivity.
Defined.

End PlaybackFacts.

(** ** Sequences of player events *)

Module PlayerFacts.
Import Js VideoContainer Player JsFacts NumberOrder PlaybackFacts.

Ltac split_ifs :=
  repeat match goal with
         | |- context [if ?b then _ else _] => destruct b eqn:?
         end.

Lemma replay_cons (e : Page.PlaybackEvent) (events : list Page.PlaybackEvent) (st : State) :
  replay (e :: events) st = replay events (dispatch (Page.handler e) st).
Proof. reflexivity. Qed.

(** An event other than the element's [ended] event never sets the
    ended flag. *)
Lemma ended_step (e : Page.PlaybackEvent) (st : State) :
  e ≠ Page.VideoEnded → isEnded (dispatch (Page.handler e) st) = true → isEnded st = true.
Proof.
  intros Hne. destruct st as [pl ct du ve en lo vr].
  destruct e; try congruence;
    unfold dispatch, Page.handler, handlePlayPause, handleReset, handleSeek,
      handleSeekRelative, handleSeek, handleTimeUpdate, handleDurationChange,
      handleVideoError, handleRetryVideo, handleVideoLoaded, onPlayRejected, usable;
    cbn [isPlaying currentTime duration videoError isEnded isVideoLoading videoRef];
    split_ifs;
    cbn [isEnded setIsEnded setIsPlaying setCurrentTime setDuration setVideoError
           setIsVideoLoading call isPlaying currentTime duration videoError
           isVideoLoading videoRef];
    congruence.
Qed.

(** X9: the ended flag is raised by the video element's [ended] event and
    by nothing else: after any sequence of the other events (play/pause,
    reset, seeks, time and duration updates, errors, retry, load) the
    player is ended only if it was ended before. *)
Theorem ended_only_by_ended_event
    (events : list Page.PlaybackEvent) (st : State) :
  Page.VideoEnded ∉ events →
  isEnded (replay events st) = true → isEnded st = true.
Proof.
  revert st. induction events as [|e events IH]; intros st Hnot Hend; [exact Hend |].
  apply not_elem_of_cons in Hnot as [Hne Hnot]. rewrite replay_cons in Hend.
  apply (ended_step e); [congruence |]. apply IH; assumption.
Qed.

Ltac not_among :=
  let Hin := fresh "Hin" in
  intros Hin;
  repeat (apply elem_of_cons in Hin as [Hin | Hin]; [discriminate |]);
  apply elem_of_nil in Hin; exact Hin.

(** The video has ended; the clock ticks and the user seeks forward. *)
Lemma ended_only_by_ended_event_witness :
  isEnded (dispatch handleVideoEnded (loaded_and_playing 120)) = true.
Proof.
  apply (ended_only_by_ended_event [Page.TimeUpdate 120; Page.SeekRelative 5]).
  - not_among.
  - vm_compute. reflexivity.
Defined.

(** *** While an error is shown *)

Lemma errored_step (e : Page.PlaybackEvent) (st : State) :
  is_Some (videoError st) → e ≠ Page.RetryVideo →
  is_Some (videoError (dispatch (Page.handler e) st))
  ∧ videoRef (dispatch (Page.handler e) st) = videoRef st
  ∧ (control e = true → dispatch (Page.handler e) st = st).
Proof.
  intros [err Herr] Hne. destruct st as [pl ct du ve en lo vr]. cbn in Herr. subst ve.
  destruct e; try congruence;
    unfold dispatch, Page.handler, handlePlayPause, handleReset, handleSeek,
      handleSeekRelative, handleSeek, handleTimeUpdate, handleDurationChange,
      handleVideoError, handleVideoEnded, handleVideoLoaded, onPlayRejected, usable;
    cbn [isPlaying currentTime duration videoError isEnded isVideoLoading videoRef];
    rewrite ?(bool_decide_eq_true_2 (is_Some (Some err))) by eauto;
    rewrite ?andb_false_r; cbn [negb andb];
    (split; [cbn; eauto | split; [reflexivity | try reflexivity; discriminate]]).
Qed.

(** X10: while a video error is shown the controls are dead and the
    error stays: play/pause, reset, seek and relative seek leave the
    state exactly as it is, and after any sequence of events without a
    retry an error is still set and no call has reached the video
    element. *)
Theorem error_blocks_controls
    (events : list Page.PlaybackEvent) (st : State) :
  is_Some (videoError st) → Page.RetryVideo ∉ events →
  is_Some (videoError (replay events st))
  ∧ videoRef (replay events st) = videoRef st
  ∧ status (replay events st) = Errored
  ∧ (∀ e, control e = true → dispatch (Page.handler e) st = st).
Proof.
  intros Herr Hnot.
  assert (Hctl : ∀ e, control e = true → dispatch (Page.handler e) st = st).
  { intros e Hc. apply (errored_step e st Herr); [| exact Hc].
    destruct e; discriminate || congruence. }
  assert (Hrun : is_Some (videoError (replay events st))
                 ∧ videoRef (replay events st) = videoRef st).
  { clear Hctl. revert st Herr. induction events as [|e events IH]; intros st Herr.
    - auto.
    - apply not_elem_of_cons in Hnot as [Hne Hnot]. rewrite replay_cons.
      destruct (errored_step e st Herr) as (Herr1 & Hv1 & _); [congruence |].
      destruct (IH Hnot _ Herr1) as [H1 H2]. rewrite H2, Hv1. auto. }
  destruct Hrun as [H1 H2]. repeat split; try assumption.
  unfold status. rewrite bool_decide_eq_true_2 by exact H1. reflexivity.
Qed.

(** A video that failed to load: the user tries every control. *)
Lemma error_blocks_controls_witness :
  status (replay [Page.PlayPause; Page.Seek [10]; Page.SeekRelative 5; Page.Reset;
                  Page.TimeUpdate 3]
            (dispatch (handleVideoError "decode") mounted)) = Errored.
Proof.
  apply (error_blocks_controls
           [Page.PlayPause; Page.Seek [10]; Page.SeekRelative 5; Page.Reset;
            Page.TimeUpdate 3]
           (dispatch (handleVideoError "decode") mounted)).
  - cbn. eauto.
  - not_among.
Defined.

(** *** Play and pause *)

Lemma playPause_step (st : State) :
  usable st st = true → isVideoLoading st = false → isEnded st = false →
  let st' := dispatch handlePlayPause st in
  usable st' st' = true ∧ isVideoLoading st' = false ∧ isEnded st' = false
  ∧ isPlaying st' = negb (isPlaying st) ∧ currentTime st' = currentTime st
  ∧ videoRef st'
    = (λ log, log ++ [if isPlaying st then el_pause else el_play]) <$> videoRef st.
Proof.
  intros Hu Hl He. destruct st as [pl ct du ve en lo vr]. cbn in Hl, He. subst lo en.
  unfold usable in Hu. cbn [videoRef videoError] in Hu.
  destruct vr as [log|]; [| discriminate]. destruct ve as [err|]; [discriminate |].
  destruct pl; cbn; auto 10.
Qed.

(** X11: on a loaded player that is neither ended nor in error, the
    play/pause button alternates between Playing and Paused: after [n]
    presses the player plays exactly when [n] is odd and it was paused
    or [n] is even and it was playing; the position is untouched and the
    player is never ended. *)
Theorem play_pause_alternates (n : nat) (st : State) :
  usable st st = true → isVideoLoading st = false → isEnded st = false →
  isPlaying (replay (presses n) st)
  = (if Nat.even n then isPlaying st else negb (isPlaying st))
  ∧ isEnded (replay (presses n) st) = false
  ∧ currentTime (replay (presses n) st) = currentTime st
  ∧ status (replay (presses n) st)
    = (if isPlaying (replay (presses n) st) then Playing else Paused).
Proof.
  revert st. induction n as [|n IH]; intros st Hu Hl He.
  - cbn. repeat split; try assumption. unfold status.
    unfold usable in Hu. apply andb_true_iff in Hu as [_ Hu].
    apply negb_true_iff in Hu. rewrite Hu, Hl, He. reflexivity.
  - change (replay (presses (S n)) st)
      with (replay (presses n) (dispatch handlePlayPause st)).
    destruct (playPause_step st Hu Hl He) as (Hu1 & Hl1 & He1 & Hp1 & Hc1 & _).
    destruct (IH _ Hu1 Hl1 He1) as (Hp & Hen & Hct & Hst).
    rewrite Hst, Hp, Hen, Hct, Hp1, Hc1. rewrite Nat.even_succ, <- Nat.negb_even.
    destruct (Nat.even n), (isPlaying st); auto.
Qed.

Lemma play_pause_alternates_witness :
  isPlaying (replay (presses 3) (loaded_and_playing 120)) = false.
Proof.
  apply (play_pause_alternates 3 (loaded_and_playing 120)); vm_compute; reflexivity.
Defined.

(** X12: after the video has ended, pressing play starts it again from
    the beginning: the position is set to 0 on the element and in the
    state, the ended flag is cleared, and the element is asked to pause
    and then to play. *)
Theorem play_after_end_restarts (st : State) :
  usable st st = true → isVideoLoading st = false →
  let st' := replay [Page.VideoEnded; Page.PlayPause] st in
  positionSeconds st' = 0 ∧ isPlaying st' = true ∧ isEnded st' = false
  ∧ status st' = Playing
  ∧ videoRef st'
    = (λ log, log ++ [el_set_currentTime 0; el_pause; el_play]) <$> videoRef st.
Proof.
  intros Hu Hl. destruct st as [pl ct du ve en lo vr]. cbn in Hl. subst lo.
  unfold usable in Hu. cbn [videoRef videoError] in Hu.
  destruct vr as [log|]; [| discriminate]. destruct ve as [err|]; [discriminate |].
  cbn. rewrite <- !app_assoc. repeat split.
Qed.

Lemma play_after_end_restarts_witness :
  positionSeconds
    (replay [Page.VideoEnded; Page.PlayPause]
       (dispatch (handleTimeUpdate 120) (loaded_and_playing 120))) = 0.
Proof.
  apply (play_after_end_restarts
           (dispatch (handleTimeUpdate 120) (loaded_and_playing 120)));
    vm_compute; reflexivity.
Defined.

(** *** Seeking *)

(** X13: seeking twice to the same target is seeking once, as far as the
    state goes: the second seek leaves the position, the flags and the
    duration as the first left them and only repeats the assignment on
    the video element; without an element, or with an error shown,
    neither seek does anything. *)
Theorem seek_idempotent :
  ∀ t st,
    seek t (seek t st)
    = if usable st st then call (el_set_currentTime t) (seek t st) else st.
Proof.
  intros t st. destruct st as [pl ct du ve en lo vr].
  destruct vr as [log|], ve as [err|];
    unfold seek, dispatch, handleSeek, usable, first, lt; cbn; try reflexivity.
  destruct (isFinite t) eqn:Hfin; cbn; rewrite ?Hfin; cbn; [| reflexivity].
  destruct (t <? du) eqn:Hlt; cbn; rewrite ?Hlt; cbn; reflexivity.
Qed.

Lemma seekRelative_position (d : number) (st : State) :
  usable st st = true →
  positionSeconds (seekRelative d st)
  = if isFinite (clamp (duration st) (positionSeconds st + d))
    then clamp (duration st) (positionSeconds st + d)
    else positionSeconds st.
Proof.
  intros Hu. rewrite handleSeekRelative_unfold, seek_position, Hu. reflexivity.
Qed.

(** X14: a relative seek never leaves the video: when the duration is
    not negative and the sum of the position and the delta is a number,
    the target handed to [handleSeek] is between 0 and the duration,
    whatever the delta, and it is the new position whenever it is
    finite (it is not only when duration and sum are both infinite,
    where the element refuses the assignment and the position stays);
    the duration itself is untouched. *)
Theorem seekRelative_within (d : number) (st : State) :
  usable st st = true →
  (0 <=? duration st) = true →
  is_nan (positionSeconds st + d) = false →
  within (duration st) (clamp (duration st) (positionSeconds st + d)) = true
  ∧ is_nan (clamp (duration st) (positionSeconds st + d)) = false
  ∧ positionSeconds (seekRelative d st)
    = (if isFinite (clamp (duration st) (positionSeconds st + d))
       then clamp (duration st) (positionSeconds st + d)
       else positionSeconds st)
  ∧ (isFinite (clamp (duration st) (positionSeconds st + d)) = true →
     within (duration st) (positionSeconds (seekRelative d st)) = true
     ∧ is_nan (positionSeconds (seekRelative d st)) = false)
  ∧ duration (seekRelative d st) = duration st.
Proof.
  intros Hu Hd Hsum.
  destruct (clamp_within (duration st) (positionSeconds st + d) Hd Hsum) as (H0 & H1 & H2).
  assert (Hw : within (duration st) (clamp (duration st) (positionSeconds st + d)) = true)
    by (unfold within; rewrite H0, H1; reflexivity).
  split; [exact Hw |]. split; [exact H2 |].
  split; [exact (seekRelative_position d st Hu) |].
  split.
  - intros Hfin. rewrite (seekRelative_position d st Hu), Hfin. auto.
  - rewrite handleSeekRelative_unfold. apply (proj1 seek_keeps_duration).
Qed.

(** A minute forward, ten seconds before the end. *)
Lemma seekRelative_within_witness :
  within 120 (positionSeconds (seekRelative 60 (seek 110 (loaded_and_playing 120)))) = true.
Proof.
  apply (seekRelative_within 60 (seek 110 (loaded_and_playing 120)));
    vm_compute; reflexivity.
Defined.

(** *** The keyboard *)

Lemma key_cases (code : string) (c : Container) :
  code ∉ shortcuts → handleKeyDown true code c = (false, c).
Proof.
  intros Hnot. unfold handleKeyDown. cbn [negb].
  repeat (case_bool_decide;
          [exfalso; apply Hnot; subst code; apply (bool_decide_unpack _);
           vm_compute; exact I |]).
  reflexivity.
Qed.

(** X15: the keyboard handler touches nothing and does not call
    [preventDefault] when the focus is outside the container, whatever
    the key, and for a key that is not one of its nine shortcuts; with
    the focus inside, each shortcut prevents the default action. The
    End key moves to the duration, when the duration is finite, without
    marking the video as ended; with a duration that is NaN or infinite
    the element refuses the assignment and the position stays.
    Pressing G twice or L twice gives the container back as it was. *)
Theorem keyboard_shortcuts :
  (∀ code c, handleKeyDown false code c = (false, c))
  ∧ (∀ code c, code ∉ shortcuts → handleKeyDown true code c = (false, c))
  ∧ (∀ code c, code ∈ shortcuts → (handleKeyDown true code c).1 = true)
  ∧ (∀ c,
      let c' := (handleKeyDown true "End" c).2 in
      isEnded (player c') = isEnded (player c)
      ∧ isPlaying (player c') = isPlaying (player c)
      ∧ positionSeconds (player c')
        = if usable (player c) (player c) && isFinite (duration (player c))
          then duration (player c)
          else positionSeconds (player c))
  ∧ (∀ c, type_keys ["KeyG"; "KeyG"]%string c = c)
  ∧ (∀ c, type_keys ["KeyL"; "KeyL"]%string c = c).
Proof.
  split; [reflexivity |]. split; [exact key_cases |].
  split.
  { intros code c Hin. unfold shortcuts in Hin.
    repeat (apply elem_of_cons in Hin as [-> | Hin]; [reflexivity |]).
    apply elem_of_nil in Hin. destruct Hin. }
  split.
  { intros [[pl ct du ve en lo vr] l g f].
    pose proof (gt_irrefl du) as Hirr. unfold gt in Hirr.
    destruct vr as [log|], ve as [err|];
      unfold handleKeyDown, dispatch, handleSeek, usable, first, lt, positionSeconds;
      cbn; auto.
    destruct (isFinite du); cbn; rewrite ?Hirr; cbn; auto. }
  split; intros [p l g f]; [destruct g | destruct l]; reflexivity.
Qed.

End PlayerFacts.

Local Close Scope float_scope.

(** ** One estimation at a time *)

Module LoopFacts.
Import Pose EstimationLoop.

Lemma loop_inv_init : loop_inv init.
Proof. split; cbn; [lia | auto]. Qed.

Lemma filter_shorter {A : Type} (p : A → bool) (xs : list A) :
  length (List.filter p xs) ≤ length xs.
Proof.
  induction xs as [|a xs IH]; cbn; [lia |]. destruct (p a); cbn; lia.
Qed.


Lemma detectPose_inv (l : Loop) :
  outstanding l = 0 → requested l = [] → started l = true → loop_inv (detectPose l).
Proof.
  intros Hout Hreq Hst. unfold detectPose.
  destruct (detector l); split; cbn; rewrite ?Hout, ?Hreq; cbn; (lia || congruence).
Qed.

Lemma loop_step_inv (e : Event) (l l' : Loop) :
  loop_inv l → apply_event e l = Some l' → loop_inv l'.
Proof.
  intros [Hb Hi] Hstep. destruct e; cbn [apply_event] in Hstep.
  - (* DetectorReady *) injection Hstep as <-. split; assumption.
  - (* DetectorCleared *) injection Hstep as <-. split; assumption.
  - (* Start *)
    destruct (unmounted l || (started l && negb (cleaned l))); [discriminate |].
    injection Hstep as <-. unfold new_run. cbn [detector].
    destruct (detector l) eqn:Hd.
    + apply detectPose_inv; reflexivity.
    + split; cbn; [lia | discriminate].
  - (* EstimateResolves *)
    destruct (outstanding l) as [|k] eqn:Hout; [discriminate |].
    injection Hstep as <-.
    assert (k = 0) as -> by lia.
    assert (requested l = []) as Hreq by (destruct (requested l); [reflexivity | cbn in Hb; lia]).
    split; cbn; rewrite ?Hout, ?Hreq; cbn; [lia |].
    intros Hst. destruct (Hi Hst) as [? _]. lia.
  - (* EstimateRejects *)
    destruct (outstanding l) as [|k] eqn:Hout; [discriminate |].
    injection Hstep as <-.
    assert (k = 0) as -> by lia.
    assert (requested l = []) as Hreq by (destruct (requested l); [reflexivity | cbn in Hb; lia]).
    split; cbn; rewrite ?Hout, ?Hreq; cbn; [lia |].
    intros Hst. destruct (Hi Hst) as [? _]. lia.
  - (* FrameFires *)
    case_bool_decide as Hin.
    + injection Hstep as <-.
      destruct (requested l) as [|f [|g rest]] eqn:Hreq; cbn in Hb.
      * apply elem_of_nil in Hin. destruct Hin.
      * assert (outstanding l = 0) as Hout by lia.
        apply list_elem_of_singleton in Hin as ->.
        destruct (started l) eqn:Hst.
        2:{ destruct (Hi eq_refl) as (_ & [=] & _). }
        apply detectPose_inv; cbn; rewrite ?Hreq, ?Hout in *; cbn.
        -- reflexivity.
        -- rewrite bool_decide_eq_true_2 by reflexivity. reflexivity.
        -- exact Hst.
      * lia.
    + case_bool_decide as Hin'; [| discriminate]. injection Hstep as <-.
      destruct (started l) eqn:Hst.
      2:{ destruct (Hi eq_refl) as (_ & _ & _ & Hof). rewrite Hof in Hin'.
          apply elem_of_nil in Hin'. destruct Hin'. }
      unfold orphan_detectPose. cbn. destruct (detector l); split; cbn;
        rewrite ?Hst; (exact Hb || discriminate).
  - (* Cleanup *)
    destruct (started l) eqn:Hst; [| discriminate].
    destruct (cleaned l); [discriminate |]. cbn in Hstep.
    destruct (animationFrame l) as [f|]; injection Hstep as <-.
    + split; cbn; rewrite ?Hst; [| discriminate].
      pose proof (filter_shorter (λ g, negb (bool_decide (g = f))) (requested l)). lia.
    + split; cbn; rewrite ?Hst; [exact Hb | discriminate].
  - (* Resize *) injection Hstep as <-. split; assumption.
  - (* OrphanResolves *)
    destruct (orphans l) as [|k] eqn:Ho; [discriminate |]. injection Hstep as <-.
    split; cbn; [exact Hb |]. intros Hst. destruct (Hi Hst) as (_ & _ & Ho' & _). lia.
  - (* OrphanRejects *)
    destruct (orphans l) as [|k] eqn:Ho; [discriminate |]. injection Hstep as <-.
    split; cbn; [exact Hb |]. intros Hst. destruct (Hi Hst) as (_ & _ & Ho' & _). lia.
Qed.

Lemma loop_run_inv (events : list Event) :
  ∀ l l', loop_inv l → run events l = Some l' → loop_inv l'.
Proof.
  induction events as [|e events IH]; intros l l' Hinv Hrun; cbn in Hrun.
  - injection Hrun as <-. exact Hinv.
  - destruct (apply_event e l) as [l1|] eqn:He; [| discriminate].
    cbn in Hrun. eapply IH; [| exact Hrun]. eapply loop_step_inv; eassumption.
Qed.

(** *** The loops that are alive *)




(** *** One run of the effect *)





(** *** Reading the order off a well-ordered history *)










End LoopFacts.

(** ** More on the estimation loop *)

Module LoopExtras.
Import Pose EstimationLoop LoopStates LoopFacts Overlay OverlayFacts.

(** X5: a cycle whose estimation succeeds replaces the overlay: what is
    on the canvas afterwards is the drawing of the poses just estimated
    and nothing of the cycles before; a cycle whose estimation fails
    leaves the canvas, and so the last skeletons drawn, as they were. *)
Theorem overlay_replaced_each_cycle :
  (∀ poses l,
      visible (canvas (detectPose_resolved poses l))
      = flat_map (drawSkeleton []) poses)
  ∧ (∀ l, visible (canvas (detectPose_resolved [] l)) = [])
  ∧ (∀ message l, canvas (detectPose_rejected message l) = canvas l).
Proof.
  assert (Hres : ∀ poses l,
             visible (canvas (detectPose_resolved poses l))
             = flat_map (drawSkeleton []) poses).
  { intros poses l. unfold detectPose_resolved, schedule. cbn [canvas].
    rewrite draw_poses_appends, <- app_assoc, visible_app. cbn [app foldl clears].
    rewrite visible_keep; [reflexivity |].
    induction poses as [|pose poses IH]; cbn [flat_map]; [constructor |].
    apply Forall_app. split; [apply drawSkeleton_no_clear | exact IH]. }
  split; [exact Hres |]. split; [intros l; apply Hres | reflexivity].
Qed.

(** *** A loop that does nothing *)

Lemma untouched_init : untouched init.
Proof. repeat split. Qed.

(** Nothing happens without a detector, and nothing happens between
    two runs of the effect when the last one started no loop. *)
Lemma untouched_step (e : Event) (l l' : Loop) :
  untouched l → detector l = false ∨ starts [e] = 0 →
  apply_event e l = Some l' → untouched l'.
Proof.
  intros (Hh & Hc & Hk & Ho & Hr & Ha & Hor & Hof) Hwhy Hstep.
  destruct e; cbn [apply_event] in Hstep.
  - injection Hstep as <-. repeat split; assumption.
  - injection Hstep as <-. repeat split; assumption.
  - destruct Hwhy as [Hd | [=]].
    destruct (unmounted l || (started l && negb (cleaned l))); [discriminate |].
    injection Hstep as <-. unfold new_run. cbn [detector]. rewrite Hd.
    repeat split; cbn; rewrite ?Hor, ?Ho, ?Hof, ?Hr; auto.
  - rewrite Ho in Hstep. discriminate.
  - rewrite Ho in Hstep. discriminate.
  - rewrite Hr, Hof in Hstep.
    rewrite !bool_decide_eq_false_2 in Hstep by apply not_elem_of_nil. discriminate.
  - destruct (started l && negb (cleaned l)); [| discriminate].
    rewrite Ha in Hstep. injection Hstep as <-. repeat split; assumption.
  - injection Hstep as <-. repeat split; assumption.
  - rewrite Hor in Hstep. discriminate.
  - rewrite Hor in Hstep. discriminate.
Qed.

Lemma detector_step (e : Event) (l l' : Loop) :
  e ≠ DetectorReady → detector l = false → apply_event e l = Some l' →
  detector l' = false.
Proof.
  intros Hne Hd Hstep. destruct e; cbn [apply_event] in Hstep; try congruence.
  - injection Hstep as <-. reflexivity.
  - destruct (unmounted l || (started l && negb (cleaned l))); [discriminate |].
    injection Hstep as <-. unfold new_run. cbn [detector]. rewrite Hd. reflexivity.
  - destruct (outstanding l); [discriminate |]. injection Hstep as <-. exact Hd.
  - destruct (outstanding l); [discriminate |]. injection Hstep as <-. exact Hd.
  - case_bool_decide; [injection Hstep as <-; unfold detectPose; cbn; rewrite Hd; exact Hd |].
    case_bool_decide; [| discriminate]. injection Hstep as <-.
    unfold orphan_detectPose. cbn. rewrite Hd. exact Hd.
  - destruct (started l && negb (cleaned l)); [| discriminate].
    destruct (animationFrame l); injection Hstep as <-; exact Hd.
  - injection Hstep as <-. exact Hd.
  - destruct (orphans l); [discriminate |]. injection Hstep as <-. exact Hd.
  - destruct (orphans l); [discriminate |]. injection Hstep as <-. exact Hd.
Qed.

Lemma untouched_run_no_detector (events : list Event) :
  ∀ l l', untouched l → detector l = false →
          Forall (λ e, e ≠ DetectorReady) events →
          run events l = Some l' →
          untouched l' ∧ detector l' = false.
Proof.
  induction events as [|e events IH]; intros l l' Hu Hd Hall Hrun; cbn [run] in Hrun.
  - injection Hrun as <-. auto.
  - destruct (apply_event e l) as [l1|] eqn:He; [| discriminate]. cbn in Hrun.
    apply Forall_cons in Hall as [Hne Hall].
    apply (IH l1 l'); [| | exact Hall | exact Hrun].
    + exact (untouched_step e l l1 Hu (or_introl Hd) He).
    + exact (detector_step e l l1 Hne Hd He).
Qed.

Lemma not_start (e : Event) : e ≠ Start → starts [e] = 0.
Proof. destruct e; intros Hne; try reflexivity. congruence. Qed.

Lemma untouched_run_no_start (events : list Event) :
  ∀ l l', untouched l → Forall (λ e, e ≠ Start) events →
          run events l = Some l' → untouched l'.
Proof.
  induction events as [|e events IH]; intros l l' Hu Hall Hrun; cbn [run] in Hrun.
  - injection Hrun as <-. exact Hu.
  - destruct (apply_event e l) as [l1|] eqn:He; [| discriminate]. cbn in Hrun.
    apply Forall_cons in Hall as [Hne Hall].
    apply (IH l1 l'); [| exact Hall | exact Hrun].
    exact (untouched_step e l l1 Hu (or_intror (not_start e Hne)) He).
Qed.

Lemma run_app (a b : list Event) (l : Loop) :
  run (a ++ b) l = run a l ≫= run b.
Proof.
  revert l. induction a as [|e a IH]; intros l; cbn; [reflexivity |].
  destruct (apply_event e l) as [l1|]; cbn; [apply IH | reflexivity].
Qed.

Lemma cleaned_step (e : Event) (l l' : Loop) :
  e ≠ Start → cleaned l = true → apply_event e l = Some l' → cleaned l' = true.
Proof.
  intros Hne Hc Hstep. destruct e; cbn [apply_event] in Hstep; try congruence.
  - injection Hstep as <-. exact Hc.
  - injection Hstep as <-. exact Hc.
  - destruct (outstanding l); [discriminate |]. injection Hstep as <-. exact Hc.
  - destruct (outstanding l); [discriminate |]. injection Hstep as <-. exact Hc.
  - case_bool_decide; [injection Hstep as <-; unfold detectPose; cbn;
                       destruct (detector l); exact Hc |].
    case_bool_decide; [| discriminate]. injection Hstep as <-.
    unfold orphan_detectPose. cbn. destruct (detector l); exact Hc.
  - rewrite Hc, andb_false_r in Hstep. discriminate.
  - injection Hstep as <-. exact Hc.
  - destruct (orphans l); [discriminate |]. injection Hstep as <-. exact Hc.
  - destruct (orphans l); [discriminate |]. injection Hstep as <-. exact Hc.
Qed.

Lemma cleaned_run (events : list Event) :
  ∀ l l', Forall (λ e, e ≠ Start) events → cleaned l = true →
          run events l = Some l' → cleaned l' = true.
Proof.
  induction events as [|e events IH]; intros l l' Hall Hc Hrun; cbn [run] in Hrun.
  - injection Hrun as <-. exact Hc.
  - destruct (apply_event e l) as [l1|] eqn:He; [| discriminate]. cbn in Hrun.
    apply Forall_cons in Hall as [Hne Hall].
    exact (IH l1 l' Hall (cleaned_step e l l1 Hne Hc He) Hrun).
Qed.

(** X6: when the effect runs before the detector is ready, as it does on
    mount since the detector is created asynchronously, the loop does
    not start, and it stays that way until the effect runs again:
    whatever else happens, the detector becoming ready included, no
    estimation is called, nothing is drawn or logged and no frame is
    requested. The effect has returned no clean-up; its next run, which
    a change of [videoElement] brings while the component is mounted,
    finds the detector and calls the first estimation. *)
Theorem loop_never_starts_without_detector
    (before after : list Event) (l : Loop) :
  Forall (λ e, e ≠ DetectorReady) before →
  Forall (λ e, e ≠ Start) after →
  run (before ++ Start :: after) init = Some l →
  history l = [] ∧ canvas l = [] ∧ console l = []
  ∧ outstanding l = 0 ∧ requested l = [] ∧ alive l = 0
  ∧ apply_event Cleanup l = None
  ∧ (detector l = true → unmounted l = false →
     ∃ l', apply_event Start l = Some l'
           ∧ outstanding l' = 1 ∧ history l' = [obs_estimate (cycle l)]
           ∧ canvas l' = [] ∧ alive l' = 1).
Proof.
  intros Hbefore Hafter Hrun. rewrite run_app in Hrun.
  destruct (run before init) as [l0|] eqn:Hpre; [| discriminate].
  cbn [mbind option_bind] in Hrun.
  destruct (untouched_run_no_detector before init l0 untouched_init eq_refl
              Hbefore Hpre) as [Hu0 Hd0].
  change (run (Start :: after) l0) with (apply_event Start l0 ≫= run after) in Hrun.
  destruct (apply_event Start l0) as [l1|] eqn:Hstart; [| discriminate].
  cbn [mbind option_bind] in Hrun.
  pose proof (untouched_step Start l0 l1 Hu0 (or_introl Hd0) Hstart) as Hu1.
  assert (Hc1 : cleaned l1 = true).
  { cbn [apply_event] in Hstart.
    destruct (unmounted l0 || (started l0 && negb (cleaned l0))); [discriminate |].
    injection Hstart as <-. unfold new_run. cbn [detector]. rewrite Hd0. reflexivity. }
  pose proof (cleaned_run after l1 l Hafter Hc1 Hrun) as Hc.
  destruct (untouched_run_no_start after l1 l Hu1 Hafter Hrun)
    as (Hh & Hcv & Hk & Ho & Hr & Ha & Hor & Hof).
  do 5 (split; [assumption |]).
  split; [unfold alive; rewrite Ho, Hr, Hor, Hof; reflexivity |].
  split; [cbn [apply_event]; rewrite Hc, andb_false_r; reflexivity |].
  intros Hd Hun. eexists. split.
  - cbn [apply_event]. rewrite Hun, Hc, andb_false_r. cbn [orb negb].
    unfold new_run. cbn [detector]. rewrite Hd. reflexivity.
  - unfold detectPose, alive. cbn.
    rewrite Hh, Hcv, Hor, Ho, Hof, Hr. auto.
Qed.

(** The detector becomes ready after the effect has run; the video
    element changes later. *)
Lemma loop_never_starts_without_detector_witness :
  match run ([Resize 640%float 480%float] ++ Start :: [DetectorReady; Resize 1%float 1%float])
          init with
  | Some l =>
      history l = [] ∧ outstanding l = 0
      ∧ ∃ l', apply_event Start l = Some l' ∧ outstanding l' = 1
  | None => False
  end.
Proof.
  destruct (run ([Resize 640%float 480%float] ++ Start
                   :: [DetectorReady; Resize 1%float 1%float]) init)
    as [l|] eqn:Hrun; [| vm_compute in Hrun; discriminate].
  destruct (loop_never_starts_without_detector
              [Resize 640%float 480%float] [DetectorReady; Resize 1%float 1%float] l)
    as (Hh & _ & _ & Ho & _ & _ & _ & Hnext); [| | exact Hrun |].
  - repeat constructor. discriminate.
  - repeat constructor; discriminate.
  - split; [exact Hh |]. split; [exact Ho |].
    destruct Hnext as (l' & Hs & Ho' & _).
    + vm_compute in Hrun. injection Hrun as <-. reflexivity.
    + vm_compute in Hrun. injection Hrun as <-. reflexivity.
    + exists l'. auto.
Defined.

(** *** A loop that has stopped *)

Local Ltac same_halt :=
  split; [repeat split; assumption |];
  split; [auto |]; intros Hno; split; [exact Hno | auto].

(** Once the latest run has nothing outstanding and nothing pending,
    only a new run of the effect gets a loop going; without a loop of a
    replaced run alive nothing is estimated, drawn or logged. *)
Lemma halted_step (e : Event) (l l' : Loop) :
  halted l → starts [e] = 0 ∨ unmounted l = true →
  apply_event e l = Some l' →
  halted l'
  ∧ (unmounted l = true → unmounted l' = true)
  ∧ (no_orphan l →
     no_orphan l' ∧ history l' = history l ∧ canvas l' = canvas l
     ∧ console l' = console l).
Proof.
  intros (Hst & Ho & Hr) Hwhy Hstep. destruct e; cbn [apply_event] in Hstep.
  - injection Hstep as <-. same_halt.
  - injection Hstep as <-. same_halt.
  - destruct Hwhy as [[=] | Hun]. rewrite Hun in Hstep. discriminate.
  - rewrite Ho in Hstep. discriminate.
  - rewrite Ho in Hstep. discriminate.
  - rewrite Hr in Hstep. rewrite bool_decide_eq_false_2 in Hstep by apply not_elem_of_nil.
    case_bool_decide as Hin; [| discriminate]. injection Hstep as <-.
    unfold orphan_detectPose. cbn.
    split; [destruct (detector l); repeat split; assumption |].
    split; [destruct (detector l); auto |].
    intros [_ Hof]. rewrite Hof in Hin. apply elem_of_nil in Hin. destruct Hin.
  - destruct (started l && negb (cleaned l)); [| discriminate].
    destruct (animationFrame l); injection Hstep as <-;
      (split; [repeat split; cbn; rewrite ?Hr; auto |]);
      (split; [auto |]); intros Hno; (split; [exact Hno | auto]).
  - injection Hstep as <-. same_halt.
  - destruct (orphans l) as [|k] eqn:Hor; [discriminate |]. injection Hstep as <-.
    split; [repeat split; assumption |]. split; [auto |].
    intros [Hor' _]. congruence.
  - destruct (orphans l) as [|k] eqn:Hor; [discriminate |]. injection Hstep as <-.
    split; [repeat split; assumption |]. split; [auto |].
    intros [Hor' _]. congruence.
Qed.

Lemma halted_run (events : list Event) :
  ∀ l l', halted l →
          Forall (λ e, e ≠ Start) events ∨ unmounted l = true →
          run events l = Some l' →
          halted l'
          ∧ (no_orphan l →
             no_orphan l' ∧ history l' = history l ∧ canvas l' = canvas l
             ∧ console l' = console l).
Proof.
  induction events as [|e events IH]; intros l l' Hh Hwhy Hrun; cbn [run] in Hrun.
  - injection Hrun as <-. auto.
  - destruct (apply_event e l) as [l1|] eqn:He; [| discriminate]. cbn in Hrun.
    assert (Hwhy1 : starts [e] = 0 ∨ unmounted l = true).
    { destruct Hwhy as [Hall | Hun]; [left | right; exact Hun].
      apply Forall_cons in Hall as [Hne _]. apply not_start, Hne. }
    destruct (halted_step e l l1 Hh Hwhy1 He) as (Hh1 & Hun1 & Hno1).
    assert (Hwhy2 : Forall (λ e, e ≠ Start) events ∨ unmounted l1 = true).
    { destruct Hwhy as [Hall | Hun]; [left | right; exact (Hun1 Hun)].
      apply Forall_cons in Hall as [_ Hall]. exact Hall. }
    destruct (IH l1 l' Hh1 Hwhy2 Hrun) as (Hh' & Hno').
    split; [exact Hh' |]. intros Hno.
    destruct (Hno1 Hno) as (Hno2 & E1 & E2 & E3).
    destruct (Hno' Hno2) as (Hno3 & F1 & F2 & F3).
    rewrite F1, F2, F3. auto.
Qed.

Lemma frame_inv_step (e : Event) (l l' : Loop) :
  loop_inv l → frame_inv l → apply_event e l = Some l' → frame_inv l'.
Proof.
  intros [Hb _] Hf Hstep. unfold frame_inv in *.
  assert (Hsub : ∀ g f, f ∈ List.filter (λ f, negb (bool_decide (f = g))) (requested l) →
                        f ∈ requested l).
  { intros g f Hin. apply list_elem_of_In in Hin. apply List.filter_In in Hin as [Hin _].
    apply list_elem_of_In, Hin. }
  destruct e; cbn [apply_event] in Hstep.
  - injection Hstep as <-. exact Hf.
  - injection Hstep as <-. exact Hf.
  - destruct (unmounted l || (started l && negb (cleaned l))); [discriminate |].
    injection Hstep as <-. unfold new_run. cbn [detector]. unfold detectPose.
    destruct (detector l); cbn; intros f Hin; apply elem_of_nil in Hin; destruct Hin.
  - destruct (outstanding l) as [|k] eqn:Ho; [discriminate |]. injection Hstep as <-.
    assert (requested l = []) as Hr by (destruct (requested l); [reflexivity | cbn in Hb; lia]).
    cbn. rewrite Hr. intros f Hin. apply list_elem_of_singleton in Hin as ->. reflexivity.
  - destruct (outstanding l) as [|k] eqn:Ho; [discriminate |]. injection Hstep as <-.
    assert (requested l = []) as Hr by (destruct (requested l); [reflexivity | cbn in Hb; lia]).
    cbn. rewrite Hr. intros f Hin. apply list_elem_of_singleton in Hin as ->. reflexivity.
  - case_bool_decide.
    + injection Hstep as <-.
      unfold detectPose. cbn. destruct (detector l); cbn; intros f Hin; eapply Hf, Hsub, Hin.
    + case_bool_decide; [| discriminate]. injection Hstep as <-.
      unfold orphan_detectPose. cbn. destruct (detector l); cbn; exact Hf.
  - destruct (started l && negb (cleaned l)); [| discriminate].
    destruct (animationFrame l) as [g|] eqn:Ha; injection Hstep as <-.
    + cbn. rewrite Ha. intros f Hin. eapply Hf, Hsub, Hin.
    + cbn. rewrite Ha. exact Hf.
  - injection Hstep as <-. exact Hf.
  - destruct (orphans l); [discriminate |]. injection Hstep as <-. exact Hf.
  - destruct (orphans l); [discriminate |]. injection Hstep as <-. exact Hf.
Qed.

Lemma frame_inv_run (events : list Event) :
  ∀ l l', loop_inv l → frame_inv l → run events l = Some l' → frame_inv l'.
Proof.
  induction events as [|e events IH]; intros l l' Hinv Hf Hrun; cbn in Hrun.
  - injection Hrun as <-. exact Hf.
  - destruct (apply_event e l) as [l1|] eqn:He; [| discriminate]. cbn in Hrun.
    eapply IH; [| | exact Hrun].
    + eapply loop_step_inv; eassumption.
    + eapply frame_inv_step; eassumption.
Qed.

Lemma cancel_all (l : Loop) (g : nat) :
  frame_inv l → animationFrame l = Some g →
  List.filter (λ f, negb (bool_decide (f = g))) (requested l) = [].
Proof.
  intros Hf Ha. unfold frame_inv in Hf.
  induction (requested l) as [|f fs IH]; [reflexivity |]. cbn.
  assert (f = g) as ->.
  { specialize (Hf f (list_elem_of_here _ _)). congruence. }
  rewrite bool_decide_eq_true_2 by reflexivity. cbn. apply IH.
  intros f Hin. apply Hf. apply list_elem_of_further, Hin.
Qed.

(** X7: the clean-up of the effect, run between two cycles, stops the
    loop of that run for good: it cancels the one frame that can be
    pending, and until the effect runs again the run has no estimation
    outstanding and no frame pending, whatever happens; when no loop of
    a replaced run is alive either, nothing is estimated, drawn or
    logged. *)
Theorem cleanup_between_cycles_stops_loop
    (events later : list Event) (l l' : Loop) :
  run events init = Some l →
  started l = true → outstanding l = 0 →
  Forall (λ e, e ≠ Start) later →
  run (Cleanup :: later) l = Some l' →
  outstanding l' = 0 ∧ requested l' = []
  ∧ (orphans l = 0 → orphanFrames l = [] →
     history l' = history l ∧ canvas l' = canvas l ∧ console l' = console l
     ∧ alive l' = 0).
Proof.
  intros Hrun Hst Ho Hnostart Hlater.
  pose proof (loop_run_inv events init l loop_inv_init Hrun) as Hinv.
  assert (Hf : frame_inv l).
  { eapply frame_inv_run; [exact loop_inv_init | | exact Hrun].
    intros f Hin. apply elem_of_nil in Hin. destruct Hin. }
  change (run (Cleanup :: later) l) with (apply_event Cleanup l ≫= run later) in Hlater.
  destruct (apply_event Cleanup l) as [l1|] eqn:Hc; [| discriminate].
  cbn [mbind option_bind] in Hlater.
  assert (Hh1 : halted l1 ∧ history l1 = history l ∧ canvas l1 = canvas l
                ∧ console l1 = console l ∧ orphans l1 = orphans l
                ∧ orphanFrames l1 = orphanFrames l).
  { cbn [apply_event] in Hc. destruct (started l && negb (cleaned l)); [| discriminate].
    destruct (animationFrame l) as [g|] eqn:Ha; injection Hc as <-.
    - unfold halted. cbn. rewrite (cancel_all l g Hf Ha). auto 10.
    - unfold halted. cbn. repeat split; auto.
      destruct (requested l) as [|f fs] eqn:Hr; [reflexivity |].
      specialize (Hf f). rewrite Hr in Hf.
      specialize (Hf (list_elem_of_here _ _)). congruence. }
  destruct Hh1 as (Hh1 & E1 & E2 & E3 & E4 & E5).
  destruct (halted_run later l1 l' Hh1 (or_introl Hnostart) Hlater)
    as ((_ & Ho' & Hr') & Hno).
  split; [exact Ho' |]. split; [exact Hr' |].
  intros Hor Hof.
  destruct Hno as ((Hor' & Hof') & F1 & F2 & F3); [split; congruence |].
  rewrite F1, F2, F3. unfold alive. rewrite Ho', Hr', Hor', Hof'. auto.
Qed.

Lemma cleanup_between_cycles_stops_loop_witness :
  match run [DetectorReady; Start; EstimateResolves [confident_pose]] init with
  | Some l =>
      match run [Cleanup; DetectorCleared; DetectorReady; Resize 1%float 1%float] l with
      | Some l' => history l' = history l ∧ requested l' = []
      | None => False
      end
  | None => False
  end.
Proof.
  destruct (run [DetectorReady; Start; EstimateResolves [confident_pose]] init)
    as [l|] eqn:Hrun; [| vm_compute in Hrun; discriminate].
  assert (Hst : started l = true ∧ outstanding l = 0 ∧ orphans l = 0 ∧ orphanFrames l = []).
  { vm_compute in Hrun. injection Hrun as <-. repeat split. }
  destruct Hst as (Hst & Ho & Hor & Hof).
  destruct (run [Cleanup; DetectorCleared; DetectorReady; Resize 1%float 1%float] l)
    as [l'|] eqn:Hlater.
  2:{ vm_compute in Hrun. injection Hrun as <-. vm_compute in Hlater. discriminate. }
  destruct (cleanup_between_cycles_stops_loop
              _ [DetectorCleared; DetectorReady; Resize 1%float 1%float] l l' Hrun Hst Ho
              ltac:(repeat constructor; discriminate) Hlater) as (_ & H2 & H3).
  destruct (H3 Hor Hof) as (H4 & _). auto.
Defined.

Local Opaque drawSkeleton.

(** X8: the clean-up run while an estimation is outstanding does not
    stop the loop by itself, since the frame it cancels has already
    fired. On unmount the detector reference is cleared as well: the
    outstanding estimation still clears the canvas and draws its poses
    once, requests one more frame, and that frame finds no detector and
    ends the loop. With no loop of a replaced run alive, nothing is
    estimated, drawn or logged after it. *)
Theorem unmount_during_estimation
    (events later : list Event) (l l' : Loop) (poses : list (list Keypoint)) :
  run events init = Some l →
  outstanding l = 1 →
  run ([Cleanup; DetectorCleared; EstimateResolves poses; FrameFires (nextFrame l)]
       ++ later) l = Some l' →
  outstanding l' = 0 ∧ requested l' = []
  ∧ (orphans l = 0 → orphanFrames l = [] →
     canvas l'
     = canvas l ++ clearRect 0 0 (width l) (height l) :: flat_map (drawSkeleton []) poses
     ∧ history l'
       = obs_schedule (S (cycle l)) (nextFrame l) :: obs_draw (cycle l) :: history l
     ∧ console l' = console l).
Proof.
  intros Hrun Ho Hlater.
  pose proof (loop_run_inv events init l loop_inv_init Hrun) as [Hb Hi].
  assert (Hr : requested l = []) by (destruct (requested l); [reflexivity | cbn in Hb; lia]).
  assert (Hst : started l = true).
  { destruct (started l) eqn:Hs; [reflexivity |]. destruct (Hi eq_refl) as [H0 _]. lia. }
  rewrite run_app in Hlater.
  destruct (run [Cleanup; DetectorCleared; EstimateResolves poses; FrameFires (nextFrame l)] l)
    as [l4|] eqn:H4; [| discriminate].
  cbn [mbind option_bind] in Hlater.
  assert (Hl4 : halted l4 ∧ unmounted l4 = true
                ∧ orphans l4 = orphans l ∧ orphanFrames l4 = orphanFrames l
                ∧ canvas l4 = canvas l ++ clearRect 0 0 (width l) (height l)
                                :: flat_map (drawSkeleton []) poses
                ∧ history l4 = obs_schedule (S (cycle l)) (nextFrame l)
                                 :: obs_draw (cycle l) :: history l
                ∧ console l4 = console l).
  { destruct l as [st det w h cv co af rq nf ou cy hi cl un orp orf].
    cbn in Ho, Hr, Hst. subst.
    cbn in H4. destruct cl; [discriminate |]. cbn in H4.
    destruct af as [g|]; cbn in H4;
      rewrite bool_decide_eq_true_2 in H4 by (apply list_elem_of_singleton; reflexivity);
      cbn in H4; rewrite bool_decide_eq_true_2 in H4 by reflexivity;
      cbn in H4; injection H4 as <-; unfold halted; cbn;
      rewrite draw_poses_appends, <- app_assoc; auto 10. }
  destruct Hl4 as (Hh4 & Hun4 & Hor4 & Hof4 & E1 & E2 & E3).
  destruct (halted_run later l4 l' Hh4 (or_intror Hun4) Hlater)
    as ((_ & Ho' & Hr') & Hno).
  split; [exact Ho' |]. split; [exact Hr' |]. intros Hor Hof.
  destruct Hno as (_ & F1 & F2 & F3); [split; congruence |].
  rewrite F1, F2, F3, E1, E2, E3. auto.
Qed.

Local Transparent drawSkeleton.

Lemma unmount_during_estimation_witness :
  match run [DetectorReady; Start] init with
  | Some l =>
      match run ([Cleanup; DetectorCleared; EstimateResolves []; FrameFires (nextFrame l)]
                 ++ [DetectorReady]) l with
      | Some l' => outstanding l' = 0 ∧ requested l' = []
      | None => False
      end
  | None => False
  end.
Proof.
  destruct (run [DetectorReady; Start] init) as [l|] eqn:Hrun;
    [| vm_compute in Hrun; discriminate].
  destruct (run ([Cleanup; DetectorCleared; EstimateResolves []; FrameFires (nextFrame l)]
                 ++ [DetectorReady]) l) as [l'|] eqn:Hlater.
  2:{ vm_compute in Hrun. injection Hrun as <-. vm_compute in Hlater. discriminate. }
  assert (Ho : outstanding l = 1).
  { vm_compute in Hrun. injection Hrun as <-. reflexivity. }
  destruct (unmount_during_estimation _ [DetectorReady] l l' [] Hrun Ho Hlater)
    as (H4 & H5 & _).
  auto.
Defined.

(** *** The books of a run *)

Lemma cleared_app (a b : Ctx) : cleared (a ++ b) = cleared a + cleared b.
Proof. unfold cleared. rewrite List.filter_app, length_app. reflexivity. Qed.

Lemma cleared_poses (poses : list (list Keypoint)) :
  cleared (flat_map (drawSkeleton []) poses) = 0.
Proof.
  induction poses as [|pose poses IH]; [reflexivity |].
  cbn [flat_map]. rewrite cleared_app, IH, Nat.add_0_r.
  unfold cleared. induction (drawSkeleton_no_clear pose) as [|op ops Hop _ IHops];
    [reflexivity |].
  cbn [List.filter]. rewrite Hop. exact IHops.
Qed.

Lemma tally_init : tally init.
Proof. split; reflexivity. Qed.

Lemma draws_cons (o : Obs) (h : list Obs) :
  length (draws (o :: h))
  = (match o with obs_draw _ => 1 | _ => 0 end) + length (draws h).
Proof.
  unfold draws. rewrite !length_reverse. destruct o; reflexivity.
Qed.

Lemma estimates_cons (o : Obs) (h : list Obs) :
  length (estimates (o :: h))
  = (match o with obs_estimate _ => 1 | _ => 0 end) + length (estimates h).
Proof.
  unfold estimates. rewrite !length_reverse. destruct o; reflexivity.
Qed.

Lemma tally_detectPose (l : Loop) : tally l → tally (detectPose l).
Proof.
  intros [H1 H2 H3 H4]. unfold detectPose. destruct (detector l); [| split; assumption].
  split; cbn [canvas console cycle nextFrame history outstanding orphans]; try assumption.
  rewrite estimates_cons, H4. lia.
Qed.

Lemma tally_orphan_detectPose (l : Loop) : tally l → tally (orphan_detectPose l).
Proof.
  intros [H1 H2 H3 H4]. unfold orphan_detectPose.
  destruct (detector l); [| split; assumption].
  split; cbn [canvas console cycle nextFrame history outstanding orphans]; try assumption.
  rewrite estimates_cons, H4. lia.
Qed.

Lemma tally_step (e : Event) (l l' : Loop) :
  tally l → apply_event e l = Some l' → tally l'.
Proof.
  intros Ht Hstep. pose proof Ht as [H1 H2 H3 H4].
  destruct e as [| | | poses | message | frame | | w h | poses | message];
    cbn [apply_event] in Hstep.
  - injection Hstep as <-. split; assumption.
  - injection Hstep as <-. split; assumption.
  - destruct (unmounted l || (started l && negb (cleaned l))); [discriminate |].
    injection Hstep as <-.
    assert (Hn : tally (new_run l)).
    { split; cbn [new_run canvas console cycle nextFrame history outstanding orphans];
        try assumption. rewrite H4. lia. }
    destruct (detector l); [apply tally_detectPose; exact Hn |].
    destruct Hn as [N1 N2 N3 N4]. split; assumption.
  - destruct (outstanding l) as [|k] eqn:Ho; [discriminate |]. injection Hstep as <-.
    unfold detectPose_resolved, schedule. cbv zeta.
    split; cbn [canvas console cycle nextFrame history outstanding orphans].
    + rewrite draw_poses_appends, !cleared_app, cleared_poses. cbn. lia.
    + congruence.
    + rewrite !draws_cons, draw_poses_appends, !cleared_app, cleared_poses. cbn. lia.
    + rewrite !estimates_cons, H4, Ho. cbn. lia.
  - destruct (outstanding l) as [|k] eqn:Ho; [discriminate |]. injection Hstep as <-.
    unfold detectPose_rejected, schedule.
    split; cbn [canvas console cycle nextFrame history outstanding orphans].
    + rewrite length_app. cbn. lia.
    + congruence.
    + rewrite !draws_cons. exact H3.
    + rewrite !estimates_cons, H4, Ho. cbn. lia.
  - case_bool_decide.
    + injection Hstep as <-. apply tally_detectPose. split; assumption.
    + case_bool_decide; [| discriminate]. injection Hstep as <-.
      apply tally_orphan_detectPose. split; assumption.
  - destruct (started l && negb (cleaned l)); [| discriminate].
    destruct (animationFrame l); injection Hstep as <-; split; assumption.
  - injection Hstep as <-. split; assumption.
  - destruct (orphans l) as [|k] eqn:Ho; [discriminate |]. injection Hstep as <-.
    unfold orphan_resolved, orphan_schedule. cbv zeta.
    split; cbn [canvas console cycle nextFrame history outstanding orphans].
    + rewrite draw_poses_appends, !cleared_app, cleared_poses. cbn. lia.
    + congruence.
    + rewrite !draws_cons, draw_poses_appends, !cleared_app, cleared_poses. cbn. lia.
    + rewrite !estimates_cons, H4, Ho. cbn. lia.
  - destruct (orphans l) as [|k] eqn:Ho; [discriminate |]. injection Hstep as <-.
    unfold orphan_rejected, orphan_schedule.
    split; cbn [canvas console cycle nextFrame history outstanding orphans].
    + rewrite length_app. cbn. lia.
    + congruence.
    + rewrite !draws_cons. exact H3.
    + rewrite !estimates_cons, H4, Ho. cbn. lia.
Qed.

(** X27: the canvas, the console and the frame requests account for
    every cycle. At any moment of any run the number of times the
    canvas was cleared plus the number of lines logged is the number of
    completed cycles, one frame was requested for each of them, every
    clearing is one recorded draw step, and the estimations called are
    those of the completed cycles and those outstanding, in the latest
    run of the effect or in a run it replaced. *)
Theorem cycles_are_accounted_for (events : list Event) (l : Loop) :
  run events init = Some l →
  cleared (canvas l) + length (console l) = cycle l
  ∧ nextFrame l = cycle l
  ∧ length (draws (history l)) = cleared (canvas l)
  ∧ length (estimates (history l)) = cycle l + outstanding l + orphans l.
Proof.
  intros Hrun.
  assert (Ht : tally l).
  { revert Hrun. generalize tally_init. generalize init.
    induction events as [|e events IH]; intros l0 H0 Hrun; cbn in Hrun.
    - injection Hrun as <-. exact H0.
    - destruct (apply_event e l0) as [l1|] eqn:Hstep; [| discriminate].
      cbn in Hrun. exact (IH l1 (tally_step e l0 l1 H0 Hstep) Hrun). }
  destruct Ht as [H1 H2 H3 H4]. auto.
Qed.

Lemma cycles_are_accounted_for_witness :
  match run three_cycles init, run (video_changes ++ [OrphanResolves []]) init with
  | Some l, Some l2 =>
      cleared (canvas l) + length (console l) = 3 ∧ nextFrame l = 3
      ∧ length (estimates (history l2)) = 2
  | _, _ => False
  end.
Proof.
  destruct (run three_cycles init) as [l|] eqn:Hrun; [| vm_compute in Hrun; discriminate].
  destruct (run (video_changes ++ [OrphanResolves []]) init) as [l2|] eqn:Hrun2;
    [| vm_compute in Hrun2; discriminate].
  assert (Hc : cycle l = 3) by (vm_compute in Hrun; injection Hrun as <-; reflexivity).
  assert (Hc2 : cycle l2 + outstanding l2 + orphans l2 = 2)
    by (vm_compute in Hrun2; injection Hrun2 as <-; reflexivity).
  destruct (cycles_are_accounted_for three_cycles l Hrun) as (H1 & H2 & _).
  destruct (cycles_are_accounted_for _ l2 Hrun2) as (_ & _ & _ & H4).
  rewrite Hc in H1, H2. rewrite Hc2 in H4. auto.
Defined.

End LoopExtras.

(** ** A failed estimation stays inside the overlay *)

Module PageFacts.
Import Pose EstimationLoop LoopFacts.
Import Page (OnPlayback, OnCamera, OnOverlay, playback, camera, overlay).





End PageFacts.

(** ** The shared camera stream *)

Module WebcamFacts.
Import WebcamFeed WebcamStates.

(** *** What the component-level steps leave alone *)

Lemma core_set_instance i inst w : core (set_instance i inst w) = core w.
Proof. reflexivity. Qed.

Lemma core_remove_instance i w : core (remove_instance i w) = core w.
Proof. reflexivity. Qed.

Lemma core_detach i w : core (detach i w) = core w.
Proof. unfold detach. destruct (instances w !! i); reflexivity. Qed.

Lemma core_initializeWebcam_resume i o w :
  core (initializeWebcam_resume i o w) = core w.
Proof.
  unfold initializeWebcam_resume.
  destruct (instances w !! i); [| reflexivity].
  destruct o; [destruct (active stream w) |]; reflexivity.
Qed.

Lemma core_resume_all (o : Outcome) (waiting : list Call) :
  ∀ w, core (foldl (λ acc c, initializeWebcam_resume (caller c) o acc) w waiting)
       = core w.
Proof.
  induction waiting as [|c waiting IH]; intros w; cbn; [reflexivity |].
  rewrite IH. apply core_initializeWebcam_resume.
Qed.

Lemma core_fields w w' :
  core w = core w' →
  globalStream w = globalStream w' ∧ streamInitPromise w = streamInitPromise w'
  ∧ promises w = promises w' ∧ calls w = calls w' ∧ stopped w = stopped w'.
Proof. unfold core. intros [= -> -> -> -> ->]. auto. Qed.

(** *** The invariant of the module variables *)

Lemma world_inv_core w w' : core w = core w' → world_inv w → world_inv w'.
Proof.
  intros (Hg & Hp & Hps & Hc & _)%core_fields [H1 H2 H3].
  split; unfold outcome_of in *; rewrite <- ?Hg, <- ?Hp, <- ?Hps, <- ?Hc; assumption.
Qed.

Lemma world_inv_init : world_inv init.
Proof.
  split; cbn; [exact I | intros q [=] |].
  intros c Hc. apply elem_of_nil in Hc. destruct Hc.
Qed.

(** [getStream] with a promise in the cache: the call joins it. *)
Lemma getStream_cached i w p :
  streamInitPromise w = Some p →
  core (getStream i w)
  = (globalStream w, Some p, promises w,
     calls w ++ [mkCall i p false (outcome_of w p)], stopped w).
Proof.
  intros Hp. unfold getStream. rewrite Hp.
  destruct (outcome_of w p); [rewrite core_initializeWebcam_resume |];
    reflexivity.
Qed.

(** [getStream] with an empty cache: one more request to the browser. *)
Lemma getStream_fresh i w :
  streamInitPromise w = None →
  getStream i w
  = mkWorld (globalStream w) (Some (length (promises w))) (promises w ++ [Pending])
      (calls w ++ [mkCall i (length (promises w)) true None])
      (stopped w) (instances w).
Proof. intros Hp. unfold getStream. rewrite Hp. reflexivity. Qed.

Lemma getStream_inv i w : world_inv w → world_inv (getStream i w).
Proof.
  intros [Hcache Hpend Hcalls].
  destruct (streamInitPromise w) as [p|] eqn:Hp.
  - pose proof (getStream_cached i w p Hp) as Hcore.
    apply (world_inv_core
             (mkWorld (globalStream w) (Some p) (promises w)
                (calls w ++ [mkCall i p false (outcome_of w p)]) (stopped w)
                (instances w))); [symmetry; exact Hcore |].
    split; cbn.
    + exact Hcache.
    + exact Hpend.
    + intros c [Hc | Hc%list_elem_of_singleton]%elem_of_app.
      * apply Hcalls, Hc.
      * subst c. cbn. split; [reflexivity |].
        apply lookup_lt_is_Some. destruct (globalStream w); eauto.
  - rewrite (getStream_fresh i w Hp).
    destruct (globalStream w) as [stream|] eqn:Hg; [destruct Hcache |].
    split; cbn.
    + apply list_lookup_middle. reflexivity.
    + intros q Hq. destruct (decide (q < length (promises w))) as [Hlt | Hge].
      * rewrite lookup_app_l in Hq by exact Hlt.
        apply Hpend in Hq. discriminate.
      * apply lookup_lt_Some in Hq. rewrite length_app in Hq. cbn in Hq.
        f_equal. lia.
    + intros c [Hc | Hc%list_elem_of_singleton]%elem_of_app.
      * destruct (Hcalls c Hc) as [Hres Hlt]. split.
        -- rewrite Hres. unfold outcome_of. cbn.
           rewrite lookup_app_l by exact Hlt. reflexivity.
        -- rewrite length_app. lia.
      * subst c. cbn. split.
        -- unfold outcome_of. cbn.
           rewrite list_lookup_middle by reflexivity. reflexivity.
        -- rewrite length_app. cbn. lia.
Qed.

Lemma initializeWebcam_inv i w : world_inv w → world_inv (initializeWebcam i w).
Proof.
  intros Hinv. unfold initializeWebcam.
  destruct (instances w !! i) as [inst|]; [| exact Hinv].
  destruct (isEnabled inst).
  - apply getStream_inv. eapply world_inv_core; [| exact Hinv]. reflexivity.
  - eapply world_inv_core; [| exact Hinv]. reflexivity.
Qed.

Lemma cleanup_inv w : world_inv w → world_inv (cleanup w).
Proof.
  intros [Hcache Hpend Hcalls]. unfold cleanup.
  destruct (globalStream w) as [stream|] eqn:Hg; [| split; rewrite ?Hg; assumption].
  destruct (streamInitPromise w) as [p|] eqn:Hp; [| destruct Hcache].
  split; cbn.
  - exact I.
  - intros q Hq. pose proof (Hpend q Hq) as Hsp. injection Hsp as <-. congruence.
  - exact Hcalls.
Qed.

Lemma deliver_core p o w :
  core (deliver p o w)
  = (match o with Fulfilled stream => Some stream | Rejected _ => globalStream w end,
     match o with Fulfilled _ => streamInitPromise w | Rejected _ => None end,
     <[p := Settled o]> (promises w),
     settle_call p o <$> calls w,
     stopped w).
Proof.
  unfold deliver. cbv zeta. rewrite core_resume_all.
  destruct o; reflexivity.
Qed.

Lemma settle_call_awaits p o c : awaits (settle_call p o c) = awaits c.
Proof.
  unfold settle_call. case_bool_decide as Hp; cbn; [| reflexivity].
  destruct (bool_decide (result c = None)); cbn; congruence.
Qed.

Lemma deliver_inv p o w :
  world_inv w → promises w !! p = Some Pending → world_inv (deliver p o w).
Proof.
  intros [Hcache Hpend Hcalls] Hp.
  pose proof (Hpend p Hp) as Hsp.
  assert (Hg : globalStream w = None).
  { rewrite Hsp in Hcache. destruct (globalStream w); [congruence | reflexivity]. }
  assert (Hlt : p < length (promises w)) by (eapply lookup_lt_Some; exact Hp).
  apply (world_inv_core
           (mkWorld
              (match o with Fulfilled stream => Some stream | Rejected _ => globalStream w end)
              (match o with Fulfilled _ => streamInitPromise w | Rejected _ => None end)
              (<[p := Settled o]> (promises w)) (settle_call p o <$> calls w)
              (stopped w) (instances w)));
    [symmetry; apply deliver_core |].
  split; cbn.
  - destruct o as [stream | message].
    + rewrite Hsp. apply list_lookup_insert_eq, Hlt.
    + rewrite Hg. exact I.
  - intros q Hq. destruct (decide (q = p)) as [-> | Hne].
    + rewrite list_lookup_insert_eq in Hq by exact Hlt. discriminate.
    + rewrite list_lookup_insert_ne in Hq by congruence.
      apply Hpend in Hq. congruence.
  - intros c' (c & -> & Hc)%list_elem_of_fmap.
    destruct (Hcalls c Hc) as [Hres Hc_lt].
    rewrite settle_call_awaits, length_insert. split; [| exact Hc_lt].
    unfold settle_call, outcome_of in *. cbn.
    case_bool_decide as Hap; cbn.
    + subst p. rewrite Hp in Hres. rewrite Hres. cbn.
      rewrite list_lookup_insert_eq by exact Hlt. reflexivity.
    + rewrite list_lookup_insert_ne by congruence. exact Hres.
Qed.

Lemma world_step_inv e w w' :
  world_inv w → apply_event e w = Some w' → world_inv w'.
Proof.
  intros Hinv Hstep. destruct e as [i en | i en | i | | i | p o | i]; cbn in Hstep.
  - destruct (instances w !! i); [discriminate |]. injection Hstep as <-.
    apply initializeWebcam_inv. eapply world_inv_core; [| exact Hinv]. reflexivity.
  - destruct (instances w !! i) as [inst|]; [| discriminate].
    case_bool_decide; injection Hstep as <-; [exact Hinv |].
    apply initializeWebcam_inv. eapply world_inv_core; [| exact Hinv]. reflexivity.
  - destruct (instances w !! i); [| discriminate]. injection Hstep as <-.
    eapply world_inv_core; [symmetry; apply core_remove_instance |].
    apply cleanup_inv. eapply world_inv_core; [| exact Hinv].
    symmetry. apply core_detach.
  - case_bool_decide; injection Hstep as <-; [exact Hinv | apply cleanup_inv, Hinv].
  - destruct (instances w !! i) as [inst|]; [| discriminate].
    case_bool_decide; [| discriminate]. injection Hstep as <-.
    apply initializeWebcam_inv, Hinv.
  - destruct (promises w !! p) as [[|]|] eqn:Hp; try discriminate.
    destruct o as [stream | message].
    + case_bool_decide; [discriminate |]. injection Hstep as <-.
      apply deliver_inv; assumption.
    + injection Hstep as <-. apply deliver_inv; assumption.
  - destruct (instances w !! i) as [inst|]; [| discriminate].
    destruct (awaitingMetadata inst); injection Hstep as <-; [| exact Hinv].
    eapply world_inv_core; [| exact Hinv]. reflexivity.
Qed.

Lemma world_run_inv (events : list Event) :
  ∀ w w', world_inv w → run events w = Some w' → world_inv w'.
Proof.
  induction events as [|e events IH]; intros w w' Hinv Hrun; cbn in Hrun.
  - injection Hrun as <-. exact Hinv.
  - destruct (apply_event e w) as [w1|] eqn:He; [| discriminate].
    cbn in Hrun. eapply IH; [| exact Hrun]. eapply world_step_inv; eassumption.
Qed.

(** *** While a request is in flight *)

Lemma initializeWebcam_cached i w p :
  streamInitPromise w = Some p →
  promises (initializeWebcam i w) = promises w
  ∧ (calls (initializeWebcam i w) = calls w
     ∨ calls (initializeWebcam i w)
       = calls w ++ [mkCall i p false (outcome_of w p)]).
Proof.
  intros Hp. unfold initializeWebcam.
  destruct (instances w !! i) as [inst|]; [| auto].
  destruct (isEnabled inst); [| auto].
  match goal with |- context [getStream i ?w0] =>
    pose proof (getStream_cached i w0 p Hp) as Hcore;
    apply (f_equal (λ t, (t.1.1.2, t.1.2))) in Hcore; cbn in Hcore
  end.
  injection Hcore as -> ->. auto.
Qed.

Lemma cleanup_requests w :
  promises (cleanup w) = promises w ∧ calls (cleanup w) = calls w.
Proof. unfold cleanup. destruct (globalStream w); auto. Qed.

(** While the promise [p] is pending no event makes a request to the
    browser, and every call of [getStream] the event makes waits for
    [p]. *)
Lemma in_flight_step e w w' p :
  world_inv w → in_flight p w → apply_event e w = Some w' →
  hardware_requests w' = hardware_requests w
  ∧ ∃ old new,
      calls w' = old ++ new ∧ length old = length (calls w)
      ∧ Forall (λ c, awaits c = p) new.
Proof.
  intros Hinv Hfl Hstep. unfold hardware_requests.
  pose proof (inv_pending w Hinv p Hfl) as Hsp.
  assert (Hinit : ∀ i w0, core w0 = core w →
            length (promises (initializeWebcam i w0)) = length (promises w)
            ∧ ∃ old new, calls (initializeWebcam i w0) = old ++ new
                ∧ length old = length (calls w) ∧ Forall (λ c, awaits c = p) new).
  { intros i w0 (_ & Hsp0 & Hps0 & Hc0 & _)%core_fields.
    rewrite <- Hsp0 in Hsp.
    destruct (initializeWebcam_cached i w0 p Hsp) as [-> [-> | ->]];
      rewrite Hps0, Hc0; (split; [reflexivity |]).
    - exists (calls w), []. rewrite app_nil_r. auto.
    - eexists (calls w), [_]. split; [reflexivity |]. split; [reflexivity |].
      repeat constructor. }
  assert (Hsame : ∀ w0, promises w0 = promises w → calls w0 = calls w →
            length (promises w0) = length (promises w)
            ∧ ∃ old new, calls w0 = old ++ new
                ∧ length old = length (calls w) ∧ Forall (λ c, awaits c = p) new).
  { intros w0 -> ->. split; [reflexivity |].
    exists (calls w), []. rewrite app_nil_r. auto. }
  destruct e as [i en | i en | i | | i | q o | i]; cbn in Hstep.
  - destruct (instances w !! i); [discriminate |]. injection Hstep as <-.
    apply Hinit. reflexivity.
  - destruct (instances w !! i) as [inst|]; [| discriminate].
    case_bool_decide; injection Hstep as <-; [apply Hsame; reflexivity |].
    apply Hinit. reflexivity.
  - destruct (instances w !! i); [| discriminate]. injection Hstep as <-.
    apply Hsame; cbn.
    + rewrite (proj1 (cleanup_requests _)).
      pose proof (core_detach i w) as (_ & _ & H & _)%core_fields. exact H.
    + rewrite (proj2 (cleanup_requests _)).
      pose proof (core_detach i w) as (_ & _ & _ & H & _)%core_fields. exact H.
  - case_bool_decide; injection Hstep as <-;
      apply Hsame; reflexivity || apply cleanup_requests.
  - destruct (instances w !! i) as [inst|]; [| discriminate].
    case_bool_decide; [| discriminate]. injection Hstep as <-.
    apply Hinit. reflexivity.
  - assert (Hd : w' = deliver q o w).
    { destruct (promises w !! q) as [[|]|]; try discriminate.
      destruct o; [case_bool_decide; [discriminate |] |]; congruence. }
    subst w'.
    pose proof (deliver_core q o w) as Hcore.
    apply (f_equal (λ t, (t.1.1.2, t.1.2))) in Hcore. cbn in Hcore.
    injection Hcore as -> ->. split; [apply length_insert |].
    exists (settle_call q o <$> calls w), []. rewrite app_nil_r.
    split; [reflexivity |]. split; [apply length_fmap | constructor].
  - destruct (instances w !! i) as [inst|]; [| discriminate].
    destruct (awaitingMetadata inst); injection Hstep as <-;
      apply Hsame; reflexivity.
Qed.

(** When a request settles, every call that waited for it returns its
    outcome. *)
Lemma settle_results p o w w' :
  world_inv w → apply_event (Settle p o) w = Some w' →
  promises w' !! p = Some (Settled o)
  ∧ ∀ c, c ∈ calls w' → awaits c = p → result c = Some o.
Proof.
  intros Hinv Hstep.
  pose proof (world_step_inv _ _ _ Hinv Hstep) as Hinv'.
  cbn in Hstep.
  destruct (promises w !! p) as [[|]|] eqn:Hp; try discriminate.
  assert (Hd : w' = deliver p o w).
  { destruct o; [case_bool_decide; [discriminate |] |]; congruence. }
  assert (Hset : promises w' !! p = Some (Settled o)).
  { subst w'. pose proof (deliver_core p o w) as Hcore.
    apply (f_equal (λ t, t.1.1.2)) in Hcore. cbn in Hcore. rewrite Hcore.
    apply list_lookup_insert_eq. eapply lookup_lt_Some, Hp. }
  split; [exact Hset |].
  intros c Hc Hap. destruct (inv_calls w' Hinv' c Hc) as [-> _].
  unfold outcome_of. rewrite Hap, Hset. reflexivity.
Qed.

(** *** Retry after a failure *)

Lemma getStream_stopped i w : stopped (getStream i w) = stopped w.
Proof.
  destruct (streamInitPromise w) as [p|] eqn:Hp.
  - pose proof (getStream_cached i w p Hp) as Hcore.
    apply (f_equal snd) in Hcore. exact Hcore.
  - rewrite (getStream_fresh i w Hp). reflexivity.
Qed.

Lemma initializeWebcam_stopped i w : stopped (initializeWebcam i w) = stopped w.
Proof.
  unfold initializeWebcam. destruct (instances w !! i) as [inst|]; [| reflexivity].
  destruct (isEnabled inst); [rewrite getStream_stopped |]; reflexivity.
Qed.

(** A call of [getStream] never waits for a rejected promise: the cache
    holds a pending or a fulfilled one, or nothing. *)
Lemma cached_not_rejected w p message :
  world_inv w → promises w !! p = Some (Settled (Rejected message)) →
  streamInitPromise w ≠ Some p.
Proof.
  intros Hinv Hp Hsp. pose proof (inv_cache w Hinv) as Hc. rewrite Hsp in Hc.
  destruct (globalStream w); congruence.
Qed.

(** C7: when a request to the camera fails the cache is emptied, and
    the retry of an enabled feed that follows makes one more request to
    the browser: a new pending promise, now the cached one, for which
    the retry's call of [getStream] waits, while the rejected promise
    stays rejected; in no reachable world is a rejected promise the
    cached one. *)
Theorem retry_after_failure_is_fresh
    (events : list Event) (w w1 w2 : World) (p : PromiseId) (message : string)
    (i : nat) (inst : Instance) :
  run events init = Some w →
  apply_event (Settle p (Rejected message)) w = Some w1 →
  instances w1 !! i = Some inst → isEnabled inst = true →
  apply_event (Retry i) w1 = Some w2 →
  streamInitPromise w1 = None
  ∧ promises w1 !! p = Some (Settled (Rejected message))
  ∧ hardware_requests w2 = S (hardware_requests w1)
  ∧ promises w2 = promises w1 ++ [Pending]
  ∧ streamInitPromise w2 = Some (length (promises w1))
  ∧ calls w2 = calls w1 ++ [mkCall i (length (promises w1)) true None]
  ∧ in_flight (length (promises w1)) w2
  ∧ length (promises w1) ≠ p
  ∧ promises w2 !! p = Some (Settled (Rejected message))
  ∧ (∀ q m, promises w !! q = Some (Settled (Rejected m)) → streamInitPromise w ≠ Some q).
Proof.
  intros Hrun Hsettle Hinst Hen Hretry.
  pose proof (world_run_inv events init w world_inv_init Hrun) as Hinv.
  destruct (settle_results p _ w w1 Hinv Hsettle) as [Hp1 _].
  assert (Hsp1 : streamInitPromise w1 = None).
  { cbn in Hsettle. destruct (promises w !! p) as [[|]|]; try discriminate.
    injection Hsettle as <-.
    pose proof (deliver_core p (Rejected message) w) as Hcore.
    apply (f_equal (λ t, t.1.1.1.2)) in Hcore. exact Hcore. }
  assert (Hw2 : w2 = initializeWebcam i w1).
  { cbn in Hretry. rewrite Hinst in Hretry.
    case_bool_decide; [congruence | discriminate]. }
  assert (Hlt : p < length (promises w1)) by (eapply lookup_lt_Some; exact Hp1).
  subst w2. unfold initializeWebcam, hardware_requests, in_flight.
  rewrite Hinst, Hen.
  rewrite getStream_fresh by exact Hsp1. cbn.
  split; [exact Hsp1 |]. split; [exact Hp1 |].
  split; [rewrite length_app; cbn; lia |].
  split; [reflexivity |]. split; [reflexivity |]. split; [reflexivity |].
  split; [apply list_lookup_middle; reflexivity |].
  split; [lia |].
  split; [rewrite lookup_app_l by exact Hlt; exact Hp1 |].
  intros q m Hq. eapply cached_not_rejected; eassumption.
Qed.

Lemma retry_after_failure_is_fresh_witness :
  match run [Mount 0 true] init with
  | Some w =>
      match apply_event (Settle 0 (Rejected "NotAllowedError")) w with
      | Some w1 =>
          match apply_event (Retry 0) w1 with
          | Some w2 =>
              streamInitPromise w1 = None
              ∧ hardware_requests w2 = 2
              ∧ streamInitPromise w2 = Some 1
              ∧ in_flight 1 w2
          | None => False
          end
      | None => False
      end
  | None => False
  end.
Proof.
  destruct (run [Mount 0 true] init) as [w|] eqn:Hrun;
    [| vm_compute in Hrun; discriminate].
  destruct (apply_event (Settle 0 (Rejected "NotAllowedError")) w) as [w1|] eqn:Hsettle.
  2:{ vm_compute in Hrun. injection Hrun as <-. vm_compute in Hsettle. discriminate. }
  destruct (apply_event (Retry 0) w1) as [w2|] eqn:Hretry.
  2:{ vm_compute in Hrun. injection Hrun as <-.
      vm_compute in Hsettle. injection Hsettle as <-.
      vm_compute in Hretry. discriminate. }
  assert (Hinst : instances w1 !! 0
                  = Some (mkInstance true None false (Some "NotAllowedError") false false)).
  { vm_compute in Hrun. injection Hrun as <-.
    vm_compute in Hsettle. injection Hsettle as <-. reflexivity. }
  destruct (retry_after_failure_is_fresh [Mount 0 true] w w1 w2 0 "NotAllowedError" 0 _
              Hrun Hsettle Hinst eq_refl Hretry)
    as (H1 & _ & H3 & _ & H5 & _ & H7 & _).
  assert (Hlen : length (promises w1) = 1).
  { vm_compute in Hrun. injection Hrun as <-.
    vm_compute in Hsettle. injection Hsettle as <-. reflexivity. }
  unfold hardware_requests in *. rewrite Hlen in *. auto.
Defined.

(** *** Stopping the tracks *)

(** After two acquires the first release stops the tracks although one
    consumer still shows the stream; disabling a feed stops nothing,
    with a consumer left or with none. *)
Lemma first_release_stops_tracks :
  snapshot <$> run two_consumers init = Some (2, false, Some 7)
  ∧ snapshot <$> run (two_consumers ++ [Unmount 0]) init = Some (1, true, None)
  ∧ snapshot <$> run (two_consumers ++ [SetEnabled 0 false]) init
    = Some (1, false, Some 7)
  ∧ snapshot <$> run (two_consumers ++ [SetEnabled 0 false; SetEnabled 1 false]) init
    = Some (0, false, Some 7).
Proof. repeat split; vm_compute; reflexivity. Qed.

Lemma cleanup_stopped w :
  stopped (cleanup w)
  = match globalStream w with
    | Some stream => {[stream]} ∪ stopped w
    | None => stopped w
    end.
Proof. unfold cleanup. destruct (globalStream w); reflexivity. Qed.

Lemma cleanup_globalStream w : globalStream (cleanup w) = None.
Proof. unfold cleanup. destruct (globalStream w) eqn:Hg; [reflexivity | exact Hg]. Qed.

Lemma cleanup_streamInitPromise w :
  is_Some (globalStream w) → streamInitPromise (cleanup w) = None.
Proof. unfold cleanup. intros [stream ->]. reflexivity. Qed.

(** C2 (as the code has it): the tracks of the shared stream are
    stopped by the clean-up that runs when any one feed unmounts, and
    on page unload while a feed is mounted: it stops the cached stream,
    whatever number of feeds still show it, and empties the cache. No
    other event stops tracks; disabling a feed in particular leaves
    them running. *)
Theorem tracks_stop_at_first_release (e : Event) (w w' : World) :
  apply_event e w = Some w' →
  stopped w'
  = (if releases e && negb (bool_decide (instances w = ∅))
     then match globalStream w with
          | Some stream => {[stream]} ∪ stopped w
          | None => stopped w
          end
     else stopped w)
  ∧ (releases e && negb (bool_decide (instances w = ∅)) = true →
     globalStream w' = None
     ∧ (∀ stream, globalStream w = Some stream →
                  tracks_stopped stream w' = true ∧ streamInitPromise w' = None)).
Proof.
  intros Hstep. destruct e as [i en | i en | i | | i | p o | i]; cbn in Hstep;
    cbn [releases andb].
  - destruct (instances w !! i); [discriminate |]. injection Hstep as <-.
    split; [| discriminate]. rewrite initializeWebcam_stopped. reflexivity.
  - destruct (instances w !! i) as [inst|]; [| discriminate].
    split; [| discriminate].
    case_bool_decide; injection Hstep as <-; [reflexivity |].
    rewrite initializeWebcam_stopped. reflexivity.
  - destruct (instances w !! i) as [inst|] eqn:Hi; [| discriminate].
    injection Hstep as <-.
    assert (Hne : instances w ≠ ∅).
    { intros Hem. rewrite Hem, lookup_empty in Hi. discriminate. }
    rewrite bool_decide_eq_false_2 by exact Hne. cbn [negb].
    pose proof (core_detach i w) as (Hg & Hsp & _ & _ & Hst)%core_fields.
    cbn [stopped globalStream streamInitPromise remove_instance].
    rewrite cleanup_stopped, cleanup_globalStream, Hg, Hst.
    split; [reflexivity |]. intros _. split; [reflexivity |].
    intros stream Hgs. split.
    + unfold tracks_stopped. cbn. rewrite cleanup_stopped, Hg, Hgs, Hst.
      apply bool_decide_eq_true_2, elem_of_union_l, elem_of_singleton.
      reflexivity.
    + apply cleanup_streamInitPromise. rewrite Hg, Hgs. eauto.
  - case_bool_decide as Hem; injection Hstep as <-; cbn [negb].
    + split; [reflexivity | discriminate].
    + rewrite cleanup_stopped, cleanup_globalStream.
      split; [reflexivity |]. intros _. split; [reflexivity |].
      intros stream Hgs. split.
      * unfold tracks_stopped. rewrite cleanup_stopped, Hgs.
        apply bool_decide_eq_true_2, elem_of_union_l, elem_of_singleton.
      reflexivity.
      * apply cleanup_streamInitPromise. rewrite Hgs. eauto.
  - destruct (instances w !! i) as [inst|]; [| discriminate].
    case_bool_decide; [| discriminate]. injection Hstep as <-.
    split; [| discriminate]. rewrite initializeWebcam_stopped. reflexivity.
  - split; [| discriminate].
    assert (Hd : w' = deliver p o w).
    { destruct (promises w !! p) as [[|]|]; try discriminate.
      destruct o; [case_bool_decide; [discriminate |] |]; congruence. }
    subst w'. pose proof (deliver_core p o w) as Hcore.
    apply (f_equal snd) in Hcore. exact Hcore.
  - destruct (instances w !! i) as [inst|]; [| discriminate].
    split; [| discriminate].
    destruct (awaitingMetadata inst); injection Hstep as <-; reflexivity.
Qed.

Lemma tracks_stop_at_first_release_witness :
  match run two_consumers init with
  | Some w =>
      match apply_event (Unmount 0) w with
      | Some w' => stopped w' = {[7]} ∪ stopped w ∧ consumers 7 w' = 1
      | None => False
      end
  | None => False
  end.
Proof.
  destruct (run two_consumers init) as [w|] eqn:Hrun;
    [| vm_compute in Hrun; discriminate].
  destruct (apply_event (Unmount 0) w) as [w'|] eqn:Hstep.
  2:{ vm_compute in Hrun. injection Hrun as <-. vm_compute in Hstep. discriminate. }
  destruct (tracks_stop_at_first_release (Unmount 0) w w' Hstep) as [Hst _].
  assert (Hne : instances w ≠ ∅).
  { vm_compute in Hrun. injection Hrun as <-. intros Hem.
    apply (f_equal (λ m, m !! 0)) in Hem. vm_compute in Hem. discriminate. }
  assert (Hg : globalStream w = Some 7).
  { vm_compute in Hrun. injection Hrun as <-. reflexivity. }
  cbn [releases andb] in Hst.
  rewrite bool_decide_eq_false_2 in Hst by exact Hne. cbn [negb] in Hst.
  rewrite Hg in Hst. split; [exact Hst |].
  vm_compute in Hrun. injection Hrun as <-.
  vm_compute in Hstep. injection Hstep as <-. vm_compute. reflexivity.
Defined.

(** *** The cached stream is live *)

Lemma delivered_elem (w : World) (s : Stream) :
  s ∈ delivered w ↔ ∃ p, promises w !! p = Some (Settled (Fulfilled s)).
Proof.
  unfold delivered. rewrite list_elem_of_omap. split.
  - intros (ps & Hin & Hs). destruct ps as [|[s'|m]]; try discriminate.
    injection Hs as ->. apply list_elem_of_lookup in Hin. exact Hin.
  - intros [p Hp]. exists (Settled (Fulfilled s)). split; [| reflexivity].
    apply list_elem_of_lookup. eauto.
Qed.

Lemma delivered_core (w w' : World) :
  core w = core w' → delivered w' = delivered w.
Proof. intros (_ & _ & Hps & _)%core_fields. unfold delivered. rewrite Hps. reflexivity. Qed.

Lemma live_inv_core (w w' : World) : core w = core w' → live_inv w → live_inv w'.
Proof.
  intros Hcore [H1 H2]. pose proof (delivered_core _ _ Hcore) as Hd.
  apply core_fields in Hcore as (Hg & _ & _ & _ & Hst).
  split; rewrite <- ?Hg, <- ?Hst, ?Hd; assumption.
Qed.

Lemma getStream_delivered (i : nat) (w : World) (s : Stream) :
  s ∈ delivered w → s ∈ delivered (getStream i w).
Proof.
  rewrite !delivered_elem. intros [p Hp].
  destruct (streamInitPromise w) as [q|] eqn:Hq.
  - pose proof (getStream_cached i w q Hq) as Hcore.
    apply (f_equal (λ t, t.1.1.2)) in Hcore. cbn in Hcore. rewrite Hcore. eauto.
  - rewrite (getStream_fresh i w Hq). cbn. exists p.
    rewrite lookup_app_l; [exact Hp | eapply lookup_lt_Some, Hp].
Qed.

Lemma getStream_globalStream (i : nat) (w : World) :
  globalStream (getStream i w) = globalStream w.
Proof.
  destruct (streamInitPromise w) as [q|] eqn:Hq.
  - pose proof (getStream_cached i w q Hq) as Hcore.
    apply (f_equal (λ t, t.1.1.1.1)) in Hcore. exact Hcore.
  - rewrite (getStream_fresh i w Hq). reflexivity.
Qed.

Lemma getStream_live (i : nat) (w : World) : live_inv w → live_inv (getStream i w).
Proof.
  intros [H1 H2]. split.
  - intros s. rewrite getStream_stopped. intros Hs. apply getStream_delivered, H1, Hs.
  - intros s. rewrite getStream_stopped, getStream_globalStream. apply H2.
Qed.

Lemma initializeWebcam_live (i : nat) (w : World) :
  live_inv w → live_inv (initializeWebcam i w).
Proof.
  intros Hl. unfold initializeWebcam.
  destruct (instances w !! i) as [inst|]; [| exact Hl].
  destruct (isEnabled inst).
  - apply getStream_live. eapply live_inv_core; [| exact Hl]. reflexivity.
  - eapply live_inv_core; [| exact Hl]. reflexivity.
Qed.

Lemma cleanup_live (w : World) : world_inv w → live_inv w → live_inv (cleanup w).
Proof.
  intros Hinv [H1 H2]. unfold cleanup.
  destruct (globalStream w) as [s|] eqn:Hg; [| split; [exact H1 | rewrite Hg; exact H2]].
  split; cbn.
  - intros s' [Hs | Hs]%elem_of_union.
    + apply elem_of_singleton in Hs as ->.
      pose proof (inv_cache w Hinv) as Hc. rewrite Hg in Hc.
      destruct (streamInitPromise w) as [p|]; [| destruct Hc].
      apply delivered_elem. eauto.
    + apply H1, Hs.
  - intros s' [=].
Qed.

Lemma deliver_live (p : PromiseId) (o : Outcome) (w : World) :
  live_inv w → promises w !! p = Some Pending →
  (∀ s, o = Fulfilled s → s ∉ delivered w) →
  live_inv (deliver p o w).
Proof.
  intros [H1 H2] Hp Hfresh.
  pose proof (deliver_core p o w) as Hcore.
  assert (Hst : stopped (deliver p o w) = stopped w)
    by (apply (f_equal snd) in Hcore; exact Hcore).
  assert (Hps : promises (deliver p o w) = <[p := Settled o]> (promises w))
    by (apply (f_equal (λ t, t.1.1.2)) in Hcore; exact Hcore).
  assert (Hg : globalStream (deliver p o w)
               = match o with Fulfilled s => Some s | Rejected _ => globalStream w end)
    by (apply (f_equal (λ t, t.1.1.1.1)) in Hcore; exact Hcore).
  split.
  - intros s. rewrite Hst. intros Hs. apply H1 in Hs.
    apply delivered_elem in Hs as [q Hq]. apply delivered_elem. exists q.
    rewrite Hps. rewrite list_lookup_insert_ne; [exact Hq |].
    intros Heq. subst.
    assert (E : Some Pending = Some (Settled (Fulfilled s)))
      by (etransitivity; [symmetry; exact Hp | exact Hq]).
    discriminate E.
  - intros s. rewrite Hst, Hg. destruct o as [s'|m].
    + intros [= ->] Hs. apply (Hfresh s eq_refl), H1, Hs.
    + apply H2.
Qed.

Lemma live_step (e : Event) (w w' : World) :
  world_inv w → live_inv w → apply_event e w = Some w' → live_inv w'.
Proof.
  intros Hinv Hl Hstep. destruct e as [i en | i en | i | | i | p o | i]; cbn in Hstep.
  - destruct (instances w !! i); [discriminate |]. injection Hstep as <-.
    apply initializeWebcam_live. eapply live_inv_core; [| exact Hl]. reflexivity.
  - destruct (instances w !! i) as [inst|]; [| discriminate].
    case_bool_decide; injection Hstep as <-; [exact Hl |].
    apply initializeWebcam_live. eapply live_inv_core; [| exact Hl]. reflexivity.
  - destruct (instances w !! i); [| discriminate]. injection Hstep as <-.
    eapply live_inv_core; [symmetry; apply core_remove_instance |].
    apply cleanup_live.
    + eapply world_inv_core; [| exact Hinv]. symmetry. apply core_detach.
    + eapply live_inv_core; [| exact Hl]. symmetry. apply core_detach.
  - case_bool_decide; injection Hstep as <-; [exact Hl | apply cleanup_live; assumption].
  - destruct (instances w !! i) as [inst|]; [| discriminate].
    case_bool_decide; [| discriminate]. injection Hstep as <-.
    apply initializeWebcam_live, Hl.
  - destruct (promises w !! p) as [[|]|] eqn:Hp; try discriminate.
    destruct o as [s | m].
    + case_bool_decide as Hfresh; [discriminate |]. injection Hstep as <-.
      apply deliver_live; [exact Hl | exact Hp |]. intros s' [= <-]. exact Hfresh.
    + injection Hstep as <-. apply deliver_live; [exact Hl | exact Hp |]. discriminate.
  - destruct (instances w !! i) as [inst|]; [| discriminate].
    destruct (awaitingMetadata inst); injection Hstep as <-; [| exact Hl].
    eapply live_inv_core; [| exact Hl]. reflexivity.
Qed.

Lemma live_run (events : list Event) :
  ∀ w w', world_inv w → live_inv w → run events w = Some w' → live_inv w'.
Proof.
  induction events as [|e events IH]; intros w w' Hinv Hl Hrun; cbn in Hrun.
  - injection Hrun as <-. exact Hl.
  - destruct (apply_event e w) as [w1|] eqn:He; [| discriminate]. cbn in Hrun.
    eapply IH; [| | exact Hrun].
    + eapply world_step_inv; eassumption.
    + eapply live_step; eassumption.
Qed.

Lemma live_init : live_inv init.
Proof. split; cbn; [intros s Hs; apply elem_of_empty in Hs; destruct Hs | discriminate]. Qed.

(** *** Resuming the feeds that wait *)

Lemma resumed_idemp (o : Outcome) (inst : Instance) :
  resumed o (resumed o inst) = resumed o inst.
Proof. destruct o; reflexivity. Qed.

Lemma resume_one (i j : nat) (o : Outcome) (w : World) :
  (∀ s, o = Fulfilled s → s ∉ stopped w) →
  instances (initializeWebcam_resume j o w) !! i
  = if bool_decide (i = j) then resumed o <$> (instances w !! i) else instances w !! i.
Proof.
  intros Hact. unfold initializeWebcam_resume.
  destruct (instances w !! j) as [inst|] eqn:Hj.
  - assert (Hset : initializeWebcam_resume j o w = set_instance j (resumed o inst) w).
    { unfold initializeWebcam_resume. rewrite Hj. destruct o as [s|m]; [| reflexivity].
      unfold active. rewrite bool_decide_eq_true_2 by (apply Hact; reflexivity).
      reflexivity. }
    unfold initializeWebcam_resume in Hset. rewrite Hj in Hset. rewrite Hset.
    cbn [instances set_instance]. case_bool_decide as Hij.
    + subst j. rewrite lookup_insert_eq, Hj. reflexivity.
    + rewrite lookup_insert_ne by congruence. reflexivity.
  - case_bool_decide as Hij; [| reflexivity]. subst j. rewrite Hj. reflexivity.
Qed.

Lemma resume_all (o : Outcome) (waiting : list Call) :
  ∀ w, (∀ s, o = Fulfilled s → s ∉ stopped w) →
       ∀ i, instances (foldl (λ acc c, initializeWebcam_resume (caller c) o acc) w waiting)
              !! i
            = if bool_decide (i ∈ caller <$> waiting)
              then resumed o <$> (instances w !! i) else instances w !! i.
Proof.
  induction waiting as [|c waiting IH]; intros w Hact i; cbn [foldl fmap list_fmap].
  - rewrite bool_decide_eq_false_2 by apply not_elem_of_nil. reflexivity.
  - rewrite IH.
    2:{ intros s Hs. pose proof (core_initializeWebcam_resume (caller c) o w) as Hcore.
        apply core_fields in Hcore as (_ & _ & _ & _ & ->). apply Hact, Hs. }
    rewrite (resume_one i (caller c) o w Hact).
    destruct (decide (i = caller c)) as [-> | Hne].
    + rewrite (bool_decide_eq_true_2 (caller c = caller c)) by reflexivity.
      rewrite (bool_decide_eq_true_2 (caller c ∈ caller c :: _)) by apply list_elem_of_here.
      destruct (instances w !! caller c) as [inst|]; cbn;
        [rewrite resumed_idemp |]; case_bool_decide; reflexivity.
    + rewrite (bool_decide_eq_false_2 (i = caller c)) by exact Hne.
      destruct (decide (i ∈ caller <$> waiting)) as [Hin | Hnin].
      * rewrite !bool_decide_eq_true_2; [reflexivity | | exact Hin].
        apply list_elem_of_further, Hin.
      * rewrite !bool_decide_eq_false_2; [reflexivity | | exact Hnin].
        intros [Heq | Hin]%elem_of_cons; [exact (Hne Heq) | exact (Hnin Hin)].
Qed.

(** *** What the callers of a shared request get *)

Lemma waiting_caller (p : PromiseId) (c : Call) (w : World) :
  c ∈ calls w → awaits c = p → result c = None → caller c ∈ waiting_for p w.
Proof.
  intros Hc Hp Hr. unfold waiting_for. apply list_elem_of_fmap_2.
  apply list_elem_of_In, List.filter_In. split; [apply list_elem_of_In, Hc |].
  rewrite Hp, Hr, !bool_decide_eq_true_2 by reflexivity. reflexivity.
Qed.

(** C1: in every world the page can reach at most one request to the
    camera is unresolved, and it is the cached one; while it is
    unresolved no event issues another request and every call of
    [getStream] waits for it: a feed mounted enabled then joins the
    request in flight with a call of its own and no request to the
    camera. A call returns what its promise settled to, so two calls on
    the same promise return the identical stream or the identical
    failure; when the request settles every call waiting for it returns
    that outcome, and the feed of every such caller gets it: the one
    stream on its video element, or the one failure as its error. *)
Theorem concurrent_acquires_share_one_request (events : list Event) (w : World) :
  run events init = Some w →
  (∀ p q, in_flight p w → in_flight q w → p = q)
  ∧ (∀ p, in_flight p w → streamInitPromise w = Some p ∧ globalStream w = None)
  ∧ (∀ p e w',
      in_flight p w → apply_event e w = Some w' →
      hardware_requests w' = hardware_requests w
      ∧ ∃ old new,
          calls w' = old ++ new ∧ length old = length (calls w)
          ∧ Forall (λ c, awaits c = p) new)
  ∧ (∀ c, c ∈ calls w → result c = outcome_of w (awaits c))
  ∧ (∀ c1 c2 o1 o2,
      c1 ∈ calls w → c2 ∈ calls w → awaits c1 = awaits c2 →
      result c1 = Some o1 → result c2 = Some o2 → o1 = o2)
  ∧ (∀ p o w',
      apply_event (Settle p o) w = Some w' →
      ∀ c, c ∈ calls w' → awaits c = p → result c = Some o)
  ∧ (∀ p i,
      in_flight p w → instances w !! i = None →
      ∃ w', apply_event (Mount i true) w = Some w'
            ∧ hardware_requests w' = hardware_requests w
            ∧ calls w' = calls w ++ [mkCall i p false None]
            ∧ in_flight p w'
            ∧ instances w' !! i = Some (mkInstance true None true None false false))
  ∧ (∀ p o w',
      apply_event (Settle p o) w = Some w' →
      ∀ c inst,
        c ∈ calls w → awaits c = p → result c = None →
        instances w !! caller c = Some inst →
        instances w' !! caller c
        = Some match o with
               | Fulfilled stream =>
                   mkInstance (isEnabled inst) (Some stream) (isLoading inst)
                     (error inst) (streamReady inst) true
               | Rejected message =>
                   mkInstance (isEnabled inst) (srcObject inst) false (Some message)
                     (streamReady inst) (awaitingMetadata inst)
               end).
Proof.
  intros Hrun. pose proof (world_run_inv events init w world_inv_init Hrun) as Hinv.
  pose proof (live_run events init w world_inv_init live_init Hrun) as [Hlive _].
  assert (Hcached : ∀ p, in_flight p w → streamInitPromise w = Some p ∧ globalStream w = None).
  { intros p Hp. pose proof (inv_pending w Hinv p Hp) as Hsp.
    split; [exact Hsp |]. pose proof (inv_cache w Hinv) as Hc.
    rewrite Hsp in Hc. unfold in_flight in Hp.
    destruct (globalStream w); [congruence | reflexivity]. }
  split; [| split; [| split; [| split; [| split; [| split; [| split]]]]]].
  - intros p q Hp Hq. apply (inv_pending w Hinv) in Hp, Hq. congruence.
  - exact Hcached.
  - intros p e w' Hp Hstep. eapply in_flight_step; eassumption.
  - intros c Hc. apply (inv_calls w Hinv c Hc).
  - intros c1 c2 o1 o2 Hc1 Hc2 Hap H1 H2.
    destruct (inv_calls w Hinv c1 Hc1) as [E1 _].
    destruct (inv_calls w Hinv c2 Hc2) as [E2 _].
    rewrite Hap in E1. congruence.
  - intros p o w' Hstep. eapply settle_results; eassumption.
  - intros p i Hp Hi. destruct (Hcached p Hp) as [Hsp _]. unfold in_flight in Hp.
    cbn [apply_event]. rewrite Hi. eexists. split; [reflexivity |].
    unfold initializeWebcam. cbn [instances set_instance]. rewrite lookup_insert_eq.
    cbn [isEnabled srcObject streamReady awaitingMetadata].
    unfold getStream. cbn [streamInitPromise set_instance]. rewrite Hsp.
    unfold outcome_of. cbn [promises set_instance]. rewrite Hp.
    unfold hardware_requests, in_flight.
    cbn [promises calls instances set_instance]. rewrite lookup_insert_eq.
    repeat split; assumption || reflexivity.
  - intros p o w' Hstep c inst Hc Hap Hres Hinst.
    cbn [apply_event] in Hstep.
    destruct (promises w !! p) as [[|]|] eqn:Hp; try discriminate.
    assert (Hfresh : ∀ s, o = Fulfilled s → s ∉ stopped w).
    { intros s ->. case_bool_decide as Hd; [discriminate |].
      intros Hs. apply Hd, Hlive, Hs. }
    assert (Hd : w' = deliver p o w).
    { destruct o; [case_bool_decide; [discriminate |] |]; congruence. }
    subst w'. unfold deliver. cbv zeta. rewrite resume_all.
    + pose proof (waiting_caller p c w Hc Hap Hres) as Hin. unfold waiting_for in Hin.
      rewrite (bool_decide_eq_true_2 _ Hin).
      replace (instances (getStream_resume o _) !! caller c) with (instances w !! caller c)
        by (destruct o; reflexivity).
      rewrite Hinst. destruct o; reflexivity.
    + destruct o; cbn; exact Hfresh.
Qed.

(** Three feeds mounted before the camera answers: one request, a
    fourth feed joins it, and when it is answered with stream 7 all
    three show that stream. *)
Lemma concurrent_acquires_share_one_request_witness :
  match run three_feeds init with
  | Some w =>
      hardware_requests w = 1
      ∧ streamInitPromise w = Some 0
      ∧ (∀ o w', apply_event (Settle 0 o) w = Some w' →
                 ∀ c, c ∈ calls w' → awaits c = 0 → result c = Some o)
      ∧ (∃ w', apply_event (Mount 3 true) w = Some w'
               ∧ hardware_requests w' = 1
               ∧ calls w' = calls w ++ [mkCall 3 0 false None])
      ∧ match apply_event (Settle 0 (Fulfilled 7)) w with
        | Some w' =>
            instances w' !! 0 = Some (mkInstance true (Some 7) true None false true)
            ∧ instances w' !! 1 = Some (mkInstance true (Some 7) true None false true)
            ∧ instances w' !! 2 = Some (mkInstance true (Some 7) true None false true)
        | None => False
        end
  | None => False
  end.
Proof.
  destruct (run three_feeds init) as [w|] eqn:Hrun; [| vm_compute in Hrun; discriminate].
  destruct (concurrent_acquires_share_one_request three_feeds w Hrun)
    as (_ & Hcached & _ & _ & _ & Hsettle & Hjoin & Hfeeds).
  assert (Hfl : in_flight 0 w).
  { vm_compute in Hrun. injection Hrun as <-. reflexivity. }
  assert (Hreq : hardware_requests w = 1).
  { vm_compute in Hrun. injection Hrun as <-. reflexivity. }
  split; [exact Hreq |].
  split; [exact (proj1 (Hcached 0 Hfl)) |].
  split; [exact (Hsettle 0) |].
  split.
  { assert (H3 : instances w !! 3 = None).
    { vm_compute in Hrun. injection Hrun as <-. reflexivity. }
    destruct (Hjoin 0 3 Hfl H3) as (w' & H1 & H2 & H4 & _).
    exists w'. rewrite H2. auto. }
  destruct (apply_event (Settle 0 (Fulfilled 7)) w) as [w'|] eqn:Hstep.
  2:{ vm_compute in Hrun. injection Hrun as <-. vm_compute in Hstep. discriminate. }
  assert (Hcalls : calls w = [mkCall 0 0 true None; mkCall 1 0 false None;
                              mkCall 2 0 false None]).
  { vm_compute in Hrun. injection Hrun as <-. reflexivity. }
  assert (Hinst : ∀ i, i < 3 →
                       instances w !! i = Some (mkInstance true None true None false false)).
  { vm_compute in Hrun. injection Hrun as <-.
    intros [|[|[|i]]] Hi; [reflexivity | reflexivity | reflexivity | lia]. }
  split; [| split].
  - apply (Hfeeds 0 (Fulfilled 7) w' Hstep (mkCall 0 0 true None)
             (mkInstance true None true None false false));
      [rewrite Hcalls; apply list_elem_of_here | reflexivity | reflexivity | apply Hinst; cbn; lia].
  - apply (Hfeeds 0 (Fulfilled 7) w' Hstep (mkCall 1 0 false None)
             (mkInstance true None true None false false));
      [rewrite Hcalls; apply list_elem_of_further, list_elem_of_here | reflexivity | reflexivity
      | apply Hinst; cbn; lia].
  - apply (Hfeeds 0 (Fulfilled 7) w' Hstep (mkCall 2 0 false None)
             (mkInstance true None true None false false));
      [rewrite Hcalls; do 2 apply list_elem_of_further; apply list_elem_of_here | reflexivity
      | reflexivity | apply Hinst; cbn; lia].
Defined.

End WebcamFacts.

(** ** More on the shared camera stream *)

Module WebcamExtras.
Import WebcamFeed WebcamStates WebcamFacts.

(** *** The cached stream is shared *)

(** X16: the cached stream is always a live one that the browser handed
    out: its tracks are not stopped. A feed mounted enabled while a
    stream is cached gets that stream at once, in the same task, and
    without a request to the camera. *)
Theorem cached_stream_is_live_and_shared
    (events : list Event) (w : World) (s : Stream) :
  run events init = Some w →
  globalStream w = Some s →
  tracks_stopped s w = false
  ∧ s ∈ delivered w
  ∧ (∀ i, instances w !! i = None →
          ∃ w', apply_event (Mount i true) w = Some w'
                ∧ hardware_requests w' = hardware_requests w
                ∧ globalStream w' = Some s
                ∧ instances w' !! i = Some (mkInstance true (Some s) true None false true)
                ∧ (∃ p, calls w' = calls w ++ [mkCall i p false (Some (Fulfilled s))])).
Proof.
  intros Hrun Hg.
  pose proof (world_run_inv events init w world_inv_init Hrun) as Hinv.
  pose proof (live_run events init w world_inv_init live_init Hrun) as [_ Hlive].
  pose proof (inv_cache w Hinv) as Hc. rewrite Hg in Hc.
  destruct (streamInitPromise w) as [p|] eqn:Hp; [| destruct Hc].
  assert (Hns : s ∉ stopped w) by (apply Hlive, Hg).
  split; [apply bool_decide_eq_false_2, Hns |].
  split; [apply delivered_elem; eauto |].
  intros i Hi. cbn [apply_event]. rewrite Hi. eexists. split; [reflexivity |].
  unfold initializeWebcam. cbn [instances set_instance].
  rewrite lookup_insert_eq. cbn [isEnabled srcObject streamReady awaitingMetadata].
  unfold getStream. cbn [streamInitPromise set_instance]. rewrite Hp.
  unfold outcome_of. cbn [promises set_instance]. rewrite Hc.
  unfold initializeWebcam_resume. cbn [instances set_instance]. rewrite lookup_insert_eq.
  unfold active. cbn [stopped set_instance]. rewrite bool_decide_eq_true_2 by exact Hns.
  unfold hardware_requests.
  cbn [set_instance globalStream streamInitPromise promises calls stopped instances
       isEnabled srcObject isLoading error streamReady awaitingMetadata].
  rewrite lookup_insert_eq. repeat split; eauto.
Qed.

Lemma cached_stream_is_live_and_shared_witness :
  match run two_consumers init with
  | Some w =>
      tracks_stopped 7 w = false
      ∧ ∃ w', apply_event (Mount 2 true) w = Some w'
              ∧ hardware_requests w' = hardware_requests w
  | None => False
  end.
Proof.
  destruct (run two_consumers init) as [w|] eqn:Hrun; [| vm_compute in Hrun; discriminate].
  assert (Hg : globalStream w = Some 7)
    by (vm_compute in Hrun; injection Hrun as <-; reflexivity).
  assert (Hi : instances w !! 2 = None)
    by (vm_compute in Hrun; injection Hrun as <-; reflexivity).
  destruct (cached_stream_is_live_and_shared two_consumers w 7 Hrun Hg) as (H1 & _ & H3).
  split; [exact H1 |].
  destruct (H3 2 Hi) as (w' & Hstep & Hreq & _). eauto.
Defined.

(** *** Every feed that waits gets the outcome *)

(** X17: when a request to the camera settles, every mounted feed that
    has a call of [getStream] waiting for it gets the outcome, whether
    the feed is still enabled or not: on success the stream is attached
    to its video element, on failure the error is shown and the loading
    state ends; the feeds that do not wait for this request are left as
    they are. *)
Theorem outcome_reaches_every_waiting_feed
    (events : list Event) (w w' : World) (p : PromiseId) (o : Outcome) :
  run events init = Some w →
  apply_event (Settle p o) w = Some w' →
  ∀ i, instances w' !! i
       = if bool_decide (i ∈ waiting_for p w)
         then resumed o <$> (instances w !! i) else instances w !! i.
Proof.
  intros Hrun Hstep i.
  pose proof (live_run events init w world_inv_init live_init Hrun) as [Hlive _].
  cbn in Hstep. destruct (promises w !! p) as [[|]|] eqn:Hp; try discriminate.
  assert (Hfresh : ∀ s, o = Fulfilled s → s ∉ stopped w).
  { intros s ->. case_bool_decide as Hd; [discriminate |].
    intros Hs. apply Hd, Hlive, Hs. }
  assert (Hd : w' = deliver p o w).
  { destruct o; [case_bool_decide; [discriminate |] |]; congruence. }
  subst w'. unfold deliver. cbv zeta. rewrite resume_all.
  - unfold waiting_for. destruct o; reflexivity.
  - destruct o; cbn; exact Hfresh.
Qed.

(** A feed is disabled while the camera has not answered yet. *)
Lemma outcome_reaches_every_waiting_feed_witness :
  match run [Mount 0 true; Mount 1 false; SetEnabled 0 false] init with
  | Some w =>
      match apply_event (Settle 0 (Fulfilled 7)) w with
      | Some w' =>
          instances w' !! 0 = Some (mkInstance false (Some 7) false None false true)
          ∧ instances w' !! 1 = instances w !! 1
      | None => False
      end
  | None => False
  end.
Proof.
  destruct (run [Mount 0 true; Mount 1 false; SetEnabled 0 false] init) as [w|] eqn:Hrun;
    [| vm_compute in Hrun; discriminate].
  destruct (apply_event (Settle 0 (Fulfilled 7)) w) as [w'|] eqn:Hstep.
  2:{ vm_compute in Hrun. injection Hrun as <-. vm_compute in Hstep. discriminate. }
  pose proof (outcome_reaches_every_waiting_feed _ w w' 0 (Fulfilled 7) Hrun Hstep) as Hall.
  split.
  - rewrite (Hall 0). vm_compute in Hrun. injection Hrun as <-. reflexivity.
  - rewrite (Hall 1). vm_compute in Hrun. injection Hrun as <-. reflexivity.
Defined.

(** *** Feeds that are never enabled *)

Lemma camera_unused_init : camera_unused init.
Proof. split; try reflexivity; [split; reflexivity |]. intros i inst Hi. discriminate Hi. Qed.

Lemma unused_set_instance (i : nat) (inst : Instance) (w : World) :
  camera_unused w →
  isEnabled inst = false → error inst = None → srcObject inst = None →
  camera_unused (set_instance i inst w).
Proof.
  intros [Hr Hc Hg Ht Hf] He Herr Hs. split; cbn [set_instance promises calls
    globalStream streamInitPromise stopped instances]; try assumption.
  intros j inst' Hj. destruct (decide (j = i)) as [-> | Hne].
  - rewrite lookup_insert_eq in Hj. injection Hj as <-. auto.
  - rewrite lookup_insert_ne in Hj by congruence. eauto.
Qed.

Lemma unused_step (e : Event) (w w' : World) :
  keeps_disabled e → camera_unused w → apply_event e w = Some w' → camera_unused w'.
Proof.
  intros Hk Hu Hstep. pose proof Hu as [Hr Hc [Hg Hp] Ht Hf].
  destruct e as [i en | i en | i | | i | p o | i]; cbn [keeps_disabled] in Hk;
    cbn [apply_event] in Hstep.
  - subst en. destruct (instances w !! i) eqn:Hi; [discriminate |].
    injection Hstep as <-. unfold initializeWebcam.
    cbn [instances set_instance]. rewrite lookup_insert_eq. cbn [isEnabled].
    repeat apply unused_set_instance; auto.
  - subst en. destruct (instances w !! i) as [inst|] eqn:Hi; [| discriminate].
    destruct (Hf i inst Hi) as (He & _).
    rewrite bool_decide_eq_true_2 in Hstep by exact He. injection Hstep as <-. exact Hu.
  - destruct (instances w !! i) as [inst|] eqn:Hi; [| discriminate].
    injection Hstep as <-. destruct (Hf i inst Hi) as (He & Herr & Hs).
    assert (Hd : camera_unused (detach i w)).
    { unfold detach. rewrite Hi. apply unused_set_instance; auto. }
    assert (Hcl : cleanup (detach i w) = detach i w).
    { unfold cleanup. destruct Hd as [_ _ [-> _] _ _]. reflexivity. }
    rewrite Hcl. destruct Hd as [Hr' Hc' Hg' Ht' Hf'].
    split; cbn [remove_instance promises calls globalStream streamInitPromise stopped
                instances]; try assumption.
    intros j inst' Hj. apply lookup_delete_Some in Hj as [_ Hj]. eauto.
  - assert (Hcl : cleanup w = w) by (unfold cleanup; rewrite Hg; reflexivity).
    rewrite Hcl in Hstep. case_bool_decide; injection Hstep as <-; exact Hu.
  - destruct (instances w !! i) as [inst|] eqn:Hi; [| discriminate].
    destruct (Hf i inst Hi) as (_ & Herr & _). rewrite Herr in Hstep.
    rewrite bool_decide_eq_false_2 in Hstep by (intros [x Hx]; discriminate Hx).
    discriminate.
  - rewrite Hr in Hstep. discriminate.
  - destruct (instances w !! i) as [inst|] eqn:Hi; [| discriminate].
    destruct (Hf i inst Hi) as (He & Herr & Hs).
    destruct (awaitingMetadata inst); injection Hstep as <-; [| exact Hu].
    apply unused_set_instance; auto.
Qed.

(** X18: as long as no feed is mounted enabled or switched on, the
    camera is left alone whatever else happens on the page: no request
    is made, [getStream] is never called, nothing is cached, no track is
    stopped, and every mounted feed stays without a stream and without
    an error. In such a run a retry cannot happen, as no feed shows the
    error panel. *)
Theorem disabled_feeds_never_use_camera (events : list Event) (w : World) :
  Forall keeps_disabled events →
  run events init = Some w →
  camera_unused w
  ∧ hardware_requests w = 0%nat
  ∧ (∀ i, i ∈ dom (instances w) → apply_event (Retry i) w = None).
Proof.
  intros Hk Hrun.
  assert (Hu : camera_unused w).
  { revert Hrun. generalize camera_unused_init. generalize init.
    induction Hk as [|e events He _ IH]; intros w0 Hu0 Hrun; cbn in Hrun.
    - injection Hrun as <-. exact Hu0.
    - destruct (apply_event e w0) as [w1|] eqn:Hstep; [| discriminate].
      cbn in Hrun. exact (IH w1 (unused_step e w0 w1 He Hu0 Hstep) Hrun). }
  split; [exact Hu |]. split.
  - unfold hardware_requests. rewrite (unused_requests w Hu). reflexivity.
  - intros i [inst Hi]%elem_of_dom. cbn [apply_event]. rewrite Hi.
    destruct (unused_feeds w Hu i inst Hi) as (_ & -> & _).
    rewrite bool_decide_eq_false_2 by (intros [x Hx]; discriminate Hx). reflexivity.
Qed.

Lemma disabled_feeds_never_use_camera_witness :
  match run [Mount 0 false; Mount 1 false; LoadedMetadata 0; Unmount 1; BeforeUnload] init with
  | Some w => hardware_requests w = 0%nat ∧ stopped w = ∅
  | None => False
  end.
Proof.
  destruct (run [Mount 0 false; Mount 1 false; LoadedMetadata 0; Unmount 1; BeforeUnload] init)
    as [w|] eqn:Hrun; [| vm_compute in Hrun; discriminate].
  assert (Hk : Forall keeps_disabled
                 [Mount 0 false; Mount 1 false; LoadedMetadata 0; Unmount 1; BeforeUnload])
    by (repeat constructor).
  destruct (disabled_feeds_never_use_camera _ w Hk Hrun) as (Hu & Hreq & _).
  split; [exact Hreq | exact (unused_tracks w Hu)].
Defined.

(** *** The ready flag and the overlay *)

Lemma ready_set_instance (i j : nat) (inst : Instance) (w : World) :
  ready i w → (j = i → streamReady inst = true) → ready i (set_instance j inst w).
Proof.
  intros (inst0 & Hi & Hr) Hj. unfold ready. cbn [set_instance instances].
  destruct (decide (j = i)) as [-> | Hne].
  - rewrite lookup_insert_eq. eauto.
  - rewrite lookup_insert_ne by exact Hne. eauto.
Qed.

Ltac keep_ready H :=
  apply ready_set_instance; [assumption |];
  intros ->; destruct H as (? & Hsame & ?); cbn [streamReady]; congruence.

Lemma ready_resume (i j : nat) (o : Outcome) (w : World) :
  ready i w → ready i (initializeWebcam_resume j o w).
Proof.
  intros Hr. unfold initializeWebcam_resume.
  destruct (instances w !! j) as [inst|] eqn:Hj; [| exact Hr].
  destruct o as [s|m]; [destruct (active s w); [| exact Hr] |]; keep_ready Hr.
Qed.

Lemma ready_core (i : nat) (w w' : World) :
  instances w' = instances w → ready i w → ready i w'.
Proof. intros Hi (inst & H1 & H2). exists inst. rewrite Hi. auto. Qed.

Lemma ready_getStream (i j : nat) (w : World) : ready i w → ready i (getStream j w).
Proof.
  intros Hr. unfold getStream. destruct (streamInitPromise w) as [p|].
  - destruct (outcome_of w p); [apply ready_resume |];
      (eapply ready_core; [| exact Hr]); reflexivity.
  - eapply ready_core; [| exact Hr]. reflexivity.
Qed.

Lemma ready_initializeWebcam (i j : nat) (w : World) :
  ready i w → ready i (initializeWebcam j w).
Proof.
  intros Hr. unfold initializeWebcam.
  destruct (instances w !! j) as [inst|] eqn:Hj; [| exact Hr].
  destruct (isEnabled inst); [apply ready_getStream |]; keep_ready Hr.
Qed.

Lemma ready_resume_all (i : nat) (o : Outcome) (waiting : list Call) :
  ∀ w, ready i w →
       ready i (foldl (λ acc c, initializeWebcam_resume (caller c) o acc) w waiting).
Proof.
  induction waiting as [|c waiting IH]; intros w Hr; cbn [foldl]; [exact Hr |].
  apply IH, ready_resume, Hr.
Qed.

Lemma ready_deliver (i : nat) (p : PromiseId) (o : Outcome) (w : World) :
  ready i w → ready i (deliver p o w).
Proof.
  intros Hr. unfold deliver. cbv zeta. apply ready_resume_all.
  destruct o; (eapply ready_core; [| exact Hr]); reflexivity.
Qed.

(** X19: the ready flag of a feed is never taken back. Once a mounted
    feed has seen its video's metadata, every event that leaves it
    mounted leaves the flag set: disabling it, a failed retry, the
    teardown of the shared stream by another feed. *)
Theorem streamReady_is_never_reset (e : Event) (i : nat) (w w' : World) :
  apply_event e w = Some w' →
  e ≠ Unmount i →
  ready i w →
  ready i w'.
Proof.
  intros Hstep Hne Hr.
  destruct e as [j en | j en | j | | j | p o | j]; cbn [apply_event] in Hstep.
  - destruct (instances w !! j) eqn:Hj; [discriminate |]. injection Hstep as <-.
    apply ready_initializeWebcam, ready_set_instance; [exact Hr |].
    intros ->. destruct Hr as (? & Hi & _). congruence.
  - destruct (instances w !! j) as [inst|] eqn:Hj; [| discriminate].
    case_bool_decide; injection Hstep as <-; [exact Hr |].
    apply ready_initializeWebcam. keep_ready Hr.
  - destruct (instances w !! j) as [inst|] eqn:Hj; [| discriminate].
    injection Hstep as <-. assert (Hij : i ≠ j) by congruence.
    assert (Hd : ready i (detach j w)).
    { unfold detach. rewrite Hj. apply ready_set_instance; [exact Hr |]. congruence. }
    destruct Hd as (inst' & Hi' & Hr'). exists inst'. split; [| exact Hr'].
    cbn [remove_instance instances]. rewrite lookup_delete_ne by congruence.
    unfold cleanup. destruct (globalStream (detach j w)); exact Hi'.
  - case_bool_decide; injection Hstep as <-; [exact Hr |].
    unfold cleanup. destruct (globalStream w); exact Hr.
  - destruct (instances w !! j) as [inst|] eqn:Hj; [| discriminate].
    case_bool_decide; [| discriminate]. injection Hstep as <-.
    apply ready_initializeWebcam, Hr.
  - destruct (promises w !! p) as [[|]|]; try discriminate.
    assert (Hd : w' = deliver p o w).
    { destruct o; [case_bool_decide; [discriminate |] |]; congruence. }
    subst w'. apply ready_deliver, Hr.
  - destruct (instances w !! j) as [inst|] eqn:Hj; [| discriminate].
    destruct (awaitingMetadata inst); injection Hstep as <-; [| exact Hr].
    apply ready_set_instance; [exact Hr | reflexivity].
Qed.

Lemma streamReady_is_never_reset_witness :
  match run [Mount 0 true; Settle 0 (Fulfilled 7); LoadedMetadata 0] init with
  | Some w =>
      match apply_event (SetEnabled 0 false) w with
      | Some w' => ready 0 w'
      | None => False
      end
  | None => False
  end.
Proof.
  destruct (run [Mount 0 true; Settle 0 (Fulfilled 7); LoadedMetadata 0] init) as [w|] eqn:Hrun;
    [| vm_compute in Hrun; discriminate].
  assert (Hr : ready 0 w).
  { vm_compute in Hrun. injection Hrun as <-. eexists. split; reflexivity. }
  destruct (apply_event (SetEnabled 0 false) w) as [w'|] eqn:Hstep.
  - apply (streamReady_is_never_reset (SetEnabled 0 false) 0 w w' Hstep); [discriminate | exact Hr].
  - vm_compute in Hrun. injection Hrun as <-. vm_compute in Hstep. discriminate.
Defined.

(** X20: switching off a feed that is ready takes the stream off its
    video element and ends in a state in which the pose overlay is
    still rendered, over a video without a source; the tracks keep
    running and the cached stream is kept. *)
Theorem disabled_ready_feed_keeps_overlay (i : nat) (inst : Instance) (w : World) :
  instances w !! i = Some inst →
  isEnabled inst = true →
  streamReady inst = true →
  ∃ w' inst',
    apply_event (SetEnabled i false) w = Some w'
    ∧ instances w' !! i = Some inst'
    ∧ isEnabled inst' = false
    ∧ srcObject inst' = None
    ∧ overlay_shown inst' = true
    ∧ stopped w' = stopped w
    ∧ globalStream w' = globalStream w.
Proof.
  intros Hi He Hr. cbn [apply_event]. rewrite Hi, He.
  rewrite bool_decide_eq_false_2 by discriminate.
  eexists _, _. split; [reflexivity |].
  unfold initializeWebcam. cbn [set_instance instances]. rewrite lookup_insert_eq.
  cbn [isEnabled streamReady awaitingMetadata set_instance instances stopped globalStream].
  rewrite lookup_insert_eq. split; [reflexivity |].
  unfold overlay_shown. cbn [isEnabled srcObject isLoading error streamReady].
  rewrite Hr. repeat split.
Qed.

Lemma disabled_ready_feed_keeps_overlay_witness :
  match run [Mount 0 true; Settle 0 (Fulfilled 7); LoadedMetadata 0] init with
  | Some w =>
      ∃ w' inst',
        apply_event (SetEnabled 0 false) w = Some w'
        ∧ instances w' !! 0 = Some inst'
        ∧ srcObject inst' = None ∧ overlay_shown inst' = true
  | None => False
  end.
Proof.
  destruct (run [Mount 0 true; Settle 0 (Fulfilled 7); LoadedMetadata 0] init) as [w|] eqn:Hrun;
    [| vm_compute in Hrun; discriminate].
  assert (Hi : instances w !! 0 = Some (mkInstance true (Some 7) false None true false)).
  { vm_compute in Hrun. injection Hrun as <-. reflexivity. }
  destruct (disabled_ready_feed_keeps_overlay 0 _ w Hi eq_refl eq_refl)
    as (w' & inst' & H1 & H2 & _ & H4 & H5 & _).
  exists w', inst'. auto.
Defined.

(** *** The feeds left behind by a release *)

(** X21: when one feed unmounts while the stream is cached, a feed that
    stays mounted is not told: it keeps the stream on its video element
    although the tracks are now stopped. A feed mounted after that
    makes a new request to the camera, and the feed left behind still
    is not touched. *)
Theorem survivors_keep_stopped_stream
    (i j : nat) (s : Stream) (instj : Instance) (w : World) :
  globalStream w = Some s →
  is_Some (instances w !! i) →
  i ≠ j →
  instances w !! j = Some instj →
  ∃ w',
    apply_event (Unmount i) w = Some w'
    ∧ instances w' !! j = Some instj
    ∧ tracks_stopped s w' = true
    ∧ ∀ k, instances w' !! k = None →
           ∃ w'', apply_event (Mount k true) w' = Some w''
                  ∧ hardware_requests w'' = S (hardware_requests w')
                  ∧ in_flight (length (promises w')) w''
                  ∧ instances w'' !! j = Some instj.
Proof.
  intros Hg [insti Hi] Hij Hj. cbn [apply_event]. rewrite Hi.
  eexists. split; [reflexivity |].
  unfold detach. rewrite Hi. unfold cleanup. cbn [set_instance globalStream]. rewrite Hg.
  cbn [remove_instance globalStream streamInitPromise promises calls stopped instances].
  assert (Hj' : delete i (<[i:=mkInstance (isEnabled insti) None (isLoading insti)
                                 (error insti) (streamReady insti)
                                 (awaitingMetadata insti)]> (instances w)) !! j
                = Some instj).
  { rewrite lookup_delete_ne, lookup_insert_ne by congruence. exact Hj. }
  split; [exact Hj' |].
  split; [apply bool_decide_eq_true_2; set_solver |].
  intros k Hk. cbn [apply_event instances]. rewrite Hk.
  eexists. split; [reflexivity |].
  assert (Hkj : k ≠ j).
  { intros ->. cbn [remove_instance instances set_instance] in Hk.
    assert (E : Some instj = None) by (etransitivity; [symmetry; exact Hj' | exact Hk]).
    discriminate E. }
  unfold initializeWebcam. cbn [set_instance instances]. rewrite lookup_insert_eq.
  cbn [isEnabled]. unfold getStream, hardware_requests, in_flight.
  cbn [set_instance remove_instance streamInitPromise promises instances globalStream
       calls stopped isEnabled srcObject isLoading error streamReady awaitingMetadata].
  split; [rewrite length_app; cbn; lia |].
  split; [apply list_lookup_middle; reflexivity |].
  rewrite lookup_insert_ne, lookup_insert_ne by exact Hkj. exact Hj'.
Qed.

Lemma survivors_keep_stopped_stream_witness :
  match run [Mount 0 true; Mount 1 true; Settle 0 (Fulfilled 7); Unmount 0] init with
  | Some w' =>
      instances w' !! 1 = Some (mkInstance true (Some 7) true None false true)
      ∧ tracks_stopped 7 w' = true
  | None => False
  end.
Proof.
  destruct (run [Mount 0 true; Mount 1 true; Settle 0 (Fulfilled 7)] init) as [w|] eqn:Hrun;
    [| vm_compute in Hrun; discriminate].
  assert (Hg : globalStream w = Some 7)
    by (vm_compute in Hrun; injection Hrun as <-; reflexivity).
  assert (H0 : is_Some (instances w !! 0))
    by (vm_compute in Hrun; injection Hrun as <-; eexists; reflexivity).
  assert (H1 : instances w !! 1 = Some (mkInstance true (Some 7) true None false true))
    by (vm_compute in Hrun; injection Hrun as <-; reflexivity).
  destruct (survivors_keep_stopped_stream 0 1 7 _ w Hg H0 ltac:(discriminate) H1)
    as (w' & Hstep & Hj & Hs & _).
  change (run [Mount 0 true; Mount 1 true; Settle 0 (Fulfilled 7); Unmount 0] init)
    with (run ([Mount 0 true; Mount 1 true; Settle 0 (Fulfilled 7)] ++ [Unmount 0]) init).
  assert (Happ : ∀ l1 l2 a b, run l1 a = Some b → run (l1 ++ l2) a = run l2 b).
  { induction l1 as [|e l1 IH]; intros l2 a b Ha; cbn in Ha |- *.
    - injection Ha as <-. reflexivity.
    - destruct (apply_event e a) as [a'|]; [| discriminate]. cbn in Ha |- *. eauto. }
  rewrite (Happ _ [Unmount 0] init w Hrun). cbn [run]. rewrite Hstep. cbn. auto.
Defined.

End WebcamExtras.

(** ** The WebcamFeed that owns its stream *)

Module LocalFeedFacts.
Import LocalWebcamFeed.

(** *** Streams nobody holds *)

Lemma stop_tracks_fields (o : option Stream) (e : Env) :
  pending (stop_tracks o e) = pending e
  ∧ requests (stop_tracks o e) = requests e
  ∧ obtained (stop_tracks o e) = obtained e
  ∧ onStreamReady (stop_tracks o e) = onStreamReady e
  ∧ onError (stop_tracks o e) = onError e
  ∧ (∀ s, s ∈ stopped (stop_tracks o e) ↔ o = Some s ∨ s ∈ stopped e).
Proof.
  destruct o as [x|]; cbn; repeat split; try tauto.
  - intros [->%elem_of_singleton | H]%elem_of_union; auto.
  - intros [[= ->] | H]; set_solver.
  - intros [[=] | H]; exact H.
Qed.

Lemma cleanup_fields (f : Feed) (e : Env) :
  pending (cleanup f e) = (λ _, false) <$> pending e
  ∧ requests (cleanup f e) = requests e
  ∧ obtained (cleanup f e) = obtained e
  ∧ onStreamReady (cleanup f e) = onStreamReady e
  ∧ onError (cleanup f e) = onError e
  ∧ (∀ s, s ∈ stopped (cleanup f e) ↔ captured f = Some s ∨ s ∈ stopped e).
Proof.
  unfold cleanup.
  match goal with |- context [stop_tracks ?o ?e0] =>
    destruct (stop_tracks_fields o e0) as (-> & -> & -> & -> & -> & Hs) end.
  cbn. repeat split; apply Hs.
Qed.

Lemma stop_tracks_running (s : Stream) (o : option Stream) (e : Env) :
  running s e → o ≠ Some s → running s (stop_tracks o e).
Proof.
  intros [Ho Hs] Hne. destruct (stop_tracks_fields o e) as (_ & _ & Eo & _ & _ & Est).
  split; [rewrite Eo; exact Ho |]. rewrite Est. tauto.
Qed.

Lemma cleanup_running (s : Stream) (f : Feed) (e : Env) :
  running s e → captured f ≠ Some s → running s (cleanup f e).
Proof.
  intros [Ho Hs] Hne. destruct (cleanup_fields f e) as (_ & _ & Eo & _ & _ & Est).
  split; [rewrite Eo; exact Ho |]. rewrite Est. tauto.
Qed.

Lemma effect_body_free (s : Stream) (f : Feed) (e : Env) :
  running s e → unheld s f →
  running s (effect_body f e).2 ∧ unheld s (effect_body f e).1.
Proof.
  intros Hr (H1 & H2 & H3). unfold effect_body. destruct (isEnabled f); cbn [fst snd].
  - split; [exact Hr |]. repeat split; assumption.
  - split; [apply stop_tracks_running; assumption |].
    repeat split; cbn; [discriminate | assumption | assumption].
Qed.

Lemma run_effect_free (s : Stream) (f : Feed) (e : Env) :
  running s e → unheld s f →
  running s (run_effect f e).2 ∧ unheld s (run_effect f e).1.
Proof.
  intros Hr Hu. unfold run_effect. cbv zeta.
  destruct (effect_body_free s f e Hr Hu) as [Hr1 Hu1].
  destruct (negb (stable f) && negb (isEnabled f) && bool_decide (is_Some (stream f)));
    [| split; assumption].
  apply effect_body_free; [| exact Hu1].
  apply cleanup_running; [exact Hr1 | apply Hu1].
Qed.

Lemma rerender_free (s : Stream) (f : Feed) (e : Env) :
  running s e → unheld s f →
  running s (rerender f e).2 ∧ unheld s (rerender f e).1.
Proof.
  intros Hr Hu. unfold rerender. destruct (stable f); [split; assumption |].
  apply run_effect_free; [| exact Hu]. apply cleanup_running; [exact Hr | apply Hu].
Qed.

Lemma abandoned_commit (s : Stream) (fe : Feed * Env) :
  running s fe.2 ∧ unheld s fe.1 → abandoned s (commit fe).
Proof. intros [Hr Hu]. split; [exact Hr |]. intros f [= <-]. exact Hu. Qed.

Lemma abandoned_step (s : Stream) (ev : Event) (w w' : World) :
  abandoned s w → apply_event ev w = Some w' → abandoned s w'.
Proof.
  intros [Hr Hu] Hstep. destruct w as [fo e]. cbn [feed env] in *.
  destruct ev as [en cb | en | r s' | r err |]; cbn [apply_event feed env] in Hstep.
  - destruct fo; [discriminate |]. injection Hstep as <-.
    apply abandoned_commit, run_effect_free; [exact Hr |].
    repeat split; discriminate.
  - destruct fo as [f|]; [| discriminate]. specialize (Hu f eq_refl).
    destruct (stable f && bool_decide (en = isEnabled f)); injection Hstep as <-.
    + split; [exact Hr |]. intros f' [= <-]. exact Hu.
    + apply abandoned_commit, run_effect_free.
      * apply cleanup_running; [exact Hr | apply Hu].
      * exact Hu.
  - destruct (pending e !! r) as [m|]; [| discriminate].
    case_bool_decide as Hfresh; [discriminate |].
    assert (Hne : s' ≠ s) by (intros ->; apply Hfresh, Hr).
    assert (Hr1 : ∀ log,
               running s (mkEnv (delete r (pending e)) (requests e) (obtained e ++ [s'])
                            (stopped e) log (onError e))).
    { intros log. destruct Hr as [Ho Hs]. split; cbn; [| exact Hs].
      apply elem_of_app. left. exact Ho. }
    destruct m, fo as [f|]; injection Hstep as <-.
    + specialize (Hu f eq_refl). destruct Hu as (H1 & H2 & H3).
      apply abandoned_commit. unfold adopt. apply rerender_free; [apply Hr1 |].
      repeat split; cbn; [congruence | exact H2 |].
      destruct (error f); congruence.
    + split; [apply Hr1 |]. intros f [=].
    + split; [apply Hr1 |]. intros f' [= <-]. apply Hu. reflexivity.
    + split; [apply Hr1 |]. intros f [=].
  - destruct (pending e !! r) as [m|]; [| discriminate].
    assert (Hr1 : ∀ log,
               running s (mkEnv (delete r (pending e)) (requests e) (obtained e)
                            (stopped e) (onStreamReady e) log))
      by (intros log; exact Hr).
    destruct m, fo as [f|]; injection Hstep as <-.
    + specialize (Hu f eq_refl). destruct Hu as (H1 & H2 & H3).
      apply abandoned_commit. unfold report. apply rerender_free; [apply Hr1 |].
      repeat split; cbn; [exact H1 | exact H2 | discriminate].
    + split; [apply Hr1 |]. intros f [=].
    + split; [apply Hr1 |]. intros f' [= <-]. apply Hu. reflexivity.
    + split; [apply Hr1 |]. intros f [=].
  - destruct fo as [f|]; [| discriminate]. injection Hstep as <-.
    split; [| intros f' [=]]. apply cleanup_running; [exact Hr | apply (Hu f eq_refl)].
Qed.

Lemma abandoned_run (s : Stream) (events : list Event) :
  ∀ w w', abandoned s w → run events w = Some w' → abandoned s w'.
Proof.
  induction events as [|ev events IH]; intros w w' Ha Hrun; cbn in Hrun.
  - injection Hrun as <-. exact Ha.
  - destruct (apply_event ev w) as [w1|] eqn:Hstep; [| discriminate].
    cbn in Hrun. exact (IH w1 w' (abandoned_step s ev w w1 Ha Hstep) Hrun).
Qed.

(** *** What every reachable state satisfies *)

Lemma quiet_cleanup (f : Feed) (e : Env) : quiet (cleanup f e).
Proof.
  intros r. destruct (cleanup_fields f e) as (-> & _). rewrite lookup_fmap.
  destruct (pending e !! r); discriminate.
Qed.

Lemma env_ok_cleanup (f : Feed) (e : Env) :
  env_ok e → holds f e → env_ok (cleanup f e).
Proof.
  intros [H1 H2 H3] Hh.
  destruct (cleanup_fields f e) as (Ep & Er & Eo & El & _ & Est).
  split.
  - intros r. rewrite Ep, Er, lookup_fmap. intros [x Hx]. apply H1.
    destruct (pending e !! r); [eauto | discriminate].
  - intros s. rewrite Est, El. intros [Hc | Hs]; [apply Hh; auto | apply H2, Hs].
  - intros s. rewrite El, Eo. apply H3.
Qed.

Lemma holds_cleanup (f f' : Feed) (e : Env) : holds f' e → holds f' (cleanup f e).
Proof.
  intros Hh s Hs. destruct (cleanup_fields f e) as (_ & _ & _ & -> & _). apply Hh, Hs.
Qed.

Lemma pair_ok_effect_body (f : Feed) (e : Env) :
  env_ok e → holds f e → (is_Some (error f) → srcObject f = None) → quiet e →
  pair_ok (effect_body f e).1 (effect_body f e).2.
Proof.
  intros [H1 H2 H3] Hh He Hq. unfold effect_body.
  destruct (isEnabled f) eqn:Hen; cbn [fst snd].
  - split; cbn; [split; cbn | | exact He | right; reflexivity].
    + intros r [x Hx]. destruct (decide (r = requests e)) as [-> | Hne]; [lia |].
      rewrite lookup_insert_ne in Hx by congruence.
      specialize (H1 r (ex_intro _ x Hx)). lia.
    + exact H2.
    + exact H3.
    + intros s [Hs | [Hs | Hs]]; cbn in Hs; apply Hh; auto.
  - destruct (stop_tracks_fields (stream f) e) as (Ep & Er & Eo & El & _ & Est).
    split; cbn; [split | | exact He | left].
    + intros r. rewrite Ep, Er. apply H1.
    + intros s. rewrite Est, El. intros [Hs | Hs]; [apply Hh; auto | apply H2, Hs].
    + intros s. rewrite El, Eo. apply H3.
    + intros s [Hs | [Hs | Hs]]; cbn in Hs; rewrite El; [discriminate | |]; apply Hh; auto.
    + intros r. rewrite Ep. apply Hq.
Qed.

Lemma pair_ok_run_effect (f : Feed) (e : Env) :
  env_ok e → holds f e → (is_Some (error f) → srcObject f = None) → quiet e →
  pair_ok (run_effect f e).1 (run_effect f e).2.
Proof.
  intros H1 H2 H3 H4. unfold run_effect. cbv zeta.
  pose proof (pair_ok_effect_body f e H1 H2 H3 H4) as [K1 K2 K3 K4].
  destruct (negb (stable f) && negb (isEnabled f) && bool_decide (is_Some (stream f)));
    [| split; assumption].
  apply pair_ok_effect_body.
  - apply env_ok_cleanup; assumption.
  - apply holds_cleanup, K2.
  - exact K3.
  - apply quiet_cleanup.
Qed.

Lemma pair_ok_rerender (f : Feed) (e : Env) :
  pair_ok f e → pair_ok (rerender f e).1 (rerender f e).2.
Proof.
  intros [H1 H2 H3 H4]. unfold rerender. destruct (stable f); [split; assumption |].
  apply pair_ok_run_effect.
  - apply env_ok_cleanup; assumption.
  - apply holds_cleanup, H2.
  - exact H3.
  - apply quiet_cleanup.
Qed.

Lemma quiet_delete (r : Request) (e : Env) (p : gmap Request bool) :
  p = delete r (pending e) → quiet e → ∀ r', p !! r' ≠ Some true.
Proof. intros -> Hq r' [_ H]%lookup_delete_Some. exact (Hq r' H). Qed.

Lemma feed_inv_init : feed_inv init.
Proof.
  split; [split; cbn |].
  - intros r [x Hx]. rewrite lookup_empty in Hx. discriminate.
  - intros s Hs. apply not_elem_of_empty in Hs. destruct Hs.
  - intros s Hs. exact Hs.
  - intros r. cbn. rewrite lookup_empty. discriminate.
Qed.

Lemma feed_inv_commit (fe : Feed * Env) : pair_ok fe.1 fe.2 → feed_inv (commit fe).
Proof. intros H. exact H. Qed.

Lemma mounted_enabled (f : Feed) (e : Env) (r : Request) :
  pair_ok f e → pending e !! r = Some true → isEnabled f = true.
Proof. intros [_ _ _ [Hq | He]] Hr; [destruct (Hq r Hr) | exact He]. Qed.

Lemma feed_step_inv (ev : Event) (w w' : World) :
  feed_inv w → apply_event ev w = Some w' → feed_inv w'.
Proof.
  intros Hinv Hstep. destruct w as [fo e]. unfold feed_inv in Hinv. cbn [feed env] in *.
  destruct ev as [en cb | en | r s | r err |]; cbn [apply_event feed env] in Hstep.
  - destruct fo; [discriminate |]. injection Hstep as <-. destruct Hinv as [He Hq].
    apply feed_inv_commit, pair_ok_run_effect; cbn; auto.
    intros s [Hs | [Hs | Hs]]; discriminate Hs.
  - destruct fo as [f|]; [| discriminate].
    destruct (stable f && bool_decide (en = isEnabled f)); injection Hstep as <-;
      [exact Hinv |].
    destruct Hinv as [H1 H2 H3 H4].
    apply feed_inv_commit, pair_ok_run_effect; cbn.
    + apply env_ok_cleanup; assumption.
    + apply holds_cleanup. exact H2.
    + exact H3.
    + apply quiet_cleanup.
  - destruct (pending e !! r) as [m|] eqn:Hr; [| discriminate].
    case_bool_decide as Hfresh; [discriminate |].
    assert (Hok : ∀ log, (∀ x, x ∈ log → x = s ∨ x ∈ onStreamReady e) →
                         (∀ x, x ∈ onStreamReady e → x ∈ log) →
                         env_ok e →
                         env_ok (mkEnv (delete r (pending e)) (requests e)
                                   (obtained e ++ [s]) (stopped e) log (onError e))).
    { intros log Hlog Hsub [H1 H2 H3]. split; cbn.
      - intros r' [x [_ Hx]%lookup_delete_Some]. apply H1. eauto.
      - intros x Hx. apply Hsub, H2, Hx.
      - intros x Hx. apply elem_of_app.
        destruct (Hlog x Hx) as [-> | Hx']; [right; apply list_elem_of_here | left; auto]. }
    destruct m, fo as [f|]; injection Hstep as <-.
    + pose proof (mounted_enabled f e r Hinv Hr) as Hen. destruct Hinv as [H1 H2 H3 H4].
      apply feed_inv_commit. unfold adopt. apply pair_ok_rerender. split; cbn.
      * apply Hok; [| | exact H1].
        -- intros x [Hx | ->%list_elem_of_singleton]%elem_of_app; auto.
        -- intros x Hx. apply elem_of_app. left. exact Hx.
      * intros x Hx. apply elem_of_app.
        destruct Hx as [[= ->] | [Hx | Hx]].
        -- right. apply list_elem_of_here.
        -- left. apply H2. auto.
        -- destruct (error f); [discriminate |]. injection Hx as ->.
           right. apply list_elem_of_here.
      * intros [x Hx]. discriminate Hx.
      * right. exact Hen.
    + destruct Hinv as [H1 Hq]. split; [apply Hok; auto |].
      intros r'. cbn. eapply quiet_delete; [reflexivity | exact Hq].
    + destruct Hinv as [H1 H2 H3 H4]. split; cbn; [apply Hok; auto | exact H2 | exact H3 |].
      destruct H4 as [Hq | Hen]; [left | right; exact Hen].
      intros r'. cbn. eapply quiet_delete; [reflexivity | exact Hq].
    + destruct Hinv as [H1 Hq]. split; [apply Hok; auto |].
      intros r'. cbn. eapply quiet_delete; [reflexivity | exact Hq].
  - destruct (pending e !! r) as [m|] eqn:Hr; [| discriminate].
    assert (Hok : ∀ log, env_ok e →
                         env_ok (mkEnv (delete r (pending e)) (requests e) (obtained e)
                                   (stopped e) (onStreamReady e) log)).
    { intros log [H1 H2 H3]. split; cbn; [| exact H2 | exact H3].
      intros r' [x [_ Hx]%lookup_delete_Some]. apply H1. eauto. }
    destruct m, fo as [f|]; injection Hstep as <-.
    + pose proof (mounted_enabled f e r Hinv Hr) as Hen. destruct Hinv as [H1 H2 H3 H4].
      apply feed_inv_commit. unfold report. apply pair_ok_rerender. split; cbn.
      * apply Hok, H1.
      * intros x [Hx | [Hx | Hx]]; cbn in Hx; [| | discriminate]; apply H2; auto.
      * reflexivity.
      * right. exact Hen.
    + destruct Hinv as [H1 Hq]. split; [apply Hok; auto |].
      intros r'. cbn. eapply quiet_delete; [reflexivity | exact Hq].
    + destruct Hinv as [H1 H2 H3 H4]. split; cbn; [apply Hok; auto | exact H2 | exact H3 |].
      destruct H4 as [Hq | Hen]; [left | right; exact Hen].
      intros r'. cbn. eapply quiet_delete; [reflexivity | exact Hq].
    + destruct Hinv as [H1 Hq]. split; [apply Hok; auto |].
      intros r'. cbn. eapply quiet_delete; [reflexivity | exact Hq].
  - destruct fo as [f|]; [| discriminate]. injection Hstep as <-.
    destruct Hinv as [H1 H2 H3 H4]. split; cbn.
    + apply env_ok_cleanup; assumption.
    + apply quiet_cleanup.
Qed.

Lemma feed_run_inv (events : list Event) :
  ∀ w w', feed_inv w → run events w = Some w' → feed_inv w'.
Proof.
  induction events as [|ev events IH]; intros w w' Hinv Hrun; cbn in Hrun.
  - injection Hrun as <-. exact Hinv.
  - destruct (apply_event ev w) as [w1|] eqn:Hstep; [| discriminate].
    cbn in Hrun. exact (IH w1 w' (feed_step_inv ev w w1 Hinv Hstep) Hrun).
Qed.

Lemma feed_run_app (l1 l2 : list Event) :
  ∀ w, run (l1 ++ l2) w = run l1 w ≫= run l2.
Proof.
  induction l1 as [|ev l1 IH]; intros w; cbn; [reflexivity |].
  destruct (apply_event ev w); cbn; [apply IH | reflexivity].
Qed.

Lemma reachable_inv (events : list Event) (w : World) :
  run events init = Some w → feed_inv w.
Proof. apply feed_run_inv, feed_inv_init. Qed.

(** A stream the browser has not handed out yet is not stopped and
    nothing refers to it. *)
Lemma fresh_unknown (w : World) (s : Stream) :
  feed_inv w → s ∉ obtained (env w) →
  (s ∉ stopped (env w)) ∧ (∀ f, feed w = Some f → unheld s f).
Proof.
  intros Hinv Hfresh. unfold feed_inv in Hinv. destruct w as [[f|] e]; cbn in *.
  - destruct Hinv as [[H1 H2 H3] Hh _ _]. split.
    + intros Hs. apply Hfresh, H3, H2, Hs.
    + intros f' [= <-]. repeat split; intros Hs; apply Hfresh, H3, Hh; auto.
  - destruct Hinv as [[H1 H2 H3] _]. split; [| intros f [=]].
    intros Hs. apply Hfresh, H3, H2, Hs.
Qed.

(** *** The render after a change of state *)

Lemma rerender_stable (f : Feed) (e : Env) : stable f = true → rerender f e = (f, e).
Proof. intros Hst. unfold rerender. rewrite Hst. reflexivity. Qed.

Lemma rerender_unstable (f : Feed) (e : Env) :
  stable f = false → isEnabled f = true →
  ∃ e', rerender f e
        = (mkFeed false true (stream f) (error f) (srcObject f) (stream f), e')
        ∧ requests e' = S (requests e)
        ∧ pending e' !! requests e = Some true
        ∧ obtained e' = obtained e
        ∧ onStreamReady e' = onStreamReady e
        ∧ onError e' = onError e
        ∧ (∀ x, x ∈ stopped e' ↔ captured f = Some x ∨ x ∈ stopped e).
Proof.
  intros Hst Hen. unfold rerender, run_effect, effect_body. cbv zeta.
  rewrite Hst, Hen. cbn [negb andb].
  destruct (cleanup_fields f e) as (Ep & Er & Eo & El & Ee & Est).
  eexists. split; [reflexivity |]. cbn. rewrite Er, Eo, El, Ee.
  repeat split; try apply Est. apply lookup_insert_eq.
Qed.

(** X22: a stream that the browser hands out after the effect that
    asked for it was cleaned up (the feed was unmounted or switched off
    in between) is dropped: the component and the callbacks are not
    told, and whatever happens afterwards its tracks are never stopped
    and no video element shows it. Only streams handed to
    [onStreamReady] are ever stopped. *)
Theorem late_stream_is_abandoned
    (events later : list Event) (w w1 w2 : World) (r : Request) (s : Stream) :
  run events init = Some w →
  pending (env w) !! r = Some false →
  apply_event (Resolve r s) w = Some w1 →
  run later w1 = Some w2 →
  feed w1 = feed w
  ∧ onStreamReady (env w1) = onStreamReady (env w)
  ∧ stopped (env w1) = stopped (env w)
  ∧ abandoned s w2
  ∧ (∀ x, x ∈ stopped (env w2) → x ∈ onStreamReady (env w2)).
Proof.
  intros Hrun Hr Hstep Hlater. pose proof (reachable_inv events w Hrun) as Hinv.
  assert (Hinv2 : feed_inv w2).
  { eapply feed_run_inv; [| exact Hlater]. eapply feed_step_inv; [exact Hinv | exact Hstep]. }
  cbn [apply_event] in Hstep. rewrite Hr in Hstep.
  case_bool_decide as Hfresh; [discriminate |]. injection Hstep as <-. cbn [feed env].
  split; [reflexivity |]. split; [reflexivity |]. split; [reflexivity |].
  destruct (fresh_unknown w s Hinv Hfresh) as [Hs Hu]. split.
  - eapply (abandoned_run s later); [| exact Hlater]. split; cbn.
    + split; cbn; [| exact Hs]. apply elem_of_app. right. apply list_elem_of_here.
    + exact Hu.
  - unfold feed_inv in Hinv2. destruct (feed w2); [apply Hinv2 | apply (proj1 Hinv2)].
Qed.

Lemma late_stream_is_abandoned_witness :
  match run [Mount true true; Unmount; Resolve 0 7; Mount true true; Resolve 1 8; Unmount] init with
  | Some w => abandoned 7 w
  | None => False
  end.
Proof.
  destruct (run [Mount true true; Unmount; Resolve 0 7; Mount true true; Resolve 1 8; Unmount]
              init) as [w2|] eqn:Hrun; [| vm_compute in Hrun; discriminate].
  destruct (run [Mount true true; Unmount] init) as [w|] eqn:Hpre;
    [| vm_compute in Hpre; discriminate].
  destruct (apply_event (Resolve 0 7) w) as [w1|] eqn:Hstep.
  2:{ vm_compute in Hpre. injection Hpre as <-. vm_compute in Hstep. discriminate. }
  assert (Hr : pending (env w) !! 0 = Some false)
    by (vm_compute in Hpre; injection Hpre as <-; reflexivity).
  assert (Hlater : run [Mount true true; Resolve 1 8; Unmount] w1 = Some w2).
  { rewrite <- Hrun. symmetry.
    change (run ([Mount true true; Unmount]
                 ++ Resolve 0 7 :: [Mount true true; Resolve 1 8; Unmount]) init
            = run [Mount true true; Resolve 1 8; Unmount] w1).
    rewrite feed_run_app, Hpre. cbn [mbind option_bind run]. rewrite Hstep. reflexivity. }
  exact (proj1 (proj2 (proj2 (proj2
           (late_stream_is_abandoned _ _ w w1 w2 0 7 Hpre Hr Hstep Hlater))))).
Defined.

(** X23: the clean-up of the effect stops the stream its closure
    captured, not the one in the state. When the callbacks keep their
    identity the effect does not run again after the stream has
    arrived, so unmounting the feed stops nothing and the camera stays
    on, whatever happens afterwards; with a default callback the effect
    has run again and the unmount stops the stream. *)
Theorem unmount_stops_captured_stream
    (events : list Event) (w : World) (f : Feed) (r : Request) (s : Stream) :
  run events init = Some w →
  feed w = Some f →
  pending (env w) !! r = Some true →
  (stable f = true →
   ∀ later w2, run (Resolve r s :: Unmount :: later) w = Some w2 → abandoned s w2)
  ∧ (stable f = false →
     ∀ w2, run [Resolve r s; Unmount] w = Some w2 → s ∈ stopped (env w2)).
Proof.
  intros Hrun Hf Hr. pose proof (reachable_inv events w Hrun) as Hinv.
  destruct w as [fo e]. cbn [feed env] in *. subst fo.
  pose proof (mounted_enabled f e r Hinv Hr) as Hen.
  split; intros Hst.
  - intros later w2 Hlater. cbn [run apply_event feed env] in Hlater.
    rewrite Hr in Hlater. case_bool_decide as Hfresh; [discriminate |].
    destruct (fresh_unknown _ s Hinv Hfresh) as [Hs Hu]. cbn [feed env] in Hs, Hu.
    destruct (Hu f eq_refl) as (_ & Hcap & _).
    unfold adopt in Hlater. rewrite rerender_stable in Hlater by exact Hst.
    cbn [mbind option_bind commit fst snd apply_event feed env] in Hlater.
    eapply (abandoned_run s later); [| exact Hlater]. split; cbn [feed env].
    + apply cleanup_running; [| exact Hcap]. split; cbn; [| exact Hs].
      apply elem_of_app. right. apply list_elem_of_here.
    + intros f' [=].
  - intros w2 Hlater. cbn [run apply_event feed env] in Hlater.
    rewrite Hr in Hlater. case_bool_decide as Hfresh; [discriminate |].
    unfold adopt in Hlater.
    match type of Hlater with context [rerender ?f0 ?e0] =>
      destruct (rerender_unstable f0 e0 Hst Hen) as (e' & Hre & _); rewrite Hre in Hlater
    end.
    cbn [mbind option_bind commit fst snd apply_event feed env] in Hlater.
    injection Hlater as <-. cbn [env].
    match goal with |- s ∈ stopped (cleanup ?f0 ?e0) =>
      destruct (cleanup_fields f0 e0) as (_ & _ & _ & _ & _ & Est) end.
    apply Est. left. reflexivity.
Qed.

Lemma unmount_stops_captured_stream_witness :
  match run [Mount true true; Resolve 0 7; Unmount] init,
        run [Mount true false; Resolve 0 7; Unmount] init with
  | Some w, Some w' => abandoned 7 w ∧ 7 ∈ stopped (env w')
  | _, _ => False
  end.
Proof.
  destruct (run [Mount true true; Resolve 0 7; Unmount] init) as [w|] eqn:Hrun;
    [| vm_compute in Hrun; discriminate].
  destruct (run [Mount true false; Resolve 0 7; Unmount] init) as [w'|] eqn:Hrun';
    [| vm_compute in Hrun'; discriminate].
  split.
  - destruct (run [Mount true true] init) as [w0|] eqn:H0; [| vm_compute in H0; discriminate].
    assert (Hf : feed w0 = Some (mkFeed true true None None None None))
      by (vm_compute in H0; injection H0 as <-; reflexivity).
    assert (Hr : pending (env w0) !! 0 = Some true)
      by (vm_compute in H0; injection H0 as <-; reflexivity).
    apply (proj1 (unmount_stops_captured_stream _ w0 _ 0 7 H0 Hf Hr) eq_refl []).
    rewrite <- Hrun. symmetry.
    change (run ([Mount true true] ++ [Resolve 0 7; Unmount]) init
            = run [Resolve 0 7; Unmount] w0).
    rewrite feed_run_app, H0. reflexivity.
  - destruct (run [Mount true false] init) as [w0|] eqn:H0; [| vm_compute in H0; discriminate].
    assert (Hf : feed w0 = Some (mkFeed false true None None None None))
      by (vm_compute in H0; injection H0 as <-; reflexivity).
    assert (Hr : pending (env w0) !! 0 = Some true)
      by (vm_compute in H0; injection H0 as <-; reflexivity).
    apply (proj2 (unmount_stops_captured_stream _ w0 _ 0 7 H0 Hf Hr) eq_refl).
    rewrite <- Hrun'. symmetry.
    change (run ([Mount true false] ++ [Resolve 0 7; Unmount]) init
            = run [Resolve 0 7; Unmount] w0).
    rewrite feed_run_app, H0. reflexivity.
Defined.

(** *** Switching the feed off and on *)

Lemma switch_off (f : Feed) (e : Env) (s : Stream) :
  stream f = Some s →
  ∃ f1 e1,
    run_effect (mkFeed (stable f) false (stream f) (error f) (srcObject f) (captured f))
      (cleanup f e) = (f1, e1)
    ∧ stable f1 = stable f ∧ isEnabled f1 = false ∧ stream f1 = None
    ∧ error f1 = error f ∧ srcObject f1 = srcObject f
    ∧ requests e1 = requests e ∧ obtained e1 = obtained e
    ∧ onStreamReady e1 = onStreamReady e
    ∧ (∀ x, x ∈ stopped e1 ↔ x = s ∨ captured f = Some x ∨ x ∈ stopped e).
Proof.
  intros Hs. unfold run_effect, effect_body. cbv zeta. cbn [stable isEnabled stream fst snd].
  rewrite Hs. cbn [negb andb]. rewrite (bool_decide_eq_true_2 (is_Some (Some s))) by eauto.
  destruct (cleanup_fields f e) as (Ep & Er & Eo & El & Ee & Est).
  destruct (stop_tracks_fields (Some s) (cleanup f e)) as (Ep1 & Er1 & Eo1 & El1 & Ee1 & Est1).
  destruct (stable f); cbn [negb andb]; eexists _, _; (split; [reflexivity |]);
    cbn [stable isEnabled stream error srcObject captured].
  - rewrite Er1, Eo1, El1, Er, Eo, El. repeat split; try reflexivity.
    + intros [[= ->] | H]%Est1; [auto | apply Est in H; tauto].
    + intros [-> | H]; apply Est1; [auto | right; apply Est, H].
  - match goal with |- context [cleanup ?f0 ?e0] =>
      destruct (cleanup_fields f0 e0) as (Ep2 & Er2 & Eo2 & El2 & Ee2 & Est2) end.
    cbn [captured stop_tracks] in *.
    rewrite Er2, Eo2, El2, Er1, Eo1, El1, Er, Eo, El. repeat split; try reflexivity.
    + intros [[= ->] | H]%Est2; [auto |].
      apply Est1 in H as [[= ->] | H]; [auto | apply Est in H; tauto].
    + intros [-> | H]; apply Est2; [auto |].
      right. apply Est1. right. apply Est, H.
Qed.

(** X24: switching off a feed that holds a stream stops that stream's
    tracks and empties the state, but leaves the stream on the video
    element and asks the browser nothing; switching it on again makes a
    new request to the camera. *)
Theorem switch_off_stops_switch_on_requests (w : World) (f : Feed) (s : Stream) :
  feed w = Some f →
  isEnabled f = true →
  stream f = Some s →
  ∃ w1 f1 w2,
    apply_event (SetEnabled false) w = Some w1
    ∧ feed w1 = Some f1
    ∧ s ∈ stopped (env w1)
    ∧ isEnabled f1 = false ∧ stream f1 = None ∧ srcObject f1 = srcObject f
    ∧ requests (env w1) = requests (env w)
    ∧ apply_event (SetEnabled true) w1 = Some w2
    ∧ requests (env w2) = S (requests (env w))
    ∧ pending (env w2) !! requests (env w) = Some true.
Proof.
  intros Hf Hen Hs. destruct w as [fo e]. cbn [feed env] in *. subst fo.
  destruct (switch_off f e s Hs) as (f1 & e1 & Hoff & Hst1 & Hen1 & Hs1 & _ & Hsrc & Hr1 & _ & _ & Hstop).
  exists (mkWorld (Some f1) e1), f1. eexists.
  cbn [apply_event feed env]. rewrite Hen.
  rewrite (bool_decide_eq_false_2 (false = true)) by discriminate.
  rewrite andb_false_r, Hoff. cbn [commit fst snd feed env].
  split; [reflexivity |]. split; [reflexivity |]. split; [apply Hstop; auto |].
  split; [exact Hen1 |]. split; [exact Hs1 |]. split; [exact Hsrc |]. split; [exact Hr1 |].
  rewrite Hen1. rewrite (bool_decide_eq_false_2 (true = false)) by discriminate.
  rewrite andb_false_r. split; [reflexivity |].
  unfold run_effect, effect_body. cbv zeta. cbn [stable isEnabled stream negb andb].
  rewrite andb_false_r. cbn [andb commit fst snd env requests pending].
  destruct (cleanup_fields f1 e1) as (_ & Er & _). rewrite Er, Hr1.
  split; [reflexivity |]. apply lookup_insert_eq.
Qed.

Lemma switch_off_stops_switch_on_requests_witness :
  match run [Mount true true; Resolve 0 7] init with
  | Some w =>
      ∃ w1 w2,
        apply_event (SetEnabled false) w = Some w1
        ∧ 7 ∈ stopped (env w1)
        ∧ apply_event (SetEnabled true) w1 = Some w2
        ∧ requests (env w2) = 2
  | None => False
  end.
Proof.
  destruct (run [Mount true true; Resolve 0 7] init) as [w|] eqn:Hrun;
    [| vm_compute in Hrun; discriminate].
  assert (Hf : feed w = Some (mkFeed true true (Some 7) None (Some 7) None))
    by (vm_compute in Hrun; injection Hrun as <-; reflexivity).
  assert (Hr : requests (env w) = 1)
    by (vm_compute in Hrun; injection Hrun as <-; reflexivity).
  destruct (switch_off_stops_switch_on_requests w _ 7 Hf eq_refl eq_refl)
    as (w1 & f1 & w2 & H1 & _ & H3 & _ & _ & _ & _ & H8 & H9 & _).
  exists w1, w2. rewrite Hr in H9. auto.
Defined.

(** X25: with a default callback every answer of the browser makes the
    effect run again: when the stream arrives, and when the request
    fails, the feed asks for the camera once more, and waits for that
    request as it waited for the one just answered. The stream that
    arrived is the one the next clean-up stops. *)
Theorem default_callback_asks_again
    (events : list Event) (w : World) (f : Feed) (r : Request) :
  run events init = Some w →
  feed w = Some f →
  stable f = false →
  pending (env w) !! r = Some true →
  (∀ s, s ∉ obtained (env w) →
        ∃ w' f', apply_event (Resolve r s) w = Some w'
                 ∧ feed w' = Some f'
                 ∧ stable f' = false ∧ stream f' = Some s ∧ captured f' = Some s
                 ∧ requests (env w') = S (requests (env w))
                 ∧ pending (env w') !! requests (env w) = Some true)
  ∧ (∀ err,
        ∃ w' f', apply_event (Reject r err) w = Some w'
                 ∧ feed w' = Some f'
                 ∧ stable f' = false ∧ error f' = Some (message_of err)
                 ∧ requests (env w') = S (requests (env w))
                 ∧ pending (env w') !! requests (env w) = Some true).
Proof.
  intros Hrun Hf Hst Hr. pose proof (reachable_inv events w Hrun) as Hinv.
  destruct w as [fo e]. cbn [feed env] in *. subst fo.
  pose proof (mounted_enabled f e r Hinv Hr) as Hen.
  split.
  - intros s Hfresh. cbn [apply_event feed env]. rewrite Hr.
    rewrite bool_decide_eq_false_2 by exact Hfresh. unfold adopt.
    match goal with |- context [rerender ?f0 ?e0] =>
      destruct (rerender_unstable f0 e0 Hst Hen) as (e' & -> & Hreq & Hp & _)
    end.
    eexists _, _. split; [reflexivity |]. cbn [commit fst snd feed env].
    split; [reflexivity |]. cbn in Hreq, Hp. auto.
  - intros err. cbn [apply_event feed env]. rewrite Hr. unfold report.
    match goal with |- context [rerender ?f0 ?e0] =>
      destruct (rerender_unstable f0 e0 Hst Hen) as (e' & -> & Hreq & Hp & _)
    end.
    eexists _, _. split; [reflexivity |]. cbn [commit fst snd feed env].
    split; [reflexivity |]. cbn in Hreq, Hp. auto.
Qed.

Lemma default_callback_asks_again_witness :
  match run [Mount true false; Resolve 0 7; Resolve 1 8] init with
  | Some w =>
      ∃ w', apply_event (Reject 2 None) w = Some w'
            ∧ requests (env w') = 4
            ∧ pending (env w') !! 3 = Some true
  | None => False
  end.
Proof.
  destruct (run [Mount true false; Resolve 0 7; Resolve 1 8] init) as [w|] eqn:Hrun;
    [| vm_compute in Hrun; discriminate].
  assert (Hf : feed w = Some (mkFeed false true (Some 8) None (Some 8) (Some 8)))
    by (vm_compute in Hrun; injection Hrun as <-; reflexivity).
  assert (Hr : pending (env w) !! 2 = Some true)
    by (vm_compute in Hrun; injection Hrun as <-; reflexivity).
  assert (Hn : requests (env w) = 3)
    by (vm_compute in Hrun; injection Hrun as <-; reflexivity).
  destruct (proj2 (default_callback_asks_again _ w _ 2 Hrun Hf eq_refl Hr) None)
    as (w' & f' & H1 & _ & _ & _ & H5 & H6).
  exists w'. rewrite Hn in H5, H6. auto.
Defined.

(** X26: a feed that shows the error panel has no video source. The
    stream that arrives in that state, after the feed was switched off
    and on, is stored and handed to [onStreamReady], and the error
    panel goes away, but the video element rendered in its place has no
    source: the stream is not shown. *)
Theorem stream_after_error_is_not_shown
    (events : list Event) (w : World) (f : Feed) :
  run events init = Some w →
  feed w = Some f →
  is_Some (error f) →
  srcObject f = None
  ∧ (∀ r s w',
        stable f = true →
        pending (env w) !! r = Some true →
        apply_event (Resolve r s) w = Some w' →
        ∃ f', feed w' = Some f'
              ∧ stream f' = Some s ∧ error f' = None ∧ srcObject f' = None
              ∧ onStreamReady (env w') = onStreamReady (env w) ++ [s]).
Proof.
  intros Hrun Hf [m Hm]. pose proof (reachable_inv events w Hrun) as Hinv.
  destruct w as [fo e]. cbn [feed env] in *. subst fo.
  split; [apply (ok_error f e Hinv); eauto |].
  intros r s w' Hst Hr Hstep. cbn [apply_event feed env] in Hstep. rewrite Hr in Hstep.
  case_bool_decide; [discriminate |]. unfold adopt in Hstep.
  rewrite rerender_stable in Hstep by exact Hst. injection Hstep as <-.
  eexists. cbn [commit fst snd feed env]. split; [reflexivity |].
  cbn. rewrite Hm. auto.
Qed.

Lemma stream_after_error_is_not_shown_witness :
  match run [Mount true true; Reject 0 None; SetEnabled false; SetEnabled true] init with
  | Some w =>
      ∃ w' f', apply_event (Resolve 1 7) w = Some w'
               ∧ feed w' = Some f'
               ∧ stream f' = Some 7 ∧ srcObject f' = None
  | None => False
  end.
Proof.
  destruct (run [Mount true true; Reject 0 None; SetEnabled false; SetEnabled true] init)
    as [w|] eqn:Hrun; [| vm_compute in Hrun; discriminate].
  assert (Hf : feed w = Some (mkFeed true true None (Some "Failed to access webcam"%string)
                                None None))
    by (vm_compute in Hrun; injection Hrun as <-; reflexivity).
  assert (Hr : pending (env w) !! 1 = Some true)
    by (vm_compute in Hrun; injection Hrun as <-; reflexivity).
  destruct (apply_event (Resolve 1 7) w) as [w'|] eqn:Hstep.
  2:{ vm_compute in Hrun. injection Hrun as <-. vm_compute in Hstep. discriminate. }
  destruct (proj2 (stream_after_error_is_not_shown _ w _ Hrun Hf ltac:(eauto))
              1 7 w' eq_refl Hr Hstep) as (f' & H1 & H2 & _ & H4 & _).
  exists w', f'. auto.
Defined.

End LocalFeedFacts.

(** ** The instructor video and the YouTube variant *)

Module InstructorFacts.
Import InstructorVideo Instructor.

Lemma last_told_snoc (log : list VideoContainer.MediaCall)
    (c : VideoContainer.MediaCall) (b : bool) (t d : Js.number) :
  transport c = true →
  last_told (mkState b t d (Some (log ++ [c]))) = Some c.
Proof.
  intros Hc. unfold last_told. cbn. rewrite List.filter_app. cbn. rewrite Hc.
  apply last_snoc.
Qed.

(** One event: the flag implies the last call, and the converse unless
    the video has ended by itself. *)
Lemma handle_sync (e : Event) (c : Component) :
  (isPlaying (state c) = true → told_to_play (state c)) →
  (isPlaying (state (handle e c)) = true → told_to_play (state (handle e c)))
  ∧ (e ≠ Ended →
     (told_to_play (state c) → isPlaying (state c) = true) →
     told_to_play (state (handle e c)) → isPlaying (state (handle e c)) = true).
Proof.
  intros Hfw. destruct c as [[p t d vr] tu en]. cbn [state] in *.
  unfold told_to_play in *.
  destruct e as [| time | d' | value | |]; cbn [handle on_state state].
  - unfold handlePlayPause. cbn [videoRef isPlaying currentTime duration].
    destruct vr as [log|]; [| split; [exact Hfw | intros _ Hbw; exact Hbw]].
    rewrite !last_told_snoc by (destruct p; reflexivity).
    destruct p; cbn; split; try discriminate; try reflexivity; intros _ _ [=].
  - unfold handleTimeUpdate. cbn [state videoRef isPlaying currentTime duration].
    destruct vr as [log|]; cbn [state]; (split; [exact Hfw | intros _ Hbw; exact Hbw]).
  - unfold handleLoadedMetadata. cbn [videoRef isPlaying currentTime duration].
    destruct vr as [log|]; (split; [exact Hfw | intros _ Hbw; exact Hbw]).
  - unfold handleSeek. cbn [videoRef isPlaying currentTime duration].
    destruct vr as [log|]; [| split; [exact Hfw | intros _ Hbw; exact Hbw]].
    assert (E : ∀ b t', last_told (mkState b t' d
                                     (Some (log ++ [VideoContainer.el_set_currentTime
                                                      (VideoContainer.first value)])))
                        = last_told (mkState b t d (Some log))).
    { intros b t'. unfold last_told. cbn. rewrite List.filter_app. cbn.
      rewrite app_nil_r. reflexivity. }
    cbn [isPlaying]. rewrite E. split; [exact Hfw | intros _ Hbw; exact Hbw].
  - unfold handleReset. cbn [videoRef isPlaying currentTime duration].
    destruct vr as [log|]; [| split; [exact Hfw | intros _ Hbw; exact Hbw]].
    cbn [isPlaying]. split; [discriminate |]. intros _ _.
    unfold last_told. cbn. rewrite List.filter_app. cbn.
    change [VideoContainer.el_pause] with ([] ++ [VideoContainer.el_pause]).
    rewrite app_assoc, last_snoc. discriminate.
  - unfold handleEnded. cbn [state isPlaying].
    split; [discriminate | intros Hne; destruct (Hne eq_refl)].
Qed.

(** X28: the play/pause button of the instructor video shows the pause
    icon only if the last of [play()] and [pause()] called on the
    element was [play()], whatever the sequence of clicks, seeks,
    resets and events of the element; as long as the video has not
    ended by itself the converse holds too. After the [ended] event the
    flag is off although the element was last told to play. *)
Theorem instructor_button_follows_calls (events : list Event) (c : Component) :
  (isPlaying (state c) = true → told_to_play (state c)) →
  (isPlaying (state (replay events c)) = true → told_to_play (state (replay events c)))
  ∧ (Ended ∉ events →
     (told_to_play (state c) → isPlaying (state c) = true) →
     told_to_play (state (replay events c)) →
     isPlaying (state (replay events c)) = true).
Proof.
  revert c. induction events as [|e events IH]; intros c Hfw.
  - split; [exact Hfw | intros _ Hbw; exact Hbw].
  - change (replay (e :: events) c) with (replay events (handle e c)).
    destruct (handle_sync e c Hfw) as [Hfw1 Hbw1].
    destruct (IH (handle e c) Hfw1) as [Hfw2 Hbw2].
    split; [exact Hfw2 |].
    intros Hne Hbw. apply not_elem_of_cons in Hne as [Hne1 Hne2].
    apply Hbw2; [exact Hne2 |]. apply Hbw1; [congruence | exact Hbw].
Qed.

Lemma instructor_button_follows_calls_witness :
  told_to_play (state (replay [PlayPause; Seek [7%float]] start))
  ∧ isPlaying (state (replay [PlayPause; Seek [7%float]] start)) = true
  ∧ told_to_play (state (replay [PlayPause; Ended] start))
  ∧ isPlaying (state (replay [PlayPause; Ended] start)) = false.
Proof.
  assert (H0 : isPlaying (state start) = true → told_to_play (state start))
    by discriminate.
  destruct (instructor_button_follows_calls [PlayPause; Seek [7%float]] start H0)
    as [Hfw _].
  split; [apply Hfw; reflexivity |]. split; [reflexivity |].
  split; reflexivity.
Defined.

End InstructorFacts.

Module YouTubeFacts.
Import YouTubeContainer YouTubePlayback.

Lemma handle_timers (e : Event) (p : Page) :
  timers (handle e p) = timers p
  ∧ intervalRef (handle e p) = intervalRef p
  ∧ nextTimer (handle e p) = nextTimer p.
Proof. destruct e; repeat split. Qed.

Lemma effects_inv (before : bool) (p : Page) :
  (0 < nextTimer p)%nat →
  (∀ id, intervalRef p = Some id → 0 < id < nextTimer p) →
  (if before then ∃ id, intervalRef p = Some id ∧ timers p = {[id]} else timers p = ∅) →
  timer_inv (effects before p).
Proof.
  intros Hn Hid Ht. unfold effects. case_bool_decide as Hsame.
  - unfold timer_inv. rewrite Hsame. auto.
  - assert (Hclear : timers (clearTimer p) = ∅
                     ∧ intervalRef (clearTimer p) = intervalRef p
                     ∧ nextTimer (clearTimer p) = nextTimer p
                     ∧ player (clearTimer p) = player p).
    { unfold clearTimer. destruct before.
      - destruct Ht as (id & Hr & Hs). rewrite Hr.
        rewrite bool_decide_eq_false_2 by (specialize (Hid id Hr); lia).
        cbn. rewrite Hs, difference_diag_L. repeat split.
      - destruct (intervalRef p) as [id|] eqn:Hr; [| rewrite Hr; repeat split; exact Ht].
        case_bool_decide; [rewrite Hr; repeat split; exact Ht |].
        cbn. rewrite Ht, empty_difference_L. repeat split. }
    destruct Hclear as (Hc1 & Hc2 & Hc3 & Hc4).
    unfold startTimer, timer_inv. rewrite Hc4.
    destruct (isPlaying (player p)) eqn:Hp; cbn; rewrite ?Hp.
    + split; [lia |]. split.
      * intros id [= <-]. rewrite Hc3. lia.
      * exists (nextTimer (clearTimer p)). split; [reflexivity |].
        rewrite Hc1. apply union_empty_r_L.
    + rewrite Hc1, Hc2, Hc3, Hc4, Hp. auto.
Qed.

Lemma timer_step (e : Event) (p p' : Page) :
  timer_inv p → apply_event e p = Some p' → timer_inv p'.
Proof.
  intros (Hn & Hid & Ht) Hstep.
  assert (Hp : p' = effects (isPlaying (player p)) (handle e p)).
  { destruct e; cbn [apply_event] in Hstep; try congruence.
    case_bool_decide; [discriminate | congruence]. }
  subst p'. destruct (handle_timers e p) as (E1 & E2 & E3).
  apply effects_inv; rewrite ?E1, ?E2, ?E3; assumption.
Qed.

Lemma timer_init : timer_inv init.
Proof. split; [cbn; lia |]. split; [intros id [=] | reflexivity]. Qed.

(** X29: in the YouTube variant the position is polled by one interval
    timer exactly while the play flag is set: in every state the page
    can reach a single timer runs, the one whose id is in
    [intervalRef], when [isPlaying] is true, and none runs when it is
    false, so a tick can only arrive while the flag is set. *)
Theorem one_timer_while_playing (events : list Event) (p : Page) :
  run events init = Some p →
  (if isPlaying (player p)
   then ∃ id, intervalRef p = Some id ∧ timers p = {[id]}
   else timers p = ∅)
  ∧ (∀ time, is_Some (apply_event (Tick time) p) ↔ isPlaying (player p) = true).
Proof.
  intros Hrun.
  assert (Hinv : timer_inv p).
  { revert Hrun. generalize timer_init. generalize init.
    induction events as [|e events IH]; intros p0 H0 Hrun; cbn in Hrun.
    - injection Hrun as <-. exact H0.
    - destruct (apply_event e p0) as [p1|] eqn:Hstep; [| discriminate].
      cbn in Hrun. exact (IH p1 (timer_step e p0 p1 H0 Hstep) Hrun). }
  destruct Hinv as (_ & _ & Ht). split; [exact Ht |].
  intros time. cbn [apply_event]. destruct (isPlaying (player p)).
  - destruct Ht as (id & _ & Hs). rewrite bool_decide_eq_false_2.
    + split; [reflexivity | eauto].
    + rewrite Hs. apply non_empty_singleton_L.
  - rewrite bool_decide_eq_true_2 by exact Ht. split; [intros [x [=]] | discriminate].
Qed.

Lemma one_timer_while_playing_witness :
  match run [Submit "dQw4w9WgXcQ"; PlayerReady 212; PlayPause; StateChange 1; Tick 1;
             StateChange 2; StateChange 1] init with
  | Some p => timers p = {[2]} ∧ intervalRef p = Some 2
  | None => False
  end.
Proof.
  destruct (run [Submit "dQw4w9WgXcQ"; PlayerReady 212; PlayPause; StateChange 1; Tick 1;
                 StateChange 2; StateChange 1] init) as [p|] eqn:Hrun;
    [| vm_compute in Hrun; discriminate].
  assert (Hp : isPlaying (player p) = true)
    by (vm_compute in Hrun; injection Hrun as <-; reflexivity).
  assert (Hr : intervalRef p = Some 2)
    by (vm_compute in Hrun; injection Hrun as <-; reflexivity).
  destruct (one_timer_while_playing _ p Hrun) as [Ht _]. rewrite Hp in Ht.
  destruct Ht as (id & Hid & Hs). rewrite Hid in Hr. injection Hr as ->. auto.
Defined.

End YouTubeFacts.
